(** * FlatNav: a shallow embedding of the graph engine, the centroid
    trainer (k-means and its initialisations), the SIMD distance kernels
    and the index builder.

  Sources embedded:
  - [flatnav/Index.h]                          (module [FlatNav])
  - [quantization/CentroidsGenerator.h]        (module [Centroids])
  - [flatnav/util/SIMDDistanceSpecializations.h] (module [Kernels])
  - [tools/construct_npy.cpp]                  (module [Tools])

  Conventions.
  - The node block [_index_memory] is a flat [list byte]; the accessors
    [getNodeData], [getNodeLinks], [getNodeLabel] are the pointer
    arithmetic of the source, read through [Mem.read]/[Mem.write].
  - [node_id_t] (unsigned int) values are stored as 4 little-endian bytes;
    [size_t] header fields as 8 little-endian bytes (x86, the only target
    of the SIMD kernels).
  - C++ [int] arguments compared against [size_t] values are converted
    the way the usual arithmetic conversions do ([size_t_of_int]). *)

From Stdlib Require Import List ZArith Lia Bool Arith PeanoNat Permutation.
From Stdlib Require Import Sorting.Sorted.
From Stdlib Require Import Floats.SpecFloat.
From Stdlib Require Strings.String Strings.Ascii.
From coqutil Require Import Byte Word.LittleEndianList.
Import ListNotations.

Local Open Scope nat_scope.

(** ** Flat byte buffers *)

Module Mem.

(** [read off len m]: the [len] bytes of [m] starting at [off].  A read
    past the end of the buffer (undefined in C++) yields zero bytes. *)
Definition read (off len : nat) (m : list byte) : list byte :=
  map (fun i => nth (off + i) m Byte.x00) (seq 0 len).

(** [write off bs m]: [memcpy(m + off, bs, |bs|)].  Bytes that would fall
    past the end of the buffer (undefined in C++) are dropped, so the
    buffer never changes size. *)
Fixpoint write (off : nat) (bs m : list byte) : list byte :=
  match m with
  | [] => []
  | b :: m' =>
      match off with
      | S off' => b :: write off' bs m'
      | O => match bs with
             | [] => m
             | b' :: bs' => b' :: write 0 bs' m'
             end
      end
  end.

End Mem.

(** ** Integer conversions of the source *)

(** [int] to [size_t], as done by the usual arithmetic conversions when an
  [int] is compared with a [size_t] ([neighbors.size() < buffer_size]). *)
Definition size_t_of_int (z : Z) : Z := (z mod 2 ^ 64)%Z.

(** [size_t] to [int] ([selectNeighbors(neighbors, _M)], [int step_size]). *)
Definition int_of_size_t (z : Z) : Z := ((z + 2 ^ 31) mod 2 ^ 32 - 2 ^ 31)%Z.

(** [size_t] to [node_id_t] ([new_node_id = _cur_num_nodes]). *)
Definition node_id_of_size_t (n : nat) : nat :=
Z.to_nat (Z.of_nat n mod 2 ^ 32).

(** Object representation of a [node_id_t] and of a [size_t]. *)
Definition encode_node_id (n : nat) : list byte := le_split 4 (Z.of_nat n).
Definition decode_node_id (bs : list byte) : nat := Z.to_nat (le_combine bs).
Definition encode_size_t (n : nat) : list byte := le_split 8 (Z.of_nat n).
Definition decode_size_t (bs : list byte) : nat := Z.to_nat (le_combine bs).

(** ** Template parameters of [Index<dist_t, label_t>] *)

(** The [float] values the engine handles are only compared ([<]), negated
  (to turn the max-heap into a min-heap) and initialised to
  [numeric_limits<float>::max()]. *)
Class float_ops (F : Type) := {
fltb : F -> F -> bool;
fneg : F -> F;
FLT_MAX : F
}.

(** [sizeof(label_t)]. *)
Class label_ops := { sizeof_label_t : nat }.

(** The order facts used where a theorem depends on them: the distances
    that occur are ordinary numbers, so [<] is a strict total order (no
    NaN, and the two zeros are not told apart) that negation reverses. *)
Class float_laws (F : Type) {FO : float_ops F} : Prop := {
  fltb_irrefl : forall a, fltb a a = false;
  fltb_trans : forall a b c, fltb a b = true -> fltb b c = true -> fltb a c = true;
  fltb_total : forall a b, fltb a b = false -> fltb b a = false -> a = b;
  fneg_involutive : forall a, fneg (fneg a) = a;
  fltb_fneg : forall a b, fltb (fneg a) (fneg b) = fltb b a
}.

(** ** std::priority_queue<std::pair<float, node_id_t>> *)

Module PQ.
Section PQ.
Context {F : Type} {FO : float_ops F}.

Definition dist_node_t : Type := F * nat.

(** [operator<] of [std::pair<float, unsigned>]. *)
Definition pair_lt (a b : dist_node_t) : bool :=
  fltb (fst a) (fst b) || (negb (fltb (fst b) (fst a)) && (snd a <? snd b)).

(** The queue is kept as the list of its elements in the order [pop]
    would deliver them: [top] is the head.  (For a comparison that is a
    strict weak order this is what a binary heap delivers, up to the
    order of elements that compare equivalent.) *)
Definition t : Type := list dist_node_t.

Definition empty : t := [].

Fixpoint emplace (x : dist_node_t) (q : t) : t :=
  match q with
  | [] => [x]
  | y :: q' => if pair_lt y x then x :: q else y :: emplace x q'
  end.

Definition size (q : t) : nat := length q.

Definition pop (q : t) : t := tl q.

End PQ.
End PQ.

(** ** Collaborators of the engine whose sources are not embedded *)

(** Modelled from the spec: [ExplicitSet] (flatnav/util/ExplicitSet.h, the
  visited set) is used by [Index] but its source is missing.  The spec
  describes it as a visited set of fixed capacity, "initially empty",
  whose members are "marked visited", which is "cleared at the start of
  every search", and of which the save format records the capacity as one
  [u64].  [clear], [insert] and [mem] ([operator[]]) are the three
  operations [Index] calls. *)
Module ExplicitSet.
Record t := { capacity : nat; marks : list nat }.
Definition make (cap : nat) : t := {| capacity := cap; marks := [] |}.
Definition clear (s : t) : t := make (capacity s).
Definition insert (n : nat) (s : t) : t :=
  {| capacity := capacity s; marks := n :: marks s |}.
Definition mem (n : nat) (s : t) : bool := existsb (Nat.eqb n) (marks s).
Definition serialize (s : t) : list byte := encode_size_t (capacity s).
End ExplicitSet.

Section Interfaces.
Context {F : Type}.

(** [DistanceInterface<dist_t>] (flatnav/DistanceInterface.h is missing):
    the capability set the engine calls, taken as a parameter.  Data
    regions are handed over as raw bytes ([const void *]);
    [dimension] is archived as a [size_t], the type [loadIndex] reads it
    back with. *)
Record DistanceInterface := {
  distance : list byte -> list byte -> F;
  dataSize : nat;
  transformData : list byte -> list byte;
  dimension : nat
}.

(** [ProductQuantizer<dist_t>] (quantization/BaseProductQuantization.h is
    missing): the operations the engine calls, taken as a parameter. *)
Record ProductQuantizer := {
  isTrained : bool;
  getCodeSize : nat;
  computePQCode : list byte -> list byte;
  getDistance : list byte -> list byte -> F;
  getSymmetricDistance : list byte -> list byte -> F
}.
End Interfaces.
Arguments DistanceInterface : clear implicits.
Arguments ProductQuantizer : clear implicits.

(** ** The graph engine: [flatnav::Index<dist_t, label_t>] *)

Module FlatNav.

(** [typedef unsigned int node_id_t;] *)
Abbreviation node_id_t := nat (only parsing).

Section Index.
Context {F : Type} {FO : float_ops F} {LO : label_ops}.

Definition label_t : Type := list byte.
Definition dist_node_t : Type := F * node_id_t.
Definition dist_label_t : Type := F * label_t.
Definition PriorityQueue : Type := list dist_node_t.

Record Index := {
  _index_memory : list byte;
  _transformed_query : list byte;
  _M : nat;
  _data_size_bytes : nat;
  _node_size_bytes : nat;
  _max_node_count : nat;
  _cur_num_nodes : nat;
  _distance : DistanceInterface F;
  _visited_nodes : ExplicitSet.t;
  _product_quantizer : option (ProductQuantizer F)
}.

Definition set_index_memory (idx : Index) (m : list byte) : Index :=
  {| _index_memory := m;
     _transformed_query := _transformed_query idx;
     _M := _M idx;
     _data_size_bytes := _data_size_bytes idx;
     _node_size_bytes := _node_size_bytes idx;
     _max_node_count := _max_node_count idx;
     _cur_num_nodes := _cur_num_nodes idx;
     _distance := _distance idx;
     _visited_nodes := _visited_nodes idx;
     _product_quantizer := _product_quantizer idx |}.

Definition set_cur_num_nodes (idx : Index) (n : nat) : Index :=
  {| _index_memory := _index_memory idx;
     _transformed_query := _transformed_query idx;
     _M := _M idx;
     _data_size_bytes := _data_size_bytes idx;
     _node_size_bytes := _node_size_bytes idx;
     _max_node_count := _max_node_count idx;
     _cur_num_nodes := n;
     _distance := _distance idx;
     _visited_nodes := _visited_nodes idx;
     _product_quantizer := _product_quantizer idx |}.

Definition set_visited_nodes (idx : Index) (v : ExplicitSet.t) : Index :=
  {| _index_memory := _index_memory idx;
     _transformed_query := _transformed_query idx;
     _M := _M idx;
     _data_size_bytes := _data_size_bytes idx;
     _node_size_bytes := _node_size_bytes idx;
     _max_node_count := _max_node_count idx;
     _cur_num_nodes := _cur_num_nodes idx;
     _distance := _distance idx;
     _visited_nodes := v;
     _product_quantizer := _product_quantizer idx |}.

(** *** The constructor.  [new char[n]] leaves a block uninitialised:
    its content is whatever [garbage] the allocator hands out.  The
    sizes are sums and products of [size_t] values, which wrap around at
    2^64 in the code and are unbounded here; the facts below are stated
    for [0 <= dataset_size, max_edges_per_node < 2^31], where nothing
    wraps around for any data size below 2^32. *)
Definition mkIndex (dist : DistanceInterface F)
           (dataset_size max_edges_per_node : Z)
           (pq : option (ProductQuantizer F))
           (garbage garbage_query : list byte) : option Index :=
  let untrained :=
    match pq with Some q => negb (isTrained q) | None => false end in
  if untrained then None (* throw std::runtime_error *)
  else
    let M := Z.to_nat (size_t_of_int max_edges_per_node) in
    let max_node_count := Z.to_nat (size_t_of_int dataset_size) in
    let data_size_bytes :=
      match pq with Some q => getCodeSize q | None => dataSize dist end in
    let node_size_bytes := data_size_bytes + 4 * M + sizeof_label_t in
    Some {| _index_memory :=
              Mem.read 0 (node_size_bytes * max_node_count) garbage;
            _transformed_query := Mem.read 0 data_size_bytes garbage_query;
            _M := M;
            _data_size_bytes := data_size_bytes;
            _node_size_bytes := node_size_bytes;
            _max_node_count := max_node_count;
            _cur_num_nodes := 0;
            _distance := dist;
            _visited_nodes := ExplicitSet.make (Z.to_nat (dataset_size + 1));
            _product_quantizer := pq |}.

(** *** Address arithmetic *)

Definition data_off (idx : Index) (n : node_id_t) : nat :=
  n * _node_size_bytes idx.
Definition links_off (idx : Index) (n : node_id_t) : nat :=
  n * _node_size_bytes idx + _data_size_bytes idx.
Definition label_off (idx : Index) (n : node_id_t) : nat :=
  n * _node_size_bytes idx + _data_size_bytes idx + _M idx * 4.

Definition getNodeData (idx : Index) (n : node_id_t) : list byte :=
  Mem.read (data_off idx n) (_data_size_bytes idx) (_index_memory idx).

(** [getNodeLinks(n)[i]] and [getNodeLinks(n)[i] = v]. *)
Definition getLink (idx : Index) (n : node_id_t) (i : nat) : node_id_t :=
  decode_node_id (Mem.read (links_off idx n + 4 * i) 4 (_index_memory idx)).

Definition setLink (idx : Index) (n : node_id_t) (i : nat) (v : nat) : Index :=
  set_index_memory idx
    (Mem.write (links_off idx n + 4 * i) (encode_node_id v) (_index_memory idx)).

Definition getNodeLinks (idx : Index) (n : node_id_t) : list node_id_t :=
  map (getLink idx n) (seq 0 (_M idx)).

Definition getNodeLabel (idx : Index) (n : node_id_t) : label_t :=
  Mem.read (label_off idx n) sizeof_label_t (_index_memory idx).

(** *** Distances between a query and a node, and between two nodes *)

Definition query_distance (idx : Index) (query : list byte) (n : node_id_t) : F :=
  match _product_quantizer idx with
  | Some q => getDistance q query (getNodeData idx n)
  | None => distance (_distance idx) query (getNodeData idx n)
  end.

Definition node_distance (idx : Index) (a b : node_id_t) : F :=
  match _product_quantizer idx with
  | Some q => getSymmetricDistance q (getNodeData idx a) (getNodeData idx b)
  | None => distance (_distance idx) (getNodeData idx a) (getNodeData idx b)
  end.

(** *** [allocateNode] *)

Definition allocateNode (idx : Index) (data : list byte) (label : label_t)
  : option (node_id_t * Index) :=
  if _max_node_count idx <=? _cur_num_nodes idx then None
  else
    let cur := _cur_num_nodes idx in
    let new_node_id := node_id_of_size_t cur in
    let stored :=
      match _product_quantizer idx with
      | Some q => firstn (_data_size_bytes idx) (computePQCode q data)
      | None => firstn (dataSize (_distance idx))
                       (transformData (_distance idx) data)
      end in
    let idx1 :=
      set_index_memory idx
        (Mem.write (data_off idx cur) stored (_index_memory idx)) in
    let idx2 :=
      set_index_memory idx1
        (Mem.write (label_off idx1 cur) (firstn sizeof_label_t label)
                   (_index_memory idx1)) in
    let idx3 :=
      fold_left (fun ix i => setLink ix cur i cur) (seq 0 (_M idx2)) idx2 in
    Some (new_node_id, set_cur_num_nodes idx3 (S cur)).

(** *** [swapNodes], through the three scratch buffers *)

Definition swapNodes (idx : Index) (a b : node_id_t) : Index :=
  let dsz := _data_size_bytes idx in
  let lsz := _M idx * 4 in
  let m0 := _index_memory idx in
  (* stash b in temp *)
  let temp_data := Mem.read (data_off idx b) dsz m0 in
  let temp_links := Mem.read (links_off idx b) lsz m0 in
  let temp_label := Mem.read (label_off idx b) sizeof_label_t m0 in
  (* place node at a in b *)
  let m1 := Mem.write (data_off idx b) (Mem.read (data_off idx a) dsz m0) m0 in
  let m2 := Mem.write (links_off idx b) (Mem.read (links_off idx a) lsz m1) m1 in
  let m3 := Mem.write (label_off idx b)
              (Mem.read (label_off idx a) sizeof_label_t m2) m2 in
  (* put node b in a *)
  let m4 := Mem.write (data_off idx a) temp_data m3 in
  let m5 := Mem.write (links_off idx a) temp_links m4 in
  let m6 := Mem.write (label_off idx a) temp_label m5 in
  set_index_memory idx m6.

(** *** [initializeSearch] *)

(** [int step_size = _cur_num_nodes / num_initializations], the [int]
    argument converted to [size_t] for the division and the quotient
    back to [int]; [if (step_size <= 0) step_size = 1].  The division is
    reached with [num_initializations != 0] only, see [initializeSearch]. *)

Definition step_size (idx : Index) (num_initializations : Z) : nat :=
  let s := int_of_size_t
             (Z.of_nat (_cur_num_nodes idx) / size_t_of_int num_initializations) in
  if (s <=? 0)%Z then 1 else Z.to_nat s.

(** The loop [for (node = 0; node < _cur_num_nodes; node += step_size)];
    [step_size >= 1], so [_cur_num_nodes] rounds exhaust it.  [node] is
    a [node_id_t]; with [_cur_num_nodes < 2^31], as the invariant [Inv]
    below has it, [node + step_size] stays below 2^32 and the counter
    does not wrap around.  The facts on this loop are stated under that
    bound. *)
Fixpoint initializeSearch_loop (idx : Index) (query : list byte) (step : nat)
         (rounds : nat) (node : node_id_t) (min_dist : F) (entry_node : node_id_t)
  : node_id_t :=
  match rounds with
  | 0 => entry_node
  | S rounds' =>
      if node <? _cur_num_nodes idx then
        let dist := query_distance idx query node in
        if fltb dist min_dist
        then initializeSearch_loop idx query step rounds' (node + step) dist node
        else initializeSearch_loop idx query step rounds' (node + step)
                                   min_dist entry_node
      else entry_node
  end.

(** [assert(num_initializations != 0)] stops the program at 0; where
    the assertion is compiled out, the division by zero that follows
    does.  [None] is that abort. *)
Definition initializeSearch (idx : Index) (query : list byte)
           (num_initializations : Z) : option node_id_t :=
  if (num_initializations =? 0)%Z then None
  else Some (initializeSearch_loop idx query (step_size idx num_initializations)
                                   (_cur_num_nodes idx) 0 FLT_MAX 0).

(** *** [beamSearch] *)

Record beam_state := {
  bs_visited : ExplicitSet.t;
  bs_candidates : PriorityQueue;   (* C, keyed by negated distance *)
  bs_neighbors : PriorityQueue;    (* W *)
  bs_max_dist : F
}.

(** The body of [for (int i = 0; i < _M; i++)] for the link [l]. *)
Definition beam_visit (idx : Index) (query : list byte) (buffer_size : Z)
           (st : beam_state) (l : node_id_t) : beam_state :=
  if ExplicitSet.mem l (bs_visited st) then st
  else
    let visited := ExplicitSet.insert l (bs_visited st) in
    let dist := query_distance idx query l in
    if (Z.of_nat (PQ.size (bs_neighbors st)) <? size_t_of_int buffer_size)%Z
       || fltb dist (bs_max_dist st)
    then
      let candidates := PQ.emplace (fneg dist, l) (bs_candidates st) in
      let pushed := PQ.emplace (dist, l) (bs_neighbors st) in
      let neighbors :=
        if (size_t_of_int buffer_size <? Z.of_nat (PQ.size pushed))%Z
        then PQ.pop pushed else pushed in
      let max_dist :=
        match neighbors with
        | [] => bs_max_dist st
        | top :: _ => fst top
        end in
      {| bs_visited := visited; bs_candidates := candidates;
         bs_neighbors := neighbors; bs_max_dist := max_dist |}
    else
      {| bs_visited := visited; bs_candidates := bs_candidates st;
         bs_neighbors := bs_neighbors st; bs_max_dist := bs_max_dist st |}.

(** [while (!candidates.empty())]: one unit of [fuel] per expanded
    candidate; [None] when the fuel runs out. *)
Fixpoint beam_loop (idx : Index) (query : list byte) (buffer_size : Z)
         (fuel : nat) (st : beam_state) : option beam_state :=
  match bs_candidates st with
  | [] => Some st
  | d_node :: rest =>
      if fltb (bs_max_dist st) (fneg (fst d_node)) then Some st
      else
        match fuel with
        | 0 => None
        | S fuel' =>
            beam_loop idx query buffer_size fuel'
              (fold_left (beam_visit idx query buffer_size)
                 (getNodeLinks idx (snd d_node))
                 {| bs_visited := bs_visited st; bs_candidates := rest;
                    bs_neighbors := bs_neighbors st;
                    bs_max_dist := bs_max_dist st |})
        end
  end.

Definition beam_init (idx : Index) (query : list byte) (entry_node : node_id_t)
  : beam_state :=
  let dist := query_distance idx query entry_node in
  {| bs_visited := ExplicitSet.insert entry_node
                     (ExplicitSet.clear (_visited_nodes idx));
     bs_candidates := PQ.emplace (fneg dist, entry_node) PQ.empty;
     bs_neighbors := PQ.emplace (dist, entry_node) PQ.empty;
     bs_max_dist := dist |}.

(** Every expanded candidate is a distinct visited node, so on an index
    whose links stay inside the allocated range [_cur_num_nodes] units of
    fuel are never used up ([beamSearch_terminates] below). *)
Definition beamSearch (idx : Index) (query : list byte) (entry_node : node_id_t)
           (buffer_size : Z) : option (PriorityQueue * Index) :=
  match beam_loop idx query buffer_size (S (_cur_num_nodes idx))
                  (beam_init idx query entry_node) with
  | Some st => Some (bs_neighbors st, set_visited_nodes idx (bs_visited st))
  | None => None
  end.

(** *** [selectNeighbors] *)

Definition negate_all (q : PriorityQueue) : PriorityQueue :=
  fold_left (fun acc x => PQ.emplace (fneg (fst x), snd x) acc) q PQ.empty.

Definition should_keep_candidate (idx : Index) (saved : list dist_node_t)
           (current_pair : dist_node_t) : bool :=
  forallb (fun second_pair =>
             negb (fltb (node_distance idx (snd second_pair) (snd current_pair))
                        (fneg (fst current_pair))))
          saved.

Fixpoint select_loop (idx : Index) (M : Z) (candidates : PriorityQueue)
         (saved_candidates : list dist_node_t) : list dist_node_t :=
  match candidates with
  | [] => saved_candidates
  | current_pair :: rest =>
      if (size_t_of_int M <=? Z.of_nat (length saved_candidates))%Z
      then saved_candidates
      else if should_keep_candidate idx saved_candidates current_pair
           then select_loop idx M rest (saved_candidates ++ [current_pair])
           else select_loop idx M rest saved_candidates
  end.

Definition selectNeighbors (idx : Index) (neighbors : PriorityQueue) (M : Z)
  : PriorityQueue :=
  if (Z.of_nat (PQ.size neighbors) <? size_t_of_int M)%Z then neighbors
  else negate_all (select_loop idx M (negate_all neighbors) []).

(** *** [connectNeighbors] *)

Definition find_self_loop (idx : Index) (n : node_id_t) : option nat :=
  find (fun j => getLink idx n j =? n) (seq 0 (_M idx)).

(** The candidate set of a saturated neighbour: the new node, then every
    link of the neighbour that is not a self-loop. *)
Definition backlink_candidates (idx : Index) (neighbor_node_id new_node_id : node_id_t)
  : PriorityQueue :=
  fold_left
    (fun acc j =>
       let l := getLink idx neighbor_node_id j in
       if l =? neighbor_node_id then acc
       else PQ.emplace (node_distance idx neighbor_node_id l, l) acc)
    (seq 0 (_M idx))
    (PQ.emplace (node_distance idx neighbor_node_id new_node_id, new_node_id)
                PQ.empty).

(** [while (candidates.size() > 0) { links[j] = top().second; pop(); j++; }] *)
Fixpoint write_links (idx : Index) (n : node_id_t) (candidates : PriorityQueue)
         (j : nat) : Index * nat :=
  match candidates with
  | [] => (idx, j)
  | c :: rest => write_links (setLink idx n j (snd c)) n rest (S j)
  end.

(** [while (j < _M) { links[j] = n; j++; }] *)
Definition pad_self_loops (idx : Index) (n : node_id_t) (j : nat) : Index :=
  fold_left (fun ix k => setLink ix n k n) (seq j (_M idx - j)) idx.

Definition reprune (idx : Index) (neighbor_node_id new_node_id : node_id_t) : Index :=
  let candidates := backlink_candidates idx neighbor_node_id new_node_id in
  let candidates :=
    selectNeighbors idx candidates (int_of_size_t (Z.of_nat (_M idx))) in
  let '(idx1, j) := write_links idx neighbor_node_id candidates 0 in
  pad_self_loops idx1 neighbor_node_id j.

Fixpoint connectNeighbors_loop (idx : Index) (neighbors : PriorityQueue)
         (new_node_id : node_id_t) (i : nat) : Index :=
  match neighbors with
  | [] => idx
  | top :: rest =>
      let neighbor_node_id := snd top in
      let idx1 := setLink idx new_node_id i neighbor_node_id in
      let idx2 :=
        match find_self_loop idx1 neighbor_node_id with
        | Some j => setLink idx1 neighbor_node_id j new_node_id
        | None => reprune idx1 neighbor_node_id new_node_id
        end in
      let i' := if _M idx <=? S i then _M idx else S i in
      connectNeighbors_loop idx2 rest new_node_id i'
  end.

Definition connectNeighbors (idx : Index) (neighbors : PriorityQueue)
           (new_node_id : node_id_t) : Index :=
  connectNeighbors_loop idx neighbors new_node_id 0.

(** *** [add] *)

(** [None]: the call does not return ([initializeSearch] aborts). *)
Definition add (idx : Index) (data : list byte) (label : label_t)
           (ef_construction num_initializations : Z) : option (bool * Index) :=
  match initializeSearch idx data num_initializations with
  | None => None
  | Some entry_node =>
      match allocateNode idx data label with
      | None => Some (false, idx)
      | Some (new_node_id, idx1) =>
          if 0 <? new_node_id then
            match beamSearch idx1 data entry_node ef_construction with
            | None => None
            | Some (neighbors, idx2) =>
                let neighbors :=
                  selectNeighbors idx2 neighbors
                                  (int_of_size_t (Z.of_nat (_M idx2))) in
                Some (true, connectNeighbors idx2 neighbors new_node_id)
            end
          else Some (false, idx1)
      end
  end.

(** *** [search] *)

(** [while (neighbors.size() > K) neighbors.pop();] *)
Fixpoint pop_down_to (K : Z) (q : PriorityQueue) : PriorityQueue :=
  match q with
  | [] => []
  | _ :: q' =>
      if (size_t_of_int K <? Z.of_nat (PQ.size q))%Z then pop_down_to K q' else q
  end.

(** [std::sort] with the comparator [left.first < right.first].  The
    standard leaves the relative order of equivalent elements open.
    libstdc++ sorts a range of at most 16 elements by insertion from the
    left, each element going behind the elements that are not greater,
    so that equivalent elements keep their order; this is the sort
    below.  Longer ranges go through introsort, which may exchange
    equivalent elements: the theorems only use that the result is sorted
    and is a permutation. *)
Fixpoint sort_insert (x : dist_label_t) (l : list dist_label_t) : list dist_label_t :=
  match l with
  | [] => [x]
  | y :: l' => if fltb (fst x) (fst y) then x :: l else y :: sort_insert x l'
  end.

Definition std_sort (l : list dist_label_t) : list dist_label_t :=
  fold_left (fun sorted x => sort_insert x sorted) l [].

(** The nodes whose labels [search] reports, in the order the second
    [while] loop pops them. *)
Definition search_nodes (idx : Index) (query : list byte) (K ef_search : Z)
           (num_initializations : Z) : option (list dist_node_t * Index) :=
  match initializeSearch idx query num_initializations with
  | None => None
  | Some entry_node =>
      match beamSearch idx query entry_node ef_search with
      | None => None
      | Some (neighbors, idx1) => Some (pop_down_to K neighbors, idx1)
      end
  end.

Definition search (idx : Index) (query : list byte) (K ef_search : Z)
           (num_initializations : Z) : option (list dist_label_t * Index) :=
  match search_nodes idx query K ef_search num_initializations with
  | None => None
  | Some (nodes, idx1) =>
      let results := map (fun p => (fst p, getNodeLabel idx1 (snd p))) nodes in
      Some (std_sort results, idx1)
  end.

(** *** [relabel] *)

(** [P[i]] on a [std::vector]; an index past the end is undefined in C++
    and reads as 0 here. *)
Definition vec_at (P : list node_id_t) (i : nat) : node_id_t := nth i P 0.

Definition rewire_node (P : list node_id_t) (idx : Index) (n : node_id_t) : Index :=
  fold_left (fun ix m => setLink ix n m (vec_at P (getLink ix n m)))
            (seq 0 (_M idx)) idx.

Definition rewire (idx : Index) (P : list node_id_t) : Index :=
  fold_left (rewire_node P) (seq 0 (_cur_num_nodes idx)) idx.

(** [while (!_visited_nodes[dest]) { ... }] *)
Fixpoint relocate (P : list node_id_t) (src : node_id_t) (fuel : nat)
         (dest : node_id_t) (idx : Index) : option Index :=
  if ExplicitSet.mem dest (_visited_nodes idx) then Some idx
  else
    match fuel with
    | 0 => None
    | S fuel' =>
        let idx1 :=
          set_visited_nodes idx (ExplicitSet.insert dest (_visited_nodes idx)) in
        let dest' := vec_at P dest in
        relocate P src fuel' dest' (swapNodes idx1 src dest')
    end.

Definition relabel_node (P : list node_id_t) (idx : Index) (n : node_id_t)
  : option Index :=
  if ExplicitSet.mem n (_visited_nodes idx) then Some idx
  else
    let src := n in
    let dest := vec_at P src in
    let idx1 := swapNodes idx src dest in
    let idx2 :=
      set_visited_nodes idx1 (ExplicitSet.insert src (_visited_nodes idx1)) in
    relocate P src (_cur_num_nodes idx) dest idx2.

Fixpoint relabel_nodes (P : list node_id_t) (idx : Index) (ns : list node_id_t)
  : option Index :=
  match ns with
  | [] => Some idx
  | n :: ns' =>
      match relabel_node P idx n with
      | Some idx' => relabel_nodes P idx' ns'
      | None => None
      end
  end.

Definition relabel (idx : Index) (P : list node_id_t) : option Index :=
  let idx1 := rewire idx P in
  let idx2 := set_visited_nodes idx1 (ExplicitSet.clear (_visited_nodes idx1)) in
  relabel_nodes P idx2 (seq 0 (_cur_num_nodes idx2)).

(** *** [serialize], [saveIndex], [loadIndex]

    cereal's binary archive writes the object representation of each
    arithmetic value and the raw bytes of each [binary_data] block,
    nothing else. *)

Definition serialize (idx : Index) : list byte :=
  encode_size_t (_M idx)
  ++ encode_size_t (_data_size_bytes idx)
  ++ encode_size_t (_node_size_bytes idx)
  ++ encode_size_t (_max_node_count idx)
  ++ encode_size_t (_cur_num_nodes idx)
  ++ encode_size_t (dimension (_distance idx))
  ++ ExplicitSet.serialize (_visited_nodes idx)
  ++ Mem.read 0 (_node_size_bytes idx * _max_node_count idx) (_index_memory idx)
  ++ Mem.read 0 (_data_size_bytes idx) (_transformed_query idx).

(** The content of the file [saveIndex] writes. *)
Definition saveIndex (idx : Index) : list byte := serialize idx.

(** Reading [n] bytes from the archive; cereal throws when the stream is
    too short. *)
Definition take (n : nat) (s : list byte) : option (list byte * list byte) :=
  if n <=? length s then Some (firstn n s, skipn n s) else None.

Definition take_size_t (s : list byte) : option (nat * list byte) :=
  match take 8 s with
  | Some (bs, s') => Some (decode_size_t bs, s')
  | None => None
  end.

(** [dist_ctor] is the constructor [dist_t(data_dimension)] of the
    template argument.  The size of the node block is the product
    [node_size_bytes * max_node_count] of the two header fields; the
    code forms it in [size_t], where it wraps around at 2^64, the model
    without a bound.  The two agree on every header whose product is
    below 2^64, as it is in every file [saveIndex] writes for an index
    that holds its node block; the facts below are about such files. *)
Definition loadIndex (dist_ctor : nat -> DistanceInterface F) (file : list byte)
  : option Index :=
  match take_size_t file with None => None | Some (M, s1) =>
  match take_size_t s1 with None => None | Some (data_size_bytes, s2) =>
  match take_size_t s2 with None => None | Some (node_size_bytes, s3) =>
  match take_size_t s3 with None => None | Some (max_node_count, s4) =>
  match take_size_t s4 with None => None | Some (cur_num_nodes, s5) =>
  match take_size_t s5 with None => None | Some (data_dimension, s6) =>
  match take_size_t s6 with None => None | Some (visited_capacity, s7) =>
  match take (node_size_bytes * max_node_count) s7 with None => None
  | Some (index_memory, s8) =>
  match take data_size_bytes s8 with None => None
  | Some (transformed_query, _) =>
      Some {| _index_memory := index_memory;
              _transformed_query := transformed_query;
              _M := M;
              _data_size_bytes := data_size_bytes;
              _node_size_bytes := node_size_bytes;
              _max_node_count := max_node_count;
              _cur_num_nodes := cur_num_nodes;
              _distance := dist_ctor data_dimension;
              _visited_nodes := ExplicitSet.make visited_capacity;
              _product_quantizer := None |}
  end end end end end end end end end.

(** ** Well-formed layouts, reachable states and loop invariants *)

(** The layout the constructor establishes: a record is
    [data | M links | label], and the block holds [_max_node_count]
    records. *)
Definition geometry (idx : Index) : Prop :=
  _node_size_bytes idx = _data_size_bytes idx + _M idx * 4 + sizeof_label_t
  /\ length (_index_memory idx) = _node_size_bytes idx * _max_node_count idx.

(** Two indexes that differ at most in the content of the node block. *)
Definition same_shape (a b : Index) : Prop :=
  _M a = _M b /\ _data_size_bytes a = _data_size_bytes b
  /\ _node_size_bytes a = _node_size_bytes b
  /\ _max_node_count a = _max_node_count b
  /\ _cur_num_nodes a = _cur_num_nodes b
  /\ _distance a = _distance b
  /\ _product_quantizer a = _product_quantizer b
  /\ length (_index_memory a) = length (_index_memory b).

(** Every link of a node below [B] points below [B]. *)
Definition links_closed (idx : Index) (B : nat) : Prop :=
  forall n i, n < B -> i < _M idx -> getLink idx n i < B.

(** The invariant of the engine: the layout is the constructor's, the
    sizes are those of [int] arguments, a stored vector fits its data
    region, and every link of an allocated node is an allocated node. *)
Definition Inv (idx : Index) : Prop :=
  geometry idx
  /\ _cur_num_nodes idx <= _max_node_count idx
  /\ (Z.of_nat (_max_node_count idx) < 2 ^ 31)%Z
  /\ (Z.of_nat (_M idx) < 2 ^ 31)%Z
  /\ match _product_quantizer idx with
     | Some _ => True
     | None => dataSize (_distance idx) <= _data_size_bytes idx
     end
  /\ links_closed idx (_cur_num_nodes idx).

(** [P] is a bijection of [[0, n)], given as the vector of its values. *)
Definition is_permutation (P : list node_id_t) (n : nat) : Prop :=
  length P = n /\ NoDup P /\ forall x, In x P -> x < n.

(** The states an index goes through: created by the constructor (from
    non-negative [int] arguments), then any sequence of [add], [search]
    and relabelings by a permutation of the allocated nodes
    ([reorder_gorder] and [reorder_rcm] call [relabel] with the
    permutation computed by flatnav/util/reordering.h, which is not part
    of the embedded sources). *)
Inductive reachable : Index -> Prop :=
| reach_create dist dataset_size max_edges pq garbage garbage_query idx :
    (0 <= dataset_size < 2 ^ 31)%Z ->
    (0 <= max_edges < 2 ^ 31)%Z ->
    mkIndex dist dataset_size max_edges pq garbage garbage_query = Some idx ->
    reachable idx
| reach_add idx data label ef_construction num_initializations r idx' :
    reachable idx ->
    add idx data label ef_construction num_initializations = Some (r, idx') ->
    reachable idx'
| reach_search idx query K ef_search num_initializations results idx' :
    reachable idx ->
    search idx query K ef_search num_initializations = Some (results, idx') ->
    reachable idx'
| reach_relabel idx P idx' :
    reachable idx ->
    is_permutation P (_cur_num_nodes idx) ->
    relabel idx P = Some idx' ->
    reachable idx'.

(** The three regions of a node record, as [swapNodes] copies them. *)
Definition getLinkBytes (idx : Index) (n : node_id_t) : list byte :=
  Mem.read (links_off idx n) (_M idx * 4) (_index_memory idx).

Definition node_view (idx : Index) (n : node_id_t)
  : list byte * list byte * list byte :=
  (getNodeData idx n, getLinkBytes idx n, getNodeLabel idx n).

(** The invariant of the beam-search loop, relative to a bound [B] under
    which the links are closed: the marks are distinct and below [B], and
    both queues hold marked nodes only, [neighbors] without repetition. *)
Definition beam_inv (B : nat) (st : beam_state) : Prop :=
  NoDup (ExplicitSet.marks (bs_visited st))
  /\ (forall x, In x (ExplicitSet.marks (bs_visited st)) -> x < B)
  /\ (forall c, In c (bs_candidates st) ->
        In (snd c) (ExplicitSet.marks (bs_visited st)))
  /\ (forall c, In c (bs_neighbors st) ->
        In (snd c) (ExplicitSet.marks (bs_visited st)))
  /\ NoDup (map snd (bs_neighbors st)).

(** What is left to do: unvisited nodes below [B], plus queued candidates. *)
Definition beam_potential (B : nat) (st : beam_state) : nat :=
  (B - length (ExplicitSet.marks (bs_visited st))) + length (bs_candidates st).

(** The queue order: no element is below a later one. *)
Definition pq_sorted (q : PriorityQueue) : Prop :=
  Sorted (fun a b => PQ.pair_lt a b = false) q.

(** Two indexes that differ at most in link slots: same shape, same visited
    set, same data and label of every node. *)
Definition links_only (a b : Index) : Prop :=
  same_shape a b
  /\ _visited_nodes a = _visited_nodes b
  /\ forall n, getNodeData b n = getNodeData a n
               /\ getNodeLabel b n = getNodeLabel a n.

(** The node found at [n] after [swapNodes a b]. *)
Definition transp (a b n : nat) : nat :=
  if n =? a then b else if n =? b then a else n.

(** *** Invariants of the two loops of [relabel]

    [relocate_inv]: inside the [while] loop that follows the cycle of [n].
    [chain] lists the nodes marked since the cycle was entered, [h] is the
    one marked last and [dest = P[h]]; every record of the chain but the
    one that belongs at [n] sits at its destination, and [n] holds the
    record that is to be moved next.
    [cycle_done]: when that loop exits.
    [relabel_inv]: between two rounds of the outer [for] loop; the marked
    nodes form whole cycles of [P] whose records are in place, the others
    are untouched. *)
Definition relocate_inv (P : list nat) (N : nat) (idx_s : Index) (marks0 : list nat)
           (n : nat) (idx_t : Index) (dest : nat) (chain : list nat) (h : nat) : Prop :=
  same_shape idx_s idx_t
  /\ ExplicitSet.marks (_visited_nodes idx_t) = chain ++ marks0
  /\ NoDup (chain ++ marks0)
  /\ (forall x, In x chain -> x < N)
  /\ In n chain /\ In h chain /\ dest = vec_at P h
  /\ (forall x, In x chain ->
        x = n \/ exists y, In y chain /\ y <> h /\ x = vec_at P y)
  /\ (forall x, In x chain -> x <> h -> In (vec_at P x) chain)
  /\ (forall c, In c chain -> vec_at P c <> n ->
        node_view idx_t (vec_at P c) = node_view idx_s c)
  /\ (dest <> n -> node_view idx_t n = node_view idx_s dest)
  /\ (dest = n -> node_view idx_t n = node_view idx_s h)
  /\ (forall w, ~ In w chain -> w <> dest -> node_view idx_t w = node_view idx_s w).

Definition cycle_done (P : list nat) (N : nat) (idx_s : Index) (marks0 : list nat)
           (n : nat) (idx' : Index) (chain : list nat) : Prop :=
  same_shape idx_s idx'
  /\ ExplicitSet.marks (_visited_nodes idx') = chain ++ marks0
  /\ NoDup (chain ++ marks0)
  /\ (forall x, In x chain -> x < N)
  /\ In n chain
  /\ (forall v, v < N -> (In v chain <-> In (vec_at P v) chain))
  /\ (forall c, In c chain -> node_view idx' (vec_at P c) = node_view idx_s c)
  /\ (forall w, ~ In w chain -> node_view idx' w = node_view idx_s w).

Definition relabel_inv (P : list nat) (N : nat) (idx0 idx : Index) : Prop :=
  same_shape idx0 idx
  /\ NoDup (ExplicitSet.marks (_visited_nodes idx))
  /\ (forall x, In x (ExplicitSet.marks (_visited_nodes idx)) -> x < N)
  /\ (forall v, v < N ->
        (In v (ExplicitSet.marks (_visited_nodes idx))
         <-> In (vec_at P v) (ExplicitSet.marks (_visited_nodes idx))))
  /\ (forall v, In v (ExplicitSet.marks (_visited_nodes idx)) ->
        node_view idx (vec_at P v) = node_view idx0 v)
  /\ (forall w, ~ In w (ExplicitSet.marks (_visited_nodes idx)) ->
        node_view idx w = node_view idx0 w).

(** The header fields fit a [size_t], and the two buffers have the sizes
    they were allocated with. *)
Definition serializable (idx : Index) : Prop :=
  (Z.of_nat (_M idx) < 2 ^ 64)%Z
  /\ (Z.of_nat (_data_size_bytes idx) < 2 ^ 64)%Z
  /\ (Z.of_nat (_node_size_bytes idx) < 2 ^ 64)%Z
  /\ (Z.of_nat (_max_node_count idx) < 2 ^ 64)%Z
  /\ (Z.of_nat (_cur_num_nodes idx) < 2 ^ 64)%Z
  /\ (Z.of_nat (dimension (_distance idx)) < 2 ^ 64)%Z
  /\ (Z.of_nat (ExplicitSet.capacity (_visited_nodes idx)) < 2 ^ 64)%Z
  /\ length (_index_memory idx) = _node_size_bytes idx * _max_node_count idx
  /\ length (_transformed_query idx) = _data_size_bytes idx.

(** The layout as the specification words it, with a leading magic number
    (to be compared with [serialize]). *)
Definition spec_serialized_layout (magic : nat) (idx : Index) : list byte :=
  encode_size_t magic
  ++ encode_size_t (_M idx)
  ++ encode_size_t (_data_size_bytes idx)
  ++ encode_size_t (_node_size_bytes idx)
  ++ encode_size_t (_max_node_count idx)
  ++ encode_size_t (_cur_num_nodes idx)
  ++ encode_size_t (dimension (_distance idx))
  ++ encode_size_t (ExplicitSet.capacity (_visited_nodes idx))
  ++ Mem.read 0 (_node_size_bytes idx * _max_node_count idx) (_index_memory idx)
  ++ Mem.read 0 (_data_size_bytes idx) (_transformed_query idx).

(** ** Further definitions: reordering, and the invariants of the search loops *)

(** *** [reorder_gorder] and [reorder_rcm]

    Both build the same table, one row per allocated node holding its
    links that are not self-loops (in slot order), hand it to an ordering
    function of flatnav/util/reordering.h, whose source is missing and
    which is a parameter here, and relabel by the permutation it returns. *)
Definition outdegree_table (idx : Index) : list (list node_id_t) :=
  map (fun node =>
         filter (fun l => negb (l =? node)) (getNodeLinks idx node))
      (seq 0 (_cur_num_nodes idx)).

Definition reorder_gorder
           (g_order : list (list node_id_t) -> Z -> list node_id_t)
           (idx : Index) (window_size : Z) : option (Index) :=
  let P := g_order (outdegree_table idx) window_size in
  relabel idx P.

Definition reorder_rcm (rcm_order : list (list node_id_t) -> list node_id_t)
           (idx : Index) : option (Index) :=
  let P := rcm_order (outdegree_table idx) in
  relabel idx P.

(** [b] can be reached from [a] by following links. *)
Inductive linked (idx : Index) (a : node_id_t) : node_id_t -> Prop :=
| linked_refl : linked idx a a
| linked_step b i : linked idx a b -> i < _M idx -> linked idx a (getLink idx b i).

(** The invariant of the beam-search loop on what the queues hold: nodes
    reached from [entry_node], each with its distance to the query
    (negated in [candidates]). *)
Definition beam_sound (idx : Index) (query : list byte) (entry_node : node_id_t)
           (st : beam_state) : Prop :=
  (forall c, In c (bs_candidates st) ->
     linked idx entry_node (snd c)
     /\ fst c = fneg (query_distance idx query (snd c)))
  /\ (forall c, In c (bs_neighbors st) ->
        linked idx entry_node (snd c)
        /\ fst c = query_distance idx query (snd c)).

(** The size of the beam between two rounds of the beam-search loop. *)
Definition beam_size_ok (buffer_size : Z) (st : beam_state) : Prop :=
  1 <= PQ.size (bs_neighbors st)
  /\ (Z.of_nat (PQ.size (bs_neighbors st)) <= Z.max 1 (size_t_of_int buffer_size))%Z.

(** The state of the sampling loop of [initializeSearch] before it looks
    at the sample number [j]. *)
Definition sample_inv (idx : Index) (query : list byte) (step j : nat) (min_dist : F)
           (entry_node : nat) : Prop :=
  (forall k, k < j -> k * step < _cur_num_nodes idx ->
     fltb (query_distance idx query (k * step)) min_dist = false)
  /\ ((min_dist = FLT_MAX /\ entry_node = 0)
      \/ (exists k0, entry_node = k0 * step
                     /\ entry_node < _cur_num_nodes idx
                     /\ min_dist = query_distance idx query entry_node
                     /\ fltb min_dist FLT_MAX = true)).

End Index.
Arguments Index : clear implicits.
Arguments beam_state : clear implicits.
Arguments PriorityQueue : clear implicits.
Arguments dist_node_t : clear implicits.
Arguments dist_label_t : clear implicits.
End FlatNav.

(** ** The SIMD distance kernels: [flatnav/util/SIMDDistanceSpecializations.h]

    A vector register is the list of its lanes; [float] arithmetic is a
    parameter ([arith]), instantiated below by IEEE binary32 (round to
    nearest even, as [SpecFloat] defines it) and by the integers for the
    exact reading of the formulas. *)

Module Kernels.

Class arith (A : Type) := {
  fzero : A;
  fone : A;
  fadd : A -> A -> A;
  fsub : A -> A -> A;
  fmul : A -> A -> A
}.

Section Kernels.
Context {A : Type} {AR : arith A}.

(** [_mm_loadu_ps(p + off)] / [_mm256_loadu_ps(p + off)]: [lanes]
    consecutive floats.  (A read past the end of the buffer is undefined
    in C++ and reads as zero here.) *)
Definition loadu_ps (lanes : nat) (p : list A) (off : nat) : list A :=
  map (fun i => nth (off + i) p fzero) (seq 0 lanes).

Definition set1_ps (lanes : nat) (v : A) : list A := repeat v lanes.

Fixpoint lanewise (op : A -> A -> A) (u v : list A) : list A :=
  match u, v with
  | a :: u', b :: v' => op a b :: lanewise op u' v'
  | _, _ => []
  end.

Definition add_ps := lanewise fadd.
Definition sub_ps := lanewise fsub.
Definition mul_ps := lanewise fmul.

(** [temp_res[0] + temp_res[1] + ... ], summed left to right. *)
Definition horizontal_sum (temp_res : list A) : A :=
  match temp_res with
  | [] => fzero
  | t0 :: rest => fold_left fadd rest t0
  end.

(** One [sum = add(sum, mul(v1, v2))] step at offset [off]. *)
Definition ip_step (lanes : nat) (x y : list A) (off : nat) (sum : list A) : list A :=
  add_ps sum (mul_ps (loadu_ps lanes x off) (loadu_ps lanes y off)).

(** One [diff = sub(v1, v2); sum = add(sum, mul(diff, diff))] step. *)
Definition l2_step (lanes : nat) (x y : list A) (off : nat) (sum : list A) : list A :=
  let diff := sub_ps (loadu_ps lanes x off) (loadu_ps lanes y off) in
  add_ps sum (mul_ps diff diff).

(** [while (p_x != p_end_x)] of the AVX inner-product kernel: each round
    consumes 16 floats in two 8-lane steps. *)
Fixpoint ip_loop_avx (rounds : nat) (x y : list A) (off : nat) (sum : list A) : list A :=
  match rounds with
  | 0 => sum
  | S rounds' =>
      let sum := ip_step 8 x y off sum in
      let sum := ip_step 8 x y (off + 8) sum in
      ip_loop_avx rounds' x y (off + 16) sum
  end.

Definition distanceImplInnerProductSIMD16ExtAVX (x y : list A) (dimension : nat) : A :=
  let dimension_1_16 := Nat.shiftr dimension 4 in
  let sum := ip_loop_avx dimension_1_16 x y 0 (set1_ps 8 fzero) in
  let total := horizontal_sum sum in
  fsub fone total.

(** The SSE inner-product kernel: four 4-lane steps per round. *)
Fixpoint ip_loop_sse (rounds : nat) (x y : list A) (off : nat) (sum : list A) : list A :=
  match rounds with
  | 0 => sum
  | S rounds' =>
      let sum := ip_step 4 x y off sum in
      let sum := ip_step 4 x y (off + 4) sum in
      let sum := ip_step 4 x y (off + 8) sum in
      let sum := ip_step 4 x y (off + 12) sum in
      ip_loop_sse rounds' x y (off + 16) sum
  end.

Definition distanceImplInnerProductSIMD16ExtSSE (x y : list A) (dimension : nat) : A :=
  let dimension_1_16 := Nat.shiftr dimension 4 in
  let sum := ip_loop_sse dimension_1_16 x y 0 (set1_ps 4 fzero) in
  let total := horizontal_sum sum in
  fsub fone total.

(** The SSE squared-L2 kernel: four 4-lane steps per round. *)
Fixpoint l2_loop_sse (rounds : nat) (x y : list A) (off : nat) (sum : list A) : list A :=
  match rounds with
  | 0 => sum
  | S rounds' =>
      let sum := l2_step 4 x y off sum in
      let sum := l2_step 4 x y (off + 4) sum in
      let sum := l2_step 4 x y (off + 8) sum in
      let sum := l2_step 4 x y (off + 12) sum in
      l2_loop_sse rounds' x y (off + 16) sum
  end.

Definition distanceImplSquaredL2SIMD16ExtSSE (x y : list A) (dimension : nat) : A :=
  let dimension_1_16 := Nat.shiftr dimension 4 in
  let sum := l2_loop_sse dimension_1_16 x y 0 (set1_ps 4 fzero) in
  horizontal_sum sum.

(** The scalar tail loops of the [...Residuals] wrappers. *)
Fixpoint residual_ip (residual : nat) (x y : list A) (off : nat) (sum_res : A) : A :=
  match residual with
  | 0 => sum_res
  | S r =>
      residual_ip r x y (S off)
                  (fadd sum_res (fmul (nth off x fzero) (nth off y fzero)))
  end.

Definition distanceImplInnerProductSIMD16ExtResiduals (x y : list A) (dimension : nat) : A :=
  let dimension16 := Nat.shiftl (Nat.shiftr dimension 4) 4 in
  let res := distanceImplInnerProductSIMD16ExtSSE x y dimension16 in
  let residual := dimension - dimension16 in
  let sum_res := residual_ip residual x y dimension16 fzero in
  fsub fone (fadd res sum_res).

Fixpoint residual_l2 (residual : nat) (x y : list A) (off : nat) (squared_dist_res : A) : A :=
  match residual with
  | 0 => squared_dist_res
  | S r =>
      let diff := fsub (nth off x fzero) (nth off y fzero) in
      residual_l2 r x y (S off) (fadd squared_dist_res (fmul diff diff))
  end.

Definition distanceImplSquaredL2SIMD16ExtResiduals (x y : list A) (dimension : nat) : A :=
  let dimension16 := Nat.shiftl (Nat.shiftr dimension 4) 4 in
  let res := distanceImplSquaredL2SIMD16ExtSSE x y dimension16 in
  let residual := dimension - dimension16 in
  let squared_dist_res := residual_l2 residual x y dimension16 fzero in
  fadd res squared_dist_res.

(** The formulas of the specification, over the first [n] coordinates. *)
Fixpoint sum_upto (f : nat -> A) (n : nat) : A :=
  match n with
  | 0 => fzero
  | S n' => fadd (sum_upto f n') (f n')
  end.

Definition sq_term (x y : list A) (i : nat) : A :=
  fmul (fsub (nth i x fzero) (nth i y fzero)) (fsub (nth i x fzero) (nth i y fzero)).

Definition ip_term (x y : list A) (i : nat) : A :=
  fmul (nth i x fzero) (nth i y fzero).

Definition spec_squared_l2 (x y : list A) (n : nat) : A := sum_upto (sq_term x y) n.

Definition spec_angular (x y : list A) (n : nat) : A :=
  fsub fone (sum_upto (ip_term x y) n).



(** *** The other kernels of the file *)

(** The AVX squared-L2 kernel: two 8-lane steps per round. *)
Fixpoint l2_loop_avx (rounds : nat) (x y : list A) (off : nat) (sum : list A) : list A :=
  match rounds with
  | 0 => sum
  | S rounds' =>
      let sum := l2_step 8 x y off sum in
      let sum := l2_step 8 x y (off + 8) sum in
      l2_loop_avx rounds' x y (off + 16) sum
  end.

Definition distanceImplSquaredL2SIMD16ExtAVX (x y : list A) (dimension : nat) : A :=
  let dimension_1_16 := Nat.shiftr dimension 4 in
  let sum := l2_loop_avx dimension_1_16 x y 0 (set1_ps 8 fzero) in
  horizontal_sum sum.

(** The AVX-512 kernels: one 16-lane step per round. *)
Fixpoint ip_loop_avx512 (rounds : nat) (x y : list A) (off : nat) (sum : list A)
  : list A :=
  match rounds with
  | 0 => sum
  | S rounds' => ip_loop_avx512 rounds' x y (off + 16) (ip_step 16 x y off sum)
  end.

Definition distanceImplInnerProductSIMD16ExtAVX512 (x y : list A) (dimension : nat) : A :=
  let dimension_1_16 := Nat.shiftr dimension 4 in
  let sum := ip_loop_avx512 dimension_1_16 x y 0 (set1_ps 16 fzero) in
  let total := horizontal_sum sum in
  fsub fone total.

Fixpoint l2_loop_avx512 (rounds : nat) (x y : list A) (off : nat) (sum : list A)
  : list A :=
  match rounds with
  | 0 => sum
  | S rounds' => l2_loop_avx512 rounds' x y (off + 16) (l2_step 16 x y off sum)
  end.

Definition distanceImplSquaredL2SIMD16ExtAVX512 (x y : list A) (dimension : nat) : A :=
  let dimension_1_16 := Nat.shiftr dimension 4 in
  let sum := l2_loop_avx512 dimension_1_16 x y 0 (set1_ps 16 fzero) in
  horizontal_sum sum.

(** The 4-lane loops [while (p_x != p_end_x2)] of the SIMD4 kernels: one
    4-lane step per round. *)
Fixpoint ip_loop_4 (rounds : nat) (x y : list A) (off : nat) (sum : list A) : list A :=
  match rounds with
  | 0 => sum
  | S rounds' => ip_loop_4 rounds' x y (off + 4) (ip_step 4 x y off sum)
  end.

Fixpoint l2_loop_4 (rounds : nat) (x y : list A) (off : nat) (sum : list A) : list A :=
  match rounds with
  | 0 => sum
  | S rounds' => l2_loop_4 rounds' x y (off + 4) (l2_step 4 x y off sum)
  end.

(** [_mm256_extractf128_ps(v, 0)] and [(v, 1)]: the low and the high four
    lanes. *)
Definition extractf128_ps (v : list A) (half : nat) : list A :=
  firstn 4 (skipn (4 * half) v).

(** The first loop runs over the 16-blocks with 8 lanes, the second over
    the remaining 4-blocks: [p_x] goes from [16 * dimension_1_16] to
    [4 * dimension_1_4] in steps of 4. *)
Definition distanceImplInnerProductSIMD4ExtAVX (x y : list A) (dimension : nat) : A :=
  let dimension_1_16 := Nat.shiftr dimension 4 in
  let dimension_1_4 := Nat.shiftr dimension 2 in
  let sum256 := ip_loop_avx dimension_1_16 x y 0 (set1_ps 8 fzero) in
  let sum_prod := add_ps (extractf128_ps sum256 0) (extractf128_ps sum256 1) in
  let sum_prod :=
    ip_loop_4 (dimension_1_4 - 4 * dimension_1_16) x y
              (Nat.shiftl dimension_1_16 4) sum_prod in
  let sum := horizontal_sum sum_prod in
  fsub fone sum.

Definition distanceImplInnerProductSIMD4ExtSSE (x y : list A) (dimension : nat) : A :=
  let dimension_1_4 := Nat.shiftr dimension 2 in
  let dimension_1_16 := Nat.shiftr dimension 4 in
  let sum_prod := ip_loop_sse dimension_1_16 x y 0 (set1_ps 4 fzero) in
  let sum_prod :=
    ip_loop_4 (dimension_1_4 - 4 * dimension_1_16) x y
              (Nat.shiftl dimension_1_16 4) sum_prod in
  let sum := horizontal_sum sum_prod in
  fsub fone sum.

Definition distanceImplSquaredL2SIMD4Ext (x y : list A) (dimension : nat) : A :=
  let dimension_1_4 := Nat.shiftr dimension 2 in
  let sum := l2_loop_4 dimension_1_4 x y 0 (set1_ps 4 fzero) in
  horizontal_sum sum.

Definition distanceImplSquaredL2SIMD4ExtResiduals (x y : list A) (dimension : nat) : A :=
  let dimension4 := Nat.shiftl (Nat.shiftr dimension 2) 2 in
  let res := distanceImplSquaredL2SIMD4Ext x y dimension4 in
  let residual := dimension - dimension4 in
  let squared_dist_res := residual_l2 residual x y dimension4 fzero in
  fadd res squared_dist_res.

Definition distanceImplInnerProductSIMD4ExtResiduals (x y : list A) (dimension : nat) : A :=
  let dimension4 := Nat.shiftl (Nat.shiftr dimension 2) 2 in
  let res := distanceImplInnerProductSIMD4ExtSSE x y dimension4 in
  let residual := dimension - dimension4 in
  let sum_res := residual_ip residual x y dimension4 fzero in
  fsub fone (fadd res sum_res).

End Kernels.

(** IEEE binary32, as [SpecFloat] has it: the values are the zeros, the
    infinities, the finite numbers and one NaN (a NaN carries no sign
    and no payload here, where the hardware keeps those of an operand). *)
Definition f32_of_Z (z : Z) : spec_float := binary_normalize 24 128 z 0 false.

#[export] Instance binary32 : arith spec_float :=
  {| fzero := S754_zero false;
     fone := f32_of_Z 1;
     fadd := SFadd 24 128;
     fsub := SFsub 24 128;
     fmul := SFmul 24 128 |}.

(** Exact integer arithmetic. *)
#[export] Instance exact_arith : arith Z :=
  {| fzero := 0%Z; fone := 1%Z; fadd := Z.add; fsub := Z.sub; fmul := Z.mul |}.


(** The vector with [v] at coordinate 0 and zeros elsewhere. *)
Definition axis16 (v : Z) : list spec_float :=
  f32_of_Z v :: repeat (S754_zero false) 15.

(** A float that is a number: a zero or a finite value. *)
Definition is_number (f : spec_float) : bool :=
  match f with
  | S754_zero _ | S754_finite _ _ _ => true
  | _ => false
  end.

(** The sum of the lanes of a register. *)
Definition lane_total (v : list Z) : Z := fold_right Z.add 0%Z v.

End Kernels.

(** ** k-means++ initialisation: [quantization/CentroidsGenerator.h]

    [float] is IEEE binary32 and [double] IEEE binary64, both as
    [SpecFloat] defines them; a [float] converts to [double] exactly
    ([double_of_float] renormalises the mantissa).  The two
    distributions draw from [std::mt19937]; their draws are inputs of the
    model: [draw_index n] is the value of
    [uniform_int_distribution(0, n - 1)], and [draw_real i sum] the value
    of the [i]-th [uniform_real_distribution(0.0, sum)]. *)

Module Centroids.

Definition float_sub := SFsub 24 128.
Definition float_mul := SFmul 24 128.
Definition double_add := SFadd 53 1024.
Definition double_ltb := SFltb.
Definition double_geb (a b : spec_float) : bool := SFleb b a.
Definition double_zero : spec_float := S754_zero false.
Definition DBL_MAX : spec_float := SFmax_float 53 1024.

(** The implicit conversion in [distance += diff * diff]. *)
Definition double_of_float (f : spec_float) : spec_float :=
  match f with
  | S754_finite s m e => binary_normalize 53 1024 (cond_Zopp s (Zpos m)) e s
  | _ => f
  end.

Definition float_of_Z (z : Z) : spec_float := binary_normalize 24 128 z 0 false.
Definition double_of_Z (z : Z) : spec_float := binary_normalize 53 1024 z 0 false.

Record CentroidsGenerator := {
  _dim : nat;
  _num_centroids : nat;
  _centroids : list spec_float;
  _centroids_initialized : bool
}.

Record Rng := {
  draw_index : nat -> nat;
  draw_real : nat -> spec_float -> spec_float
}.

(** [v[i]] and [v[i] = a] on a vector that is large enough. *)
Definition at_ (v : list spec_float) (i : nat) : spec_float := nth i v double_zero.

Fixpoint assign (v : list spec_float) (i : nat) (a : spec_float) : list spec_float :=
  match v, i with
  | [], _ => []
  | _ :: v', 0 => a :: v'
  | b :: v', S i' => b :: assign v' i' a
  end.

(** [for (dim_index ...) _centroids[to * _dim + dim_index] = data[from * _dim + dim_index];] *)
Definition copy_point (dim : nat) (data : list spec_float) (from : nat)
           (centroids : list spec_float) (to : nat) : list spec_float :=
  fold_left (fun cs dim_index =>
               assign cs (to * dim + dim_index) (at_ data (from * dim + dim_index)))
            (seq 0 dim) centroids.

(** The innermost loops, for the data point [i] and the centroid [c]: as
    in the source, the subtraction reads [data[c * _dim + dim_index]]. *)
Definition distance_to_centroid (dim : nat) (centroids data : list spec_float)
           (i c : nat) : spec_float :=
  fold_left (fun distance dim_index =>
               let diff := float_sub (at_ centroids (c * dim + dim_index))
                                     (at_ data (c * dim + dim_index)) in
               double_add distance (double_of_float (float_mul diff diff)))
            (seq 0 dim) double_zero.

Definition min_distance (dim : nat) (centroids data : list spec_float)
           (cent_idx i : nat) : spec_float :=
  fold_left (fun min_distance c =>
               let distance := distance_to_centroid dim centroids data i c in
               if double_ltb distance min_distance then distance else min_distance)
            (seq 0 cent_idx) DBL_MAX.

(** [min_squared_distances] after the loop over the [n] points. *)
Definition min_squared_distances (dim : nat) (centroids data : list spec_float)
           (n cent_idx : nat) : list spec_float :=
  map (min_distance dim centroids data cent_idx) (seq 0 n).

(** The selection loop: the first index at which the running sum reaches
    [threshold], or [n] when it never does. *)
Fixpoint choose (weights : list spec_float) (sum threshold : spec_float)
         (next_centroid_index : nat) : nat :=
  match weights with
  | [] => next_centroid_index
  | w :: rest =>
      let sum := double_add sum w in
      if double_geb sum threshold then next_centroid_index
      else choose rest sum threshold (S next_centroid_index)
  end.

Definition next_centroid (rng : Rng) (dim : nat) (centroids data : list spec_float)
           (n cent_idx : nat) : nat :=
  let weights := min_squared_distances dim centroids data n cent_idx in
  let sum := fold_left double_add weights double_zero in
  let threshold := draw_real rng cent_idx sum in
  choose weights double_zero threshold 0.

Definition kmeansPlusPlusInitialize (g : CentroidsGenerator) (rng : Rng)
           (data : list spec_float) (n : nat) : CentroidsGenerator :=
  if _centroids_initialized g then g
  else
    let first_centroid_index := draw_index rng n in
    let centroids := copy_point (_dim g) data first_centroid_index (_centroids g) 0 in
    let centroids :=
      fold_left (fun cs cent_idx =>
                   copy_point (_dim g) data
                              (next_centroid rng (_dim g) cs data n cent_idx)
                              cs cent_idx)
                (seq 1 (_num_centroids g - 1)) centroids in
    {| _dim := _dim g; _num_centroids := _num_centroids g;
       _centroids := centroids;
       _centroids_initialized := _centroids_initialized g |}.

(** The weights the specification asks for: the squared distance of the
    data point [i] to its nearest centroid chosen so far. *)
Definition spec_distance_to_centroid (dim : nat) (centroids data : list spec_float)
           (i c : nat) : spec_float :=
  fold_left (fun distance dim_index =>
               let diff := float_sub (at_ centroids (c * dim + dim_index))
                                     (at_ data (i * dim + dim_index)) in
               double_add distance (double_of_float (float_mul diff diff)))
            (seq 0 dim) double_zero.

Definition spec_min_squared_distances (dim : nat) (centroids data : list spec_float)
           (n cent_idx : nat) : list spec_float :=
  map (fun i =>
         fold_left (fun min_distance c =>
                      let distance := spec_distance_to_centroid dim centroids data i c in
                      if double_ltb distance min_distance then distance else min_distance)
                   (seq 0 cent_idx) DBL_MAX)
      (seq 0 n).

(** Three points on a line, two centroids to choose; the generator draws
    the point 1 first and then the middle of the interval. *)
Definition line_data : list spec_float := map float_of_Z [0; 1; 5]%Z.

Definition fresh_generator : CentroidsGenerator :=
  {| _dim := 1; _num_centroids := 2;
     _centroids := repeat double_zero 2;
     _centroids_initialized := false |}.

Definition half (sum : spec_float) : spec_float :=
  SFmul 53 1024 (binary_normalize 53 1024 1 (-1) false) sum.

Definition example_rng : Rng :=
  {| draw_index := fun _ => 1; draw_real := fun _ sum => half sum |}.

Import Strings.String.

(** *** k-means: [generateCentroids], [initializeCentroids],
    [randomInitialize]

    The loops are run in sequence, as the code is compiled without
    OpenMP; with it, the three [parallel for] loops visit the same
    indices, and only the order of the [float] additions into [sums]
    may differ. *)





















End Centroids.

(** ** The index builder: [tools/construct_npy.cpp] *)

Module Tools.
Section RunUnquantized.
Context {F : Type} {FO : float_ops F}.

(** [Index<dist_t, int>]: the labels are [int]s. *)
#[local] Instance int_label_t : label_ops := {| sizeof_label_t := 4 |}.





End RunUnquantized.
End Tools.

(** ** A concrete instantiation, used to run the model

    Distances are integers, labels are 4 bytes ([int], as in
    tools/construct_npy.cpp), and a vector is stored with one byte per
    coordinate under the squared Euclidean distance. *)

Module Example.

#[export] Instance Z_float_ops : float_ops Z :=
  {| fltb := Z.ltb; fneg := Z.opp;
     FLT_MAX := 340282346638528859811704183484516925440%Z |}.

#[export] Instance int_label : label_ops := {| sizeof_label_t := 4 |}.

Fixpoint byte_l2 (x y : list byte) : Z :=
  match x, y with
  | a :: x', b :: y' =>
      ((byte.unsigned a - byte.unsigned b) * (byte.unsigned a - byte.unsigned b)
       + byte_l2 x' y')%Z
  | _, _ => 0%Z
  end.

Definition ByteL2 (dim : nat) : DistanceInterface Z :=
  {| distance := byte_l2; dataSize := dim;
     transformData := fun x => x; dimension := dim |}.

Definition vec (coords : list Z) : list byte := map byte.of_Z coords.
Definition int_label_of (z : Z) : list byte := le_split 4 z.

(** An empty index for up to 4 two-dimensional points, 2 links per node,
    allocated over zeroed memory. *)
Definition empty4 : FlatNav.Index Z :=
  {| FlatNav._index_memory := repeat Byte.x00 56;
     FlatNav._transformed_query := repeat Byte.x00 2;
     FlatNav._M := 2;
     FlatNav._data_size_bytes := 2;
     FlatNav._node_size_bytes := 14;
     FlatNav._max_node_count := 4;
     FlatNav._cur_num_nodes := 0;
     FlatNav._distance := ByteL2 2;
     FlatNav._visited_nodes := ExplicitSet.make 5;
     FlatNav._product_quantizer := None |}.

(** [add] run over a list of (vector, label) pairs, collecting the
    returned booleans. *)
Fixpoint add_all (idx : FlatNav.Index Z) (points : list (list byte * list byte))
  : option (list bool * FlatNav.Index Z) :=
  match points with
  | [] => Some ([], idx)
  | (v, l) :: rest =>
      match FlatNav.add idx v l 4 100 with
      | None => None
      | Some (r, idx') =>
          match add_all idx' rest with
          | None => None
          | Some (rs, idx'') => Some (r :: rs, idx'')
          end
      end
  end.

Definition square_points : list (list byte * list byte) :=
  [ (vec [0; 0], int_label_of 65); (vec [10; 0], int_label_of 66);
    (vec [0; 10], int_label_of 67); (vec [10; 10], int_label_of 68) ]%Z.

(** Three points on a line, far from the origin, and the candidate queue
    a query at the origin sees: (squared distance, node). *)
Definition line_points : list (list byte * list byte) :=
  [ (vec [10; 0], int_label_of 1); (vec [11; 0], int_label_of 2);
    (vec [12; 0], int_label_of 3) ]%Z.

Definition line3 : FlatNav.Index Z :=
  match add_all empty4 line_points with
  | Some (_, idx) => idx
  | None => empty4
  end.

Definition line_candidates : FlatNav.PriorityQueue Z :=
  PQ.emplace (144%Z, 2) (PQ.emplace (121%Z, 1) (PQ.emplace (100%Z, 0) PQ.empty)).

(** The index after inserting the four corners of a square. *)
Definition square4 : FlatNav.Index Z :=
  match add_all empty4 square_points with
  | Some (_, idx) => idx
  | None => empty4
  end.

End Example.

(** * Facts *)

(** ** Byte buffers *)

Section MemFacts.
Import Mem.

Lemma length_read off len m : length (read off len m) = len.
Proof. unfold read. now rewrite length_map, length_seq. Qed.

Lemma length_write off bs m : length (write off bs m) = length m.
Proof.
  revert off bs; induction m as [|b m IH]; intros off bs; simpl; auto.
  destruct off; simpl; [destruct bs; simpl|]; auto.
Qed.

Lemma nth_read off len m i d :
  i < len -> nth i (read off len m) d = nth (off + i) m Byte.x00.
Proof.
  intros Hi. unfold read.
  rewrite (nth_indep _ d (nth (off + 0) m Byte.x00))
    by (rewrite length_map, length_seq; lia).
  change (nth (off + 0) m Byte.x00)
    with ((fun i => nth (off + i) m Byte.x00) 0).
  rewrite map_nth, seq_nth by lia. reflexivity.
Qed.

Lemma nth_write off bs m i d :
  nth i (write off bs m) d =
    if (off <=? i) && (i <? off + length bs) && (i <? length m)
    then nth (i - off) bs d else nth i m d.
Proof.
  revert off bs i; induction m as [|b m IH]; intros off bs i; simpl.
  - rewrite andb_false_r. now destruct i.
  - destruct off as [|off].
    + destruct bs as [|b' bs]; simpl.
      * now destruct i.
      * destruct i as [|i]; simpl; auto.
        rewrite IH. simpl. rewrite Nat.sub_0_r. reflexivity.
    + destruct i as [|i]; simpl; auto.
Qed.

Lemma read_ext off len m1 m2 :
  (forall i, i < len -> nth (off + i) m1 Byte.x00 = nth (off + i) m2 Byte.x00) ->
  read off len m1 = read off len m2.
Proof.
  intros H. unfold read. apply map_ext_in.
  intros i Hi. apply in_seq in Hi. apply H. lia.
Qed.

Lemma read_write_same off bs m :
  off + length bs <= length m -> read off (length bs) (write off bs m) = bs.
Proof.
  intros H. apply (nth_ext _ _ Byte.x00 Byte.x00).
  - apply length_read.
  - intros i Hi. rewrite length_read in Hi.
    rewrite nth_read by assumption. rewrite nth_write.
    replace (off + i - off) with i by lia.
    destruct (off <=? off + i) eqn:E1; [|apply Nat.leb_gt in E1; lia].
    destruct (off + i <? off + length bs) eqn:E2; [|apply Nat.ltb_ge in E2; lia].
    destruct (off + i <? length m) eqn:E3; [|apply Nat.ltb_ge in E3; lia].
    reflexivity.
Qed.

Lemma read_write_other off1 bs off2 len m :
  off2 + len <= off1 \/ off1 + length bs <= off2 ->
  read off2 len (write off1 bs m) = read off2 len m.
Proof.
  intros H. apply read_ext. intros i Hi. rewrite nth_write.
  destruct (off1 <=? off2 + i) eqn:E1; simpl; auto.
  destruct (off2 + i <? off1 + length bs) eqn:E2; simpl; auto.
  apply Nat.leb_le in E1. apply Nat.ltb_lt in E2. lia.
Qed.

Lemma read_0_all m : read 0 (length m) m = m.
Proof.
  apply (nth_ext _ _ Byte.x00 Byte.x00).
  - apply length_read.
  - intros i Hi. rewrite length_read in Hi. now rewrite nth_read.
Qed.

Lemma read_app_l len m rest : length m = len -> read 0 len (m ++ rest) = m.
Proof.
  intros <-. transitivity (read 0 (length m) m); [|apply read_0_all].
  apply read_ext. intros i Hi. simpl. now rewrite app_nth1.
Qed.

(** A read splits at any inner boundary. *)
Lemma read_split off len1 len2 m :
  read off (len1 + len2) m = read off len1 m ++ read (off + len1) len2 m.
Proof.
  apply (nth_ext _ _ Byte.x00 Byte.x00).
  - now rewrite length_app, !length_read.
  - intros i Hi. rewrite length_read in Hi.
    rewrite nth_read by assumption.
    destruct (Nat.lt_ge_cases i len1) as [Hlt|Hge].
    + rewrite app_nth1 by now rewrite length_read.
      now rewrite nth_read.
    + rewrite app_nth2 by now rewrite length_read.
      rewrite length_read, nth_read by lia. f_equal. lia.
Qed.

Lemma read_app_r off len pre m :
  read (length pre + off) len (pre ++ m) = read off len m.
Proof.
  unfold read. apply map_ext. intros i.
  rewrite app_nth2 by lia. f_equal. lia.
Qed.

Lemma read_app_mid len pre m rest :
  length m = len -> read (length pre) len (pre ++ m ++ rest) = m.
Proof.
  intros H. rewrite <- (Nat.add_0_r (length pre)), read_app_r.
  now apply read_app_l.
Qed.

End MemFacts.

(** ** Codecs *)

Lemma length_encode_node_id n : length (encode_node_id n) = 4.
Proof. apply length_le_split. Qed.

Lemma length_encode_size_t n : length (encode_size_t n) = 8.
Proof. apply length_le_split. Qed.

Lemma decode_encode_node_id n :
(Z.of_nat n < 2 ^ 32)%Z -> decode_node_id (encode_node_id n) = n.
Proof.
intros H. unfold decode_node_id, encode_node_id.
rewrite le_combine_split. change (Z.of_nat 4 * 8)%Z with 32%Z.
rewrite Z.mod_small by lia. apply Nat2Z.id.
Qed.

Lemma decode_encode_size_t n :
(Z.of_nat n < 2 ^ 64)%Z -> decode_size_t (encode_size_t n) = n.
Proof.
intros H. unfold decode_size_t, encode_size_t.
rewrite le_combine_split. change (Z.of_nat 8 * 8)%Z with 64%Z.
rewrite Z.mod_small by lia. apply Nat2Z.id.
Qed.

(** ** Priority queues *)

Section PQFacts.
Context {F : Type} {FO : float_ops F}.
Import PQ.

Lemma size_emplace x q : size (emplace x q) = S (size q).
Proof.
  induction q as [|y q IH]; simpl; auto.
  destruct (pair_lt y x); simpl; auto.
Qed.

Lemma emplace_perm x q : Permutation (emplace x q) (x :: q).
Proof.
  induction q as [|y q IH]; simpl; auto.
  destruct (pair_lt y x); auto.
  apply perm_trans with (y :: x :: q); [now apply perm_skip | apply perm_swap].
Qed.

Lemma in_emplace x y q : In y (emplace x q) <-> y = x \/ In y q.
Proof.
  split; intros H.
  - apply (Permutation_in _ (emplace_perm x q)) in H.
    simpl in H. intuition.
  - apply (Permutation_in _ (Permutation_sym (emplace_perm x q))).
    simpl. intuition.
Qed.

End PQFacts.

(** ** Visited sets *)

Section ExplicitSetFacts.
Import ExplicitSet.

Lemma mem_In n s : mem n s = true <-> In n (marks s).
Proof.
  unfold mem. rewrite existsb_exists. split.
  - intros [x [Hx E]]. apply Nat.eqb_eq in E. now subst.
  - intros Hn. exists n. split; auto. apply Nat.eqb_refl.
Qed.

Lemma mem_insert n k s : mem n (insert k s) = (n =? k) || mem n s.
Proof. reflexivity. Qed.

End ExplicitSetFacts.

(** ** The graph engine *)

Section IndexFacts.
Context {F : Type} {FO : float_ops F} {LO : label_ops}.
Import FlatNav.
Implicit Types idx ix : Index F.

Lemma same_shape_refl idx : same_shape idx idx.
Proof. unfold same_shape; intuition. Qed.

Lemma same_shape_trans idx1 idx2 idx3 :
  same_shape idx1 idx2 -> same_shape idx2 idx3 -> same_shape idx1 idx3.
Proof. unfold same_shape; intuition congruence. Qed.

Lemma same_shape_geometry idx1 idx2 :
  same_shape idx1 idx2 -> geometry idx1 -> geometry idx2.
Proof. unfold same_shape, geometry. intuition congruence. Qed.

Lemma same_shape_setLink idx n i v : same_shape idx (setLink idx n i v).
Proof.
  unfold same_shape, setLink; simpl. rewrite length_write. intuition.
Qed.

Lemma same_shape_set_visited idx v : same_shape idx (set_visited_nodes idx v).
Proof. unfold same_shape; simpl; intuition. Qed.

Lemma mul_step (n n' s : nat) : n < n' -> n * s + s <= n' * s.
Proof. intros H. nia. Qed.

(** Offsets of two link slots never overlap unless they are the same
    slot. *)
Lemma link_slots_disjoint idx n i n' i' :
  geometry idx -> i < _M idx -> i' < _M idx -> (n, i) <> (n', i') ->
  links_off idx n' + 4 * i' + 4 <= links_off idx n + 4 * i
  \/ links_off idx n + 4 * i + 4 <= links_off idx n' + 4 * i'.
Proof.
  intros [G _] Hi Hi' Hne. unfold links_off.
  destruct (Nat.lt_trichotomy n n') as [H|[H|H]].
  - right. pose proof (mul_step _ _ (_node_size_bytes idx) H). lia.
  - subst n'. assert (i <> i') by congruence. lia.
  - left. pose proof (mul_step _ _ (_node_size_bytes idx) H). lia.
Qed.

Lemma memory_set_index_memory idx m : _index_memory (set_index_memory idx m) = m.
Proof. reflexivity. Qed.

Lemma links_off_set_index_memory idx m n :
  links_off (set_index_memory idx m) n = links_off idx n.
Proof. reflexivity. Qed.

Lemma data_off_set_index_memory idx m n :
  data_off (set_index_memory idx m) n = data_off idx n.
Proof. reflexivity. Qed.

Lemma label_off_set_index_memory idx m n :
  label_off (set_index_memory idx m) n = label_off idx n.
Proof. reflexivity. Qed.

Lemma getLink_setLink_same idx n i v :
  geometry idx -> n < _max_node_count idx -> i < _M idx ->
  (Z.of_nat v < 2 ^ 32)%Z ->
  getLink (setLink idx n i v) n i = v.
Proof.
  intros [G1 G2] Hn Hi Hv. unfold getLink, setLink.
  rewrite memory_set_index_memory, links_off_set_index_memory.
  pose proof (read_write_same (links_off idx n + 4 * i)
                (encode_node_id v) (_index_memory idx)) as R.
  rewrite length_encode_node_id in R. rewrite R.
  - now apply decode_encode_node_id.
  - rewrite G2. unfold links_off.
    pose proof (mul_step _ _ (_node_size_bytes idx) Hn). lia.
Qed.

Lemma getLink_setLink_other idx n i v n' i' :
  geometry idx -> i < _M idx -> i' < _M idx -> (n, i) <> (n', i') ->
  getLink (setLink idx n i v) n' i' = getLink idx n' i'.
Proof.
  intros G Hi Hi' Hne. unfold getLink, setLink.
  rewrite memory_set_index_memory, links_off_set_index_memory.
  rewrite read_write_other; auto.
  rewrite length_encode_node_id.
  destruct (link_slots_disjoint idx n i n' i' G Hi Hi' Hne); lia.
Qed.

Lemma getNodeData_setLink idx n i v n' :
  geometry idx -> i < _M idx ->
  getNodeData (setLink idx n i v) n' = getNodeData idx n'.
Proof.
  intros [G _] Hi. unfold getNodeData, setLink.
  rewrite memory_set_index_memory, data_off_set_index_memory.
  change (_data_size_bytes (set_index_memory idx _)) with (_data_size_bytes idx).
  apply read_write_other. rewrite length_encode_node_id.
  unfold links_off, data_off.
  destruct (Nat.lt_trichotomy n n') as [H|[H|H]].
  - right. pose proof (mul_step _ _ (_node_size_bytes idx) H). lia.
  - subst. left. lia.
  - left. pose proof (mul_step _ _ (_node_size_bytes idx) H). lia.
Qed.

Lemma getNodeLabel_setLink idx n i v n' :
  geometry idx -> i < _M idx ->
  getNodeLabel (setLink idx n i v) n' = getNodeLabel idx n'.
Proof.
  intros [G _] Hi. unfold getNodeLabel, setLink.
  rewrite memory_set_index_memory, label_off_set_index_memory.
  apply read_write_other. rewrite length_encode_node_id.
  unfold links_off, label_off.
  destruct (Nat.lt_trichotomy n n') as [H|[H|H]].
  - right. pose proof (mul_step _ _ (_node_size_bytes idx) H). lia.
  - subst. right. lia.
  - left. pose proof (mul_step _ _ (_node_size_bytes idx) H). lia.
Qed.

Lemma node_distance_setLink idx n i v a b :
  geometry idx -> i < _M idx ->
  node_distance (setLink idx n i v) a b = node_distance idx a b.
Proof.
  intros G Hi. unfold node_distance.
  rewrite !getNodeData_setLink by assumption. reflexivity.
Qed.

(** ** Heuristic neighbour selection *)

Lemma size_t_of_int_small (z : Z) : (0 <= z < 2 ^ 64)%Z -> size_t_of_int z = z.
Proof. intros H. unfold size_t_of_int. now apply Z.mod_small. Qed.

Lemma in_fold_emplace_neg (q acc : (PriorityQueue F)) (x : (dist_node_t F)) :
  In x (fold_left (fun acc x => PQ.emplace (fneg (fst x), snd x) acc) q acc)
  <-> In x acc \/ exists y, In y q /\ x = (fneg (fst y), snd y).
Proof.
  revert acc; induction q as [|y q IH]; intros acc; simpl.
  - split; [auto | intros [H|[y [[] _]]]; auto].
  - rewrite IH, in_emplace. split.
    + intros [[H|H]|[z [Hz E]]]; eauto.
    + intros [H|[z [[Hz|Hz] E]]]; subst; eauto.
Qed.

Lemma in_negate_all (q : (PriorityQueue F)) (x : (dist_node_t F)) :
  In x (negate_all q) <-> exists y, In y q /\ x = (fneg (fst y), snd y).
Proof.
  unfold negate_all. rewrite in_fold_emplace_neg. simpl.
  split; [intros [[]|H]; auto | auto].
Qed.

Lemma size_fold_emplace_neg (q acc : (PriorityQueue F)) :
  PQ.size (fold_left (fun acc x => PQ.emplace (fneg (fst x), snd x) acc) q acc)
  = length q + PQ.size acc.
Proof.
  revert acc; induction q as [|y q IH]; intros acc; simpl; auto.
  rewrite IH, size_emplace. lia.
Qed.

Lemma size_negate_all (q : (PriorityQueue F)) : PQ.size (negate_all q) = length q.
Proof. unfold negate_all. rewrite size_fold_emplace_neg. simpl. lia. Qed.

Lemma should_keep_false idx saved c :
  should_keep_candidate idx saved c = false ->
  exists a, In a saved
            /\ fltb (node_distance idx (snd a) (snd c)) (fneg (fst c)) = true.
Proof.
  unfold should_keep_candidate. induction saved as [|a saved IH]; simpl.
  - discriminate.
  - destruct (fltb (node_distance idx (snd a) (snd c)) (fneg (fst c))) eqn:E; simpl.
    + intros _. exists a. auto.
    + intros H. destruct (IH H) as [a' [Ha' E']]. exists a'. auto.
Qed.

(** What the selection loop returns: the accepted list grows at its end
    with examined candidates only, never past [M]; a candidate is either
    accepted, or beaten by an accepted one, or left over because [M] were
    accepted. *)
Lemma select_loop_spec idx (M : Z) (cands : (PriorityQueue F)) :
  forall saved : list (dist_node_t F),
  let r := select_loop idx M cands saved in
  (exists more, r = saved ++ more /\ incl more cands)
  /\ ((Z.of_nat (length saved) <= size_t_of_int M)%Z ->
      (Z.of_nat (length r) <= size_t_of_int M)%Z)
  /\ (forall c, In c cands ->
        In c r
        \/ (exists a, In a r
              /\ fltb (node_distance idx (snd a) (snd c)) (fneg (fst c)) = true)
        \/ (size_t_of_int M <= Z.of_nat (length r))%Z).
Proof.
  induction cands as [|c cands IH]; intros saved; simpl.
  - repeat split.
    + exists []. rewrite app_nil_r. split; [reflexivity | intros x []].
    + auto.
    + intros c [].
  - destruct (size_t_of_int M <=? Z.of_nat (length saved))%Z eqn:Estop.
    + apply Z.leb_le in Estop. repeat split.
      * exists []. rewrite app_nil_r. split; [reflexivity | intros x []].
      * auto.
      * intros c' _. right. right. exact Estop.
    + apply Z.leb_gt in Estop.
      destruct (should_keep_candidate idx saved c) eqn:Ekeep.
      * destruct (IH (saved ++ [c])) as ((more & Er & Hinc) & Hlen & Hrej).
        repeat split.
        -- exists (c :: more). rewrite Er, <- app_assoc. split; [reflexivity|].
           intros x [Hx|Hx]; [left; auto | right; auto].
        -- intros _. apply Hlen. rewrite length_app. simpl. lia.
        -- intros c' [Hc'|Hc'].
           ++ subst c'. left. rewrite Er. apply in_or_app. left.
              apply in_or_app. right. simpl. auto.
           ++ apply Hrej. exact Hc'.
      * destruct (IH saved) as ((more & Er & Hinc) & Hlen & Hrej).
        repeat split.
        -- exists more. split; [exact Er|]. intros x Hx. right. auto.
        -- exact Hlen.
        -- intros c' [Hc'|Hc'].
           ++ subst c'. right. left.
              destruct (should_keep_false idx saved c Ekeep) as [a [Ha E]].
              exists a. split; [|exact E]. rewrite Er. apply in_or_app. auto.
           ++ apply Hrej. exact Hc'.
Qed.

Lemma negate_all_perm (q : PriorityQueue F) :
  Permutation (negate_all q) (map (fun x => (fneg (fst x), snd x)) q).
Proof.
  unfold negate_all.
  assert (H : forall acc : PriorityQueue F,
             Permutation
               (fold_left (fun acc x => PQ.emplace (fneg (fst x), snd x) acc) q acc)
               (map (fun x => (fneg (fst x), snd x)) q ++ acc)).
  { induction q as [|x q IH]; intros acc; simpl; [apply Permutation_refl|].
    eapply perm_trans; [apply IH|].
    eapply perm_trans; [apply Permutation_app_head, emplace_perm|].
    apply Permutation_sym, Permutation_middle. }
  specialize (H PQ.empty). unfold PQ.empty in H. now rewrite app_nil_r in H.
Qed.

(** The run of the selection loop, candidate by candidate: [examined]
    lists the candidates the loop popped, each with the outcome of the
    test, and [unexamined] the candidates left in the queue at the
    [break]. *)
Lemma select_loop_trace idx (M : Z) (cands : PriorityQueue F) :
  forall saved : list (dist_node_t F),
  exists (examined : list (dist_node_t F * bool)) (unexamined : list (dist_node_t F)),
    cands = map fst examined ++ unexamined
    /\ select_loop idx M cands saved = saved ++ map fst (filter snd examined)
    /\ (forall pre c b post, examined = pre ++ (c, b) :: post ->
          b = should_keep_candidate idx (saved ++ map fst (filter snd pre)) c
          /\ (Z.of_nat (length (saved ++ map fst (filter snd pre)))
              < size_t_of_int M)%Z)
    /\ (unexamined <> [] ->
        (size_t_of_int M
         <= Z.of_nat (length (saved ++ map fst (filter snd examined))))%Z).
Proof.
  induction cands as [|c cands IH]; intros saved.
  - exists [], []. simpl. rewrite app_nil_r.
    split; [reflexivity|]. split; [reflexivity|]. split; [|congruence].
    intros pre c b post E; destruct pre; discriminate E.
  - simpl. destruct (size_t_of_int M <=? Z.of_nat (length saved))%Z eqn:Estop.
    + apply Z.leb_le in Estop. exists [], (c :: cands). simpl. rewrite app_nil_r.
      split; [reflexivity|]. split; [reflexivity|]. split; [|auto].
      intros pre c' b post E; destruct pre; discriminate E.
    + apply Z.leb_gt in Estop.
      set (b := should_keep_candidate idx saved c).
      destruct (IH (if b then saved ++ [c] else saved))
        as (examined & unexamined & Ec & Er & Hpos & Hstop).
      assert (Eacc : forall l : list (dist_node_t F * bool),
                 (if b then saved ++ [c] else saved) ++ map fst (filter snd l)
                 = saved ++ map fst (filter snd ((c, b) :: l))).
      { intros l. simpl. destruct b; simpl; [now rewrite <- app_assoc | reflexivity]. }
      exists ((c, b) :: examined), unexamined.
      split; [simpl; now rewrite Ec|]. split; [|split].
      * rewrite <- Eacc, <- Er. subst b.
        destruct (should_keep_candidate idx saved c); reflexivity.
      * intros pre c' b' post E. destruct pre as [|p pre].
        -- simpl in E. injection E as <- <- _. simpl. rewrite app_nil_r.
           split; [reflexivity | exact Estop].
        -- simpl in E. injection E as <- E.
           rewrite <- Eacc. apply (Hpos pre c' b' post E).
      * intros Hne. rewrite <- Eacc. now apply Hstop.
Qed.

Lemma should_keep_true idx saved c :
  should_keep_candidate idx saved c = true ->
  forall a, In a saved ->
    fltb (node_distance idx (snd a) (snd c)) (fneg (fst c)) = false.
Proof.
  unfold should_keep_candidate. intros H a Ha.
  rewrite forallb_forall in H. specialize (H a Ha).
  now apply negb_true_iff in H.
Qed.

Lemma filter_snd_map {A B : Type} (g : A -> B) (l : list (A * bool)) :
  filter snd (map (fun p => (g (fst p), snd p)) l)
  = map (fun p => (g (fst p), snd p)) (filter snd l).
Proof.
  induction l as [|[a b] l IH]; simpl; [reflexivity|].
  destruct b; simpl; now rewrite IH.
Qed.

(** C2 (amended): from more than [M] candidates the heuristic keeps at
    most [M], all of them candidates.  [order] is the queue of the
    candidates as the loop pops it (distances restored); the loop
    examines a prefix of it and leaves the rest unexamined, which is not
    empty only when [M] candidates were accepted.  Every examined
    candidate is examined while fewer than [M] are accepted; it is
    rejected only if a candidate accepted before it is strictly closer
    to it than the query is, and accepted only if none is. *)
Theorem selectNeighbors_heuristic {FL : float_laws F} idx
        (neighbors : (PriorityQueue F)) (M : nat) :
  (Z.of_nat M < 2 ^ 31)%Z ->
  M < PQ.size neighbors ->
  let out := selectNeighbors idx neighbors (Z.of_nat M) in
  let order := map (fun c => (fneg (fst c), snd c)) (negate_all neighbors) in
  PQ.size out <= M
  /\ (forall c, In c out -> In c neighbors)
  /\ (forall c, In c neighbors -> ~ In c out ->
        (exists a, In a out
           /\ fltb (node_distance idx (snd a) (snd c)) (fst c) = true)
        \/ PQ.size out = M)
  /\ Permutation order neighbors
  /\ exists (examined : list (dist_node_t F * bool))
            (unexamined : list (dist_node_t F)),
       order = map fst examined ++ unexamined
       /\ Permutation (map fst (filter snd examined)) out
       /\ (forall pre c b post, examined = pre ++ (c, b) :: post ->
             length (filter snd pre) < M
             /\ (b = false ->
                 exists a, In a (map fst (filter snd pre))
                   /\ fltb (node_distance idx (snd a) (snd c)) (fst c) = true)
             /\ (b = true ->
                 forall a, In a (map fst (filter snd pre)) ->
                   fltb (node_distance idx (snd a) (snd c)) (fst c) = false))
       /\ (unexamined <> [] -> PQ.size out = M).
Proof.
  intros HM Hsize. cbv zeta. unfold selectNeighbors.
  rewrite size_t_of_int_small by lia.
  replace (Z.of_nat (PQ.size neighbors) <? Z.of_nat M)%Z with false
    by (symmetry; apply Z.ltb_ge; lia).
  pose proof (select_loop_spec idx (Z.of_nat M) (negate_all neighbors) [])
    as ((more & Er & Hinc) & Hlen & Hrej).
  destruct (select_loop_trace idx (Z.of_nat M) (negate_all neighbors) [])
    as (ex & unex & Eord & Etr & Hpos & Hstop).
  rewrite size_t_of_int_small in Hlen, Hrej, Hpos, Hstop by lia.
  set (r := select_loop idx (Z.of_nat M) (negate_all neighbors) []) in *.
  simpl in Er. subst more.
  assert (Hle : length r <= M) by (simpl in Hlen; lia).
  assert (Hback : forall c, In c (negate_all r) -> In c neighbors).
  { intros c Hc. apply in_negate_all in Hc. destruct Hc as [y [Hy ->]].
    apply Hinc, in_negate_all in Hy. destruct Hy as [z [Hz ->]]. simpl.
    rewrite fneg_involutive. now destruct z. }
  split; [|split; [|split; [|split]]].
  - now rewrite size_negate_all.
  - exact Hback.
  - intros c Hc Hnot.
    assert (Hc' : In (fneg (fst c), snd c) (negate_all neighbors)).
    { apply in_negate_all. exists c. auto. }
    destruct (Hrej _ Hc') as [Hin|[[a [Ha E]]|Hfull]].
    + exfalso. apply Hnot. apply in_negate_all.
      exists (fneg (fst c), snd c). split; [exact Hin|].
      simpl. rewrite fneg_involutive. now destruct c.
    + left. exists (fneg (fst a), snd a). split.
      * apply in_negate_all. exists a. auto.
      * simpl in *. now rewrite fneg_involutive in E.
    + right. rewrite size_negate_all. lia.
  - eapply perm_trans;
      [apply Permutation_map, negate_all_perm|].
    rewrite map_map. simpl.
    rewrite (map_ext _ (fun x => x)); [rewrite map_id; apply Permutation_refl|].
    intros [d n]. simpl. now rewrite fneg_involutive.
  - simpl in Etr.
    set (g := fun c : dist_node_t F => (fneg (fst c), snd c)).
    exists (map (fun p => (g (fst p), snd p)) ex), (map g unex).
    split; [|split; [|split]].
    + rewrite Eord, map_app, !map_map. reflexivity.
    + rewrite filter_snd_map, map_map. cbn [fst].
      rewrite <- (map_map fst g), <- Etr.
      apply Permutation_sym, negate_all_perm.
    + intros pre c b post E.
      apply map_eq_app in E. destruct E as (pre0 & rest0 & Eex & Epre & Erest).
      apply map_eq_cons in Erest. destruct Erest as (p0 & post0 & Erest & Ep & _).
      destruct p0 as [c0 b0]. simpl in Ep. injection Ep as Ec Eb. subst b0 rest0.
      destruct (Hpos pre0 c0 b post0 Eex) as [Hb Hfew]. simpl in Hb, Hfew.
      assert (Eacc : map fst (filter snd pre) = map g (map fst (filter snd pre0))).
      { rewrite <- Epre, filter_snd_map, !map_map. reflexivity. }
      split; [|split].
      * rewrite <- Epre, filter_snd_map, length_map.
        rewrite length_map in Hfew. lia.
      * intros ->. symmetry in Hb.
        destruct (should_keep_false idx _ c0 Hb) as (a0 & Ha0 & Hlt).
        exists (g a0). split.
        -- rewrite Eacc. apply in_map. exact Ha0.
        -- subst c. exact Hlt.
      * intros -> a Ha. symmetry in Hb.
        rewrite Eacc in Ha. apply in_map_iff in Ha. destruct Ha as (a0 & <- & Ha0).
        subst c. exact (should_keep_true idx _ c0 Hb a0 Ha0).
    + intros Hne. rewrite size_negate_all.
      assert (Hne0 : unex <> []) by (intros ->; now apply Hne).
      specialize (Hstop Hne0). simpl in Hstop. rewrite <- Etr in Hstop. lia.
Qed.

(** ** Beam search *)

Lemma NoDup_bounded_length (l : list nat) (B : nat) :
  NoDup l -> (forall x, In x l -> x < B) -> length l <= B.
Proof.
  intros Hnd Hb. replace B with (length (seq 0 B)) by apply length_seq.
  apply NoDup_incl_length; [exact Hnd|].
  intros x Hx. apply in_seq. specialize (Hb x Hx). lia.
Qed.

Lemma in_getNodeLinks idx n l :
  In l (getNodeLinks idx n) <-> exists i, i < _M idx /\ l = getLink idx n i.
Proof.
  unfold getNodeLinks. rewrite in_map_iff. split.
  - intros [i [E Hi]]. apply in_seq in Hi. exists i. split; [lia | auto].
  - intros [i [Hi E]]. exists i. split; [auto | apply in_seq; lia].
Qed.

Lemma NoDup_map_snd_pop (q : (PriorityQueue F)) :
  NoDup (map snd q) -> NoDup (map snd (PQ.pop q)).
Proof. destruct q; simpl; auto. intros H. now inversion H. Qed.

Lemma in_pop (q : (PriorityQueue F)) c : In c (PQ.pop q) -> In c q.
Proof. destruct q; simpl; auto. Qed.

Lemma beam_visit_inv idx query buffer_size B st l :
  l < B -> beam_inv B st ->
  beam_inv B (beam_visit idx query buffer_size st l)
  /\ beam_potential B (beam_visit idx query buffer_size st l) <= beam_potential B st.
Proof.
  intros Hl (Hnd & Hb & Hc & Hn & Hndn). unfold beam_visit.
  destruct (ExplicitSet.mem l (bs_visited st)) eqn:Emem.
  - split; [repeat split; auto | lia].
  - assert (Hnot : ~ In l (ExplicitSet.marks (bs_visited st))).
    { intros Hin. apply mem_In in Hin. congruence. }
    assert (Hnd' : NoDup (l :: ExplicitSet.marks (bs_visited st)))
      by (constructor; auto).
    assert (Hb' : forall x, In x (l :: ExplicitSet.marks (bs_visited st)) -> x < B).
    { intros x [<-|Hx]; auto. }
    pose proof (NoDup_bounded_length _ _ Hnd' Hb') as Hlen. simpl in Hlen.
    match goal with |- context [if ?c then _ else _] => destruct c end.
    + split.
      * unfold beam_inv; simpl. repeat split; auto.
        -- intros c Hin. apply in_emplace in Hin. destruct Hin as [->|Hin]; simpl; auto.
        -- intros c Hin.
           assert (Hin' : In c (PQ.emplace (query_distance idx query l, l)
                                           (bs_neighbors st))).
           { match type of Hin with
             | In _ (if ?c then _ else _) => destruct c
             end; [apply in_pop|]; exact Hin. }
           apply in_emplace in Hin'. destruct Hin' as [->|Hin']; simpl; auto.
        -- assert (Hp : NoDup (map snd (PQ.emplace (query_distance idx query l, l)
                                                   (bs_neighbors st)))).
           { apply (Permutation_NoDup
                      (l := map snd ((query_distance idx query l, l) :: bs_neighbors st))).
             - apply Permutation_map, Permutation_sym, emplace_perm.
             - simpl. constructor; auto.
               intros Hin. apply in_map_iff in Hin.
               destruct Hin as [c [E Hin]]. subst l. apply Hnot. auto. }
           match goal with
           | |- context [if ?c then _ else _] => destruct c
           end; [apply NoDup_map_snd_pop|]; exact Hp.
      * unfold beam_potential; simpl.
        change (length (PQ.emplace ?x ?q)) with (PQ.size (PQ.emplace x q)).
        rewrite size_emplace.
        unfold PQ.size, PQ.dist_node_t, dist_node_t in *. lia.
    + split.
      * unfold beam_inv; simpl. repeat split; auto.
      * unfold beam_potential; simpl. lia.
Qed.

Lemma beam_fold_inv idx query buffer_size B (links : list node_id_t) :
  (forall l, In l links -> l < B) ->
  forall st, beam_inv B st ->
  let st' := fold_left (beam_visit idx query buffer_size) links st in
  beam_inv B st' /\ beam_potential B st' <= beam_potential B st.
Proof.
  induction links as [|l links IH]; intros Hl st Hinv; simpl.
  - split; [auto | lia].
  - destruct (beam_visit_inv idx query buffer_size B st l) as [H1 H2];
      [apply Hl; simpl; auto | exact Hinv |].
    destruct (IH (fun x Hx => Hl x (or_intror Hx)) _ H1) as [H3 H4].
    split; [exact H3 | lia].
Qed.

Lemma beam_loop_terminates idx query buffer_size B :
  links_closed idx B ->
  forall fuel st,
    beam_inv B st -> beam_potential B st <= fuel ->
    exists st', beam_loop idx query buffer_size fuel st = Some st' /\ beam_inv B st'.
Proof.
  intros Hclosed. induction fuel as [|fuel IH]; intros st Hinv Hpot.
  - destruct st as [v cands nb md]. simpl.
    destruct cands as [|d rest].
    + eexists; split; [reflexivity | exact Hinv].
    + unfold beam_potential in Hpot. simpl in Hpot. lia.
  - destruct st as [v cands nb md]. simpl.
    destruct cands as [|d rest].
    + eexists; split; [reflexivity | exact Hinv].
    + destruct (fltb md (fneg (fst d))).
      * eexists; split; [reflexivity | exact Hinv].
      * destruct Hinv as (Hnd & Hb & Hc & Hn & Hndn). simpl in *.
        set (st0 := {| bs_visited := v; bs_candidates := rest;
                       bs_neighbors := nb; bs_max_dist := md |}).
        assert (Hinv0 : beam_inv B st0).
        { unfold beam_inv, st0; simpl. repeat split; auto. }
        assert (Hd : snd d < B) by (apply Hb, Hc; auto).
        destruct (beam_fold_inv idx query buffer_size B (getNodeLinks idx (snd d)))
          with (st := st0) as [H1 H2]; auto.
        { intros l Hl. apply in_getNodeLinks in Hl.
          destruct Hl as [i [Hi ->]]. now apply Hclosed. }
        apply IH; [exact H1|].
        unfold beam_potential in *. simpl in *. lia.
Qed.

Lemma beamSearch_spec idx query entry_node buffer_size B :
  links_closed idx B -> B <= S (_cur_num_nodes idx) -> entry_node < B ->
  exists st,
    beamSearch idx query entry_node buffer_size
      = Some (bs_neighbors st, set_visited_nodes idx (bs_visited st))
    /\ beam_loop idx query buffer_size (S (_cur_num_nodes idx))
                 (beam_init idx query entry_node) = Some st
    /\ NoDup (map snd (bs_neighbors st))
    /\ (forall c, In c (bs_neighbors st) -> snd c < B).
Proof.
  intros Hclosed HB He.
  destruct (beam_loop_terminates idx query buffer_size B Hclosed
              (S (_cur_num_nodes idx)) (beam_init idx query entry_node))
    as [st [E Hinv]].
  - unfold beam_inv, beam_init; simpl. repeat split.
    + constructor; [intros [] | constructor].
    + intros x [<-|[]]. exact He.
    + intros c [<-|[]]. simpl. auto.
    + intros c [<-|[]]. simpl. auto.
    + constructor; [intros [] | constructor].
  - unfold beam_potential, beam_init; simpl. lia.
  - exists st. unfold beamSearch. rewrite E. repeat split; auto.
    + apply Hinv.
    + intros c Hc. destruct Hinv as (_ & Hb & _ & Hn & _). auto.
Qed.

(** A link slot holds a 32-bit value, whatever the block contains. *)
Lemma getLink_lt idx n i : getLink idx n i < Z.to_nat (2 ^ 32).
Proof.
  unfold getLink, decode_node_id.
  pose proof (le_combine_bound
                (Mem.read (links_off idx n + 4 * i) 4 (_index_memory idx))) as H.
  rewrite length_read in H. change (8 * Z.of_nat 4)%Z with 32%Z in H.
  apply Z2Nat.inj_lt; lia.
Qed.

(** Whenever the loop exits, on any index, its invariant holds. *)
Lemma beam_loop_inv idx query buffer_size B :
  (forall n i, getLink idx n i < B) ->
  forall fuel st st',
    beam_inv B st -> beam_loop idx query buffer_size fuel st = Some st' ->
    beam_inv B st'.
Proof.
  intros Hlinks. induction fuel as [|fuel IH]; intros st st' Hinv E;
    destruct st as [v cands nb md]; simpl in E; destruct cands as [|d rest].
  - injection E as <-. exact Hinv.
  - destruct (fltb md (fneg (fst d))); [injection E as <-; exact Hinv | discriminate].
  - injection E as <-. exact Hinv.
  - destruct (fltb md (fneg (fst d))); [injection E as <-; exact Hinv|].
    apply IH in E; [exact E|].
    apply (beam_fold_inv idx query buffer_size B (getNodeLinks idx (snd d))).
    + intros l Hl. apply in_getNodeLinks in Hl. destruct Hl as [i [_ ->]].
      apply Hlinks.
    + destruct Hinv as (Hnd & Hb & Hc & Hn & Hndn). simpl in *.
      unfold beam_inv; simpl. repeat split; auto.
Qed.

Lemma beamSearch_distinct idx query entry_node buffer_size neighbors idx' :
  beamSearch idx query entry_node buffer_size = Some (neighbors, idx') ->
  NoDup (map snd neighbors).
Proof.
  unfold beamSearch.
  destruct (beam_loop idx query buffer_size (S (_cur_num_nodes idx))
                      (beam_init idx query entry_node)) as [st|] eqn:E;
    [|discriminate].
  intros H. injection H as <- _.
  assert (HB : exists B, (forall n i, getLink idx n i < B) /\ entry_node < B).
  { exists (Nat.max (Z.to_nat (2 ^ 32)) (S entry_node)). split.
    - intros n i. pose proof (getLink_lt idx n i). lia.
    - lia. }
  destruct HB as (B & Hlinks & He).
  apply (beam_loop_inv idx query buffer_size B Hlinks) in E; [apply E|].
  unfold beam_inv, beam_init; simpl. repeat split.
  - constructor; [intros [] | constructor].
  - intros x [<-|[]]. exact He.
  - intros c [<-|[]]. simpl. auto.
  - intros c [<-|[]]. simpl. auto.
  - constructor; [intros [] | constructor].
Qed.

(** ** Entry selection and [search] *)

Lemma initializeSearch_loop_lt idx query step rounds :
  forall node min_dist entry_node,
    entry_node < _cur_num_nodes idx ->
    initializeSearch_loop idx query step rounds node min_dist entry_node
    < _cur_num_nodes idx.
Proof.
  induction rounds as [|rounds IH]; intros node min_dist entry_node He; simpl; auto.
  destruct (node <? _cur_num_nodes idx) eqn:En; auto.
  apply Nat.ltb_lt in En.
  destruct (fltb (query_distance idx query node) min_dist); apply IH; auto.
Qed.

Lemma initializeSearch_lt idx query num_initializations entry_node :
  initializeSearch idx query num_initializations = Some entry_node ->
  0 < _cur_num_nodes idx ->
  entry_node < _cur_num_nodes idx.
Proof.
  unfold initializeSearch. destruct (num_initializations =? 0)%Z; [discriminate|].
  intros E H. injection E as <-. now apply initializeSearch_loop_lt.
Qed.

(** Past the assertion the entry selection returns. *)
Lemma initializeSearch_returns idx query num_initializations :
  num_initializations <> 0%Z ->
  exists entry_node, initializeSearch idx query num_initializations = Some entry_node.
Proof.
  intros H. unfold initializeSearch.
  destruct (Z.eqb_spec num_initializations 0); [contradiction|].
  eexists. reflexivity.
Qed.

Lemma initializeSearch_aborts idx query num_initializations :
  initializeSearch idx query num_initializations = None <-> num_initializations = 0%Z.
Proof.
  unfold initializeSearch. destruct (Z.eqb_spec num_initializations 0); split;
    intros H; congruence.
Qed.

Lemma pop_down_to_suffix (K : Z) (q : PriorityQueue F) :
  exists dropped, q = dropped ++ pop_down_to K q.
Proof.
  induction q as [|x q IH].
  - exists []. reflexivity.
  - cbn [pop_down_to].
    destruct (size_t_of_int K <? Z.of_nat (PQ.size (x :: q)))%Z.
    + destruct IH as [d E]. exists (x :: d). simpl. now rewrite <- E.
    + exists []. reflexivity.
Qed.

Lemma length_pop_down_to (K : Z) (q : PriorityQueue F) :
  (0 <= K < 2 ^ 64)%Z ->
  length (pop_down_to K q) = Nat.min (Z.to_nat K) (length q).
Proof.
  intros HK. induction q as [|x q IH].
  - simpl. now rewrite Nat.min_0_r.
  - cbn [pop_down_to]. rewrite size_t_of_int_small by assumption.
    unfold PQ.size.
    match goal with |- context [if ?c then _ else _] => destruct c eqn:E end.
    + apply Z.ltb_lt in E. rewrite IH.
      unfold PQ.dist_node_t, PriorityQueue, dist_node_t in *.
      simpl length in *. lia.
    + apply Z.ltb_ge in E.
      unfold PQ.dist_node_t, PriorityQueue, dist_node_t in *.
      simpl length in *. lia.
Qed.

Lemma sort_insert_perm (x : dist_label_t F) l : Permutation (sort_insert x l) (x :: l).
Proof.
  induction l as [|y l IH]; simpl; auto.
  destruct (fltb (fst x) (fst y)); auto.
  apply perm_trans with (y :: x :: l); [now apply perm_skip | apply perm_swap].
Qed.

Lemma std_sort_perm (l : list (dist_label_t F)) : Permutation (std_sort l) l.
Proof.
  unfold std_sort.
  assert (H : forall sorted : list (dist_label_t F),
             Permutation (fold_left (fun sorted x => sort_insert x sorted) l sorted)
                         (sorted ++ l)).
  { induction l as [|x l IH]; intros sorted; simpl.
    - now rewrite app_nil_r.
    - eapply perm_trans; [apply IH|].
      eapply perm_trans; [apply Permutation_app_tail, sort_insert_perm|].
      simpl. apply Permutation_middle. }
  exact (H []).
Qed.

Section Ordered.
Context {FL : float_laws F}.

Lemma fltb_asym (a b : F) : fltb a b = true -> fltb b a = false.
Proof.
  intros H. destruct (fltb b a) eqn:E; auto.
  pose proof (fltb_trans _ _ _ H E) as C. rewrite fltb_irrefl in C. discriminate.
Qed.

(** "Not smaller" is transitive. *)
Lemma fltb_ge_trans (a b c : F) :
  fltb a b = false -> fltb b c = false -> fltb a c = false.
Proof.
  intros H1 H2. destruct (fltb a c) eqn:E; auto.
  destruct (fltb b a) eqn:E2.
  - rewrite (fltb_trans _ _ _ E2 E) in H2. discriminate.
  - rewrite (fltb_total _ _ H1 E2) in E. congruence.
Qed.

Lemma pair_lt_asym (a b : dist_node_t F) :
  PQ.pair_lt a b = true -> PQ.pair_lt b a = false.
Proof.
  unfold PQ.pair_lt. intros H.
  apply orb_true_iff in H. destruct H as [H|H].
  - rewrite (fltb_asym _ _ H), H. simpl. reflexivity.
  - apply andb_true_iff in H. destruct H as [H1 H2].
    apply negb_true_iff in H1. rewrite H1. simpl.
    apply Nat.ltb_lt in H2.
    replace (snd b <? snd a) with false by (symmetry; apply Nat.ltb_ge; lia).
    now rewrite andb_false_r.
Qed.

Lemma emplace_sorted x (q : PriorityQueue F) : pq_sorted q -> pq_sorted (PQ.emplace x q).
Proof.
  unfold pq_sorted. induction q as [|y q IH]; intros Hs; simpl.
  - repeat constructor.
  - destruct (PQ.pair_lt y x) eqn:E.
    + constructor; auto. constructor. now apply pair_lt_asym.
    + inversion Hs as [|? ? Hs' Hhd]; subst. constructor; auto.
      destruct q as [|z q]; simpl.
      * constructor. exact E.
      * destruct (PQ.pair_lt z x); constructor; auto.
        inversion Hhd; auto.
Qed.

Lemma pop_sorted (q : PriorityQueue F) : pq_sorted q -> pq_sorted (PQ.pop q).
Proof.
  unfold pq_sorted. destruct q; simpl; auto. intros H. now inversion H.
Qed.

Lemma beam_visit_sorted idx query buffer_size st l :
  pq_sorted (bs_neighbors st) ->
  pq_sorted (bs_neighbors (beam_visit idx query buffer_size st l)).
Proof.
  intros H. unfold beam_visit.
  destruct (ExplicitSet.mem l (bs_visited st)); auto.
  match goal with |- context [if ?c then _ else _] => destruct c end; simpl; auto.
  match goal with |- context [if ?c then _ else _] => destruct c end.
  - apply pop_sorted, emplace_sorted, H.
  - apply emplace_sorted, H.
Qed.

Lemma beam_fold_sorted idx query buffer_size links :
  forall st, pq_sorted (bs_neighbors st) ->
  pq_sorted (bs_neighbors (fold_left (beam_visit idx query buffer_size) links st)).
Proof.
  induction links as [|l links IH]; intros st H; simpl; auto.
  apply IH, beam_visit_sorted, H.
Qed.

Lemma beam_loop_sorted idx query buffer_size :
  forall fuel st st',
    pq_sorted (bs_neighbors st) ->
    beam_loop idx query buffer_size fuel st = Some st' ->
    pq_sorted (bs_neighbors st').
Proof.
  induction fuel as [|fuel IH]; intros st st' Hs E; destruct st as [v cands nb md];
    simpl in E; destruct cands as [|d rest].
  - inversion E; subst; exact Hs.
  - destruct (fltb md (fneg (fst d))); [inversion E; subst; exact Hs | discriminate].
  - inversion E; subst; exact Hs.
  - destruct (fltb md (fneg (fst d))); [inversion E; subst; exact Hs|].
    apply IH in E; auto. apply beam_fold_sorted. exact Hs.
Qed.

(** In a sorted queue no element is nearer than a later one. *)
Lemma pq_sorted_app (dropped kept : PriorityQueue F) :
  pq_sorted (dropped ++ kept) ->
  forall x y, In x kept -> In y dropped -> fltb (fst y) (fst x) = false.
Proof.
  intros Hs.
  assert (Hss : StronglySorted (fun a b : dist_node_t F => fltb (fst a) (fst b) = false)
                               (dropped ++ kept)).
  { apply Sorted_StronglySorted.
    - intros a b c. apply fltb_ge_trans.
    - unfold pq_sorted in Hs. revert Hs. generalize (dropped ++ kept).
      induction 1 as [|a l Hl IH Hhd]; constructor; auto.
      destruct Hhd as [|b l' Hab]; constructor.
      unfold PQ.pair_lt in Hab. apply orb_false_iff in Hab. apply Hab. }
  induction dropped as [|d dropped IH]; intros x y Hx Hy; [destruct Hy|].
  simpl in Hss. inversion Hss as [|? ? Hss' Hall]; subst.
  destruct Hy as [<-|Hy].
  - rewrite Forall_forall in Hall. apply Hall. apply in_or_app. auto.
  - apply IH; auto. unfold pq_sorted in *. simpl in Hs. now inversion Hs.
Qed.

Lemma sort_insert_sorted (x : dist_label_t F) l :
  Sorted (fun a b : dist_label_t F => fltb (fst b) (fst a) = false) l ->
  Sorted (fun a b : dist_label_t F => fltb (fst b) (fst a) = false) (sort_insert x l).
Proof.
  induction l as [|y l IH]; intros Hs; simpl.
  - repeat constructor.
  - destruct (fltb (fst x) (fst y)) eqn:E.
    + constructor; auto. constructor. now apply fltb_asym.
    + inversion Hs as [|? ? Hs' Hhd]; subst. constructor; auto.
      destruct l as [|z l]; simpl.
      * constructor. exact E.
      * destruct (fltb (fst x) (fst z)); constructor; auto.
        inversion Hhd; auto.
Qed.

Lemma std_sort_sorted (l : list (dist_label_t F)) :
  StronglySorted (fun a b : dist_label_t F => fltb (fst b) (fst a) = false) (std_sort l).
Proof.
  apply Sorted_StronglySorted.
  - intros a b c H1 H2. eapply fltb_ge_trans; eauto.
  - unfold std_sort.
    assert (H : forall sorted : list (dist_label_t F),
               Sorted (fun a b : dist_label_t F => fltb (fst b) (fst a) = false) sorted ->
               Sorted (fun a b : dist_label_t F => fltb (fst b) (fst a) = false)
                      (fold_left (fun sorted x => sort_insert x sorted) l sorted)).
    { induction l as [|x l IH]; intros sorted Hs; simpl; [exact Hs|].
      apply IH. now apply sort_insert_sorted. }
    apply H. constructor.
Qed.

End Ordered.

Lemma Inv_links_closed idx : Inv idx -> links_closed idx (_cur_num_nodes idx).
Proof. intros H. apply H. Qed.

(** C10: whatever the state of the index, the nodes whose labels one
    [search] reports are pairwise distinct; on a non-empty index that
    satisfies the invariant, and with [num_initializations <> 0] as the
    code asserts, the search does return, and the reported nodes are
    allocated nodes. *)
Theorem search_reports_distinct_nodes idx query (K ef_search num_initializations : Z) :
  (forall nodes idx',
      search_nodes idx query K ef_search num_initializations = Some (nodes, idx') ->
      NoDup (map snd nodes)
      /\ exists results,
           search idx query K ef_search num_initializations = Some (results, idx')
           /\ Permutation results
                (map (fun p => (fst p, getNodeLabel idx (snd p))) nodes))
  /\ (Inv idx -> 0 < _cur_num_nodes idx -> num_initializations <> 0%Z ->
      exists nodes idx',
        search_nodes idx query K ef_search num_initializations = Some (nodes, idx')
        /\ forall p, In p nodes -> snd p < _cur_num_nodes idx).
Proof.
  split.
  - intros nodes idx' E. split.
    + unfold search_nodes in E.
      destruct (initializeSearch idx query num_initializations)
        as [entry_node|]; [|discriminate].
      destruct (beamSearch idx query entry_node ef_search)
        as [[beam idx1]|] eqn:Eb; [|discriminate].
      injection E as <- _. apply beamSearch_distinct in Eb.
      destruct (pop_down_to_suffix K beam) as [dropped Ed].
      rewrite Ed, map_app in Eb. apply NoDup_app_remove_l in Eb. exact Eb.
    + unfold search. rewrite E. eexists. split; [reflexivity|].
      assert (Es : _index_memory idx' = _index_memory idx
                   /\ _node_size_bytes idx' = _node_size_bytes idx
                   /\ _data_size_bytes idx' = _data_size_bytes idx
                   /\ _M idx' = _M idx).
      { unfold search_nodes in E.
        destruct (initializeSearch idx query num_initializations)
          as [entry_node|]; [|discriminate].
        unfold beamSearch in E.
        destruct (beam_loop idx query ef_search (S (_cur_num_nodes idx))
                    (beam_init idx query entry_node));
          [|discriminate].
        injection E as _ <-. auto. }
      destruct Es as (Em & En & Ed & EM).
      unfold getNodeLabel, label_off. rewrite Em, ?En, ?Ed, ?EM. apply std_sort_perm.
  - intros HI Hne Hni.
    destruct (initializeSearch_returns idx query num_initializations Hni)
      as [entry_node Ee].
    destruct (beamSearch_spec idx query entry_node ef_search (_cur_num_nodes idx))
      as (st & E & _ & Hnd & Hlt).
    + now apply Inv_links_closed.
    + lia.
    + eapply initializeSearch_lt; eauto.
    + destruct (pop_down_to_suffix K (bs_neighbors st)) as [dropped Ed].
      exists (pop_down_to K (bs_neighbors st)). eexists.
      unfold search_nodes. rewrite Ee, E. split; [reflexivity|].
      intros p Hp. apply Hlt. rewrite Ed. apply in_or_app. auto.
Qed.

(** C8: on a non-empty index, for [K >= 0] and with
    [num_initializations <> 0] as the code asserts, the entry selection
    and the beam search return, and [search] returns at most [K] pairs,
    sorted by ascending distance; they are the labelled [kept] elements
    of the beam-search result [beam = dropped ++ kept], where [kept] has
    [min K |beam|] elements and no dropped element is nearer than a kept
    one. *)
Theorem search_returns_K_closest {FL : float_laws F} idx query
        (K ef_search num_initializations : Z) :
  Inv idx -> 0 < _cur_num_nodes idx -> (0 <= K < 2 ^ 31)%Z ->
  num_initializations <> 0%Z ->
  exists entry_node beam idx' results dropped kept,
    initializeSearch idx query num_initializations = Some entry_node
    /\ beamSearch idx query entry_node ef_search = Some (beam, idx')
    /\ search idx query K ef_search num_initializations = Some (results, idx')
    /\ (Z.of_nat (length results) <= K)%Z
    /\ StronglySorted (fun a b : dist_label_t F => fltb (fst b) (fst a) = false) results
    /\ beam = dropped ++ kept
    /\ length kept = Nat.min (Z.to_nat K) (length beam)
    /\ Permutation results (map (fun p => (fst p, getNodeLabel idx (snd p))) kept)
    /\ (forall x y, In x kept -> In y dropped -> fltb (fst y) (fst x) = false).
Proof.
  intros HI Hne HK Hni.
  destruct (initializeSearch_returns idx query num_initializations Hni)
    as [entry_node Ee].
  destruct (beamSearch_spec idx query entry_node ef_search (_cur_num_nodes idx))
    as (st & E & Eloop & _ & _).
  - now apply Inv_links_closed.
  - lia.
  - eapply initializeSearch_lt; eauto.
  - destruct (pop_down_to_suffix K (bs_neighbors st)) as [dropped Ed].
    assert (Hlen : length (pop_down_to K (bs_neighbors st))
                   = Nat.min (Z.to_nat K) (length (bs_neighbors st)))
      by (apply length_pop_down_to; lia).
    assert (Hsorted : pq_sorted (bs_neighbors st)).
    { eapply beam_loop_sorted; [|exact Eloop].
      unfold beam_init; simpl. repeat constructor. }
    exists entry_node, (bs_neighbors st). eexists. eexists. exists dropped.
    exists (pop_down_to K (bs_neighbors st)).
    unfold search, search_nodes. rewrite Ee, E.
    split; [reflexivity|].
    split; [reflexivity|]. split; [reflexivity|]. split; [|split; [|split; [|split; [|split]]]].
    + rewrite (Permutation_length (std_sort_perm _)), length_map.
      unfold PriorityQueue, dist_node_t in *. rewrite Hlen. lia.
    + apply std_sort_sorted.
    + exact Ed.
    + exact Hlen.
    + apply std_sort_perm.
    + apply pq_sorted_app. rewrite <- Ed. exact Hsorted.
Qed.

(** ** Link writes and the invariant *)

Lemma links_only_refl idx : links_only idx idx.
Proof. unfold links_only. split; [apply same_shape_refl | auto]. Qed.

Lemma links_only_trans idx1 idx2 idx3 :
  links_only idx1 idx2 -> links_only idx2 idx3 -> links_only idx1 idx3.
Proof.
  intros (S1 & V1 & P1) (S2 & V2 & P2). split; [|split].
  - eapply same_shape_trans; eauto.
  - congruence.
  - intros n. destruct (P1 n), (P2 n). split; congruence.
Qed.

Lemma links_only_setLink idx n i v :
  geometry idx -> i < _M idx -> links_only idx (setLink idx n i v).
Proof.
  intros G Hi. split; [apply same_shape_setLink | split; [reflexivity|]].
  intros n'. split; [now apply getNodeData_setLink | now apply getNodeLabel_setLink].
Qed.

Lemma links_only_geometry idx1 idx2 : links_only idx1 idx2 -> geometry idx1 -> geometry idx2.
Proof. intros [H _]. now apply same_shape_geometry. Qed.

Lemma links_only_M idx1 idx2 : links_only idx1 idx2 -> _M idx2 = _M idx1.
Proof. intros [H _]. symmetry. apply H. Qed.

Lemma links_only_max idx1 idx2 :
  links_only idx1 idx2 -> _max_node_count idx2 = _max_node_count idx1.
Proof. intros [H _]. symmetry. apply H. Qed.

Lemma links_only_cur idx1 idx2 :
  links_only idx1 idx2 -> _cur_num_nodes idx2 = _cur_num_nodes idx1.
Proof. intros [H _]. symmetry. apply H. Qed.

Lemma links_only_node_distance idx1 idx2 a b :
  links_only idx1 idx2 -> node_distance idx2 a b = node_distance idx1 a b.
Proof.
  intros (S & _ & P). unfold node_distance.
  destruct S as (_ & _ & _ & _ & _ & Ed & Epq & _).
  rewrite <- Ed, <- Epq. destruct (P a) as [-> _], (P b) as [-> _]. reflexivity.
Qed.

Lemma links_closed_setLink idx n i v B :
  geometry idx -> n < _max_node_count idx -> i < _M idx ->
  v < B -> (Z.of_nat B <= 2 ^ 32)%Z ->
  links_closed idx B -> links_closed (setLink idx n i v) B.
Proof.
  intros G Hn Hi Hv HB Hc n' i' Hn' Hi'.
  change (_M (setLink idx n i v)) with (_M idx) in Hi'.
  destruct (Nat.eq_dec n n') as [->|Hne].
  - destruct (Nat.eq_dec i i') as [->|Hne].
    + rewrite getLink_setLink_same; auto. lia.
    + rewrite getLink_setLink_other; auto. congruence.
  - rewrite getLink_setLink_other; auto. congruence.
Qed.

(** A run of link writes with admissible values keeps the links closed. *)
Lemma fold_setLink_closed (n B : nat) (val : Index F -> nat -> nat) :
  forall (l : list nat) idx,
    geometry idx -> n < _max_node_count idx -> (Z.of_nat B <= 2 ^ 32)%Z ->
    (forall m, In m l -> m < _M idx) ->
    (forall ix m, links_only idx ix -> links_closed ix B -> val ix m < B) ->
    links_closed idx B ->
    let idx' := fold_left (fun ix m => setLink ix n m (val ix m)) l idx in
    links_only idx idx' /\ links_closed idx' B.
Proof.
  induction l as [|m l IH]; intros idx G Hn HB Hl Hval Hc; simpl.
  - split; [apply links_only_refl | exact Hc].
  - assert (Hm : m < _M idx) by (apply Hl; simpl; auto).
    assert (L1 : links_only idx (setLink idx n m (val idx m)))
      by now apply links_only_setLink.
    destruct (IH (setLink idx n m (val idx m))) as [L2 C2].
    + eapply links_only_geometry; eauto.
    + exact Hn.
    + exact HB.
    + intros m' Hm'. apply Hl. simpl. auto.
    + intros ix m' Hlo Hcl. apply Hval; auto. eapply links_only_trans; eauto.
    + apply links_closed_setLink; auto. apply Hval; auto. apply links_only_refl.
    + split; [eapply links_only_trans; eauto | exact C2].
Qed.

(** The same run, slot by slot: a slot written holds the value computed
    for it when it was still untouched, the others are unchanged. *)
Lemma fold_setLink_spec (n : nat) (val : Index F -> nat -> nat) (f : nat -> nat) idx :
  geometry idx -> n < _max_node_count idx ->
  (forall m, (Z.of_nat (f m) < 2 ^ 32)%Z) ->
  (forall ix m, links_only idx ix -> m < _M idx ->
                getLink ix n m = getLink idx n m -> val ix m = f m) ->
  forall l : list nat,
    NoDup l -> (forall m, In m l -> m < _M idx) ->
    let idx' := fold_left (fun ix m => setLink ix n m (val ix m)) l idx in
    links_only idx idx'
    /\ forall n' i', i' < _M idx ->
         getLink idx' n' i' =
           if (n' =? n) && existsb (Nat.eqb i') l then f i' else getLink idx n' i'.
Proof.
  intros G Hn Hf Hval l. induction l as [|m l IH] using rev_ind; intros Hnd Hl.
  - simpl. split; [apply links_only_refl|]. intros n' i' _.
    now rewrite andb_false_r.
  - apply NoDup_remove in Hnd. rewrite app_nil_r in Hnd. destruct Hnd as [Hnd Hm].
    destruct IH as [L1 G1]; [exact Hnd | intros m' Hm'; apply Hl, in_or_app; auto |].
    assert (HmM : m < _M idx) by (apply Hl, in_or_app; simpl; auto).
    rewrite fold_left_app. simpl.
    set (ix := fold_left (fun ix m => setLink ix n m (val ix m)) l idx) in *.
    assert (Hv : val ix m = f m).
    { apply Hval; auto. rewrite G1 by assumption.
      replace (existsb (Nat.eqb m) l) with false; [now rewrite andb_false_r|].
      symmetry. apply not_true_iff_false. intros E.
      apply existsb_exists in E. destruct E as [x [Hx E]].
      apply Nat.eqb_eq in E. subst x. contradiction. }
    rewrite Hv.
    assert (Gix : geometry ix) by (eapply links_only_geometry; eauto).
    assert (Mix : _M ix = _M idx) by now apply links_only_M.
    split.
    + eapply links_only_trans; [exact L1|]. apply links_only_setLink; auto. lia.
    + intros n' i' Hi'. rewrite existsb_app. simpl. rewrite orb_false_r.
      destruct (Nat.eq_dec n n') as [<-|Hne].
      * rewrite Nat.eqb_refl. simpl.
        destruct (Nat.eq_dec m i') as [<-|Hne].
        -- rewrite Nat.eqb_refl, orb_true_r.
           apply getLink_setLink_same; auto; try lia.
           now rewrite (links_only_max _ _ L1).
        -- rewrite getLink_setLink_other; auto; try lia; [|congruence].
           rewrite G1 by assumption. rewrite Nat.eqb_refl. simpl.
           replace (i' =? m) with false by (symmetry; apply Nat.eqb_neq; lia).
           now rewrite orb_false_r.
      * rewrite getLink_setLink_other; auto; try lia; [|congruence].
        rewrite G1 by assumption.
        replace (n' =? n) with false by (symmetry; apply Nat.eqb_neq; lia).
        reflexivity.
Qed.

(** ** [allocateNode] *)

Lemma getLink_raw_write idx off bs n i :
  off + length bs <= links_off idx n + 4 * i \/ links_off idx n + 4 * i + 4 <= off ->
  getLink (set_index_memory idx (Mem.write off bs (_index_memory idx))) n i
  = getLink idx n i.
Proof.
  intros H. unfold getLink.
  rewrite memory_set_index_memory, links_off_set_index_memory.
  apply f_equal. apply read_write_other. lia.
Qed.

Lemma getNodeData_raw_write idx off bs n :
  off + length bs <= data_off idx n \/ data_off idx n + _data_size_bytes idx <= off ->
  getNodeData (set_index_memory idx (Mem.write off bs (_index_memory idx))) n
  = getNodeData idx n.
Proof.
  intros H. unfold getNodeData.
  rewrite memory_set_index_memory, data_off_set_index_memory.
  change (_data_size_bytes (set_index_memory idx _)) with (_data_size_bytes idx).
  apply read_write_other. lia.
Qed.

Lemma getNodeLabel_raw_write idx off bs n :
  off + length bs <= label_off idx n \/ label_off idx n + sizeof_label_t <= off ->
  getNodeLabel (set_index_memory idx (Mem.write off bs (_index_memory idx))) n
  = getNodeLabel idx n.
Proof.
  intros H. unfold getNodeLabel.
  rewrite memory_set_index_memory, label_off_set_index_memory.
  apply read_write_other. lia.
Qed.

Lemma geometry_raw_write idx off bs :
  geometry idx ->
  geometry (set_index_memory idx (Mem.write off bs (_index_memory idx))).
Proof.
  intros [G1 G2]. split; [exact G1|].
  rewrite memory_set_index_memory, length_write. exact G2.
Qed.

Lemma existsb_eqb_seq i a k : a <= i < a + k -> existsb (Nat.eqb i) (seq a k) = true.
Proof.
  intros H. apply existsb_exists. exists i. split; [apply in_seq; lia | apply Nat.eqb_refl].
Qed.

Lemma node_id_of_size_t_small n : (Z.of_nat n < 2 ^ 32)%Z -> node_id_of_size_t n = n.
Proof.
  intros H. unfold node_id_of_size_t. rewrite Z.mod_small by lia. apply Nat2Z.id.
Qed.

(** On an index that is not full, [allocateNode] takes the id
    [_cur_num_nodes], writes the label and [_M] self-loops into that
    record, and leaves every allocated node as it was. *)
Lemma allocateNode_spec idx data label :
  Inv idx -> _cur_num_nodes idx < _max_node_count idx ->
  exists idx',
    allocateNode idx data label = Some (_cur_num_nodes idx, idx')
    /\ _cur_num_nodes idx' = S (_cur_num_nodes idx)
    /\ same_shape (set_cur_num_nodes idx (S (_cur_num_nodes idx))) idx'
    /\ _visited_nodes idx' = _visited_nodes idx
    /\ geometry idx'
    /\ (forall n i, n < _cur_num_nodes idx -> i < _M idx ->
          getLink idx' n i = getLink idx n i)
    /\ (forall i, i < _M idx -> getLink idx' (_cur_num_nodes idx) i = _cur_num_nodes idx)
    /\ (forall n, n < _cur_num_nodes idx ->
          getNodeData idx' n = getNodeData idx n
          /\ getNodeLabel idx' n = getNodeLabel idx n)
    /\ (length label = sizeof_label_t ->
          getNodeLabel idx' (_cur_num_nodes idx) = label).
Proof.
  intros (G & Hcur & Hmax & HM & Hds & Hcl) Hfull.
  pose proof G as [G1 G2].
  unfold allocateNode.
  replace (_max_node_count idx <=? _cur_num_nodes idx) with false
    by (symmetry; apply Nat.leb_gt; exact Hfull).
  rewrite node_id_of_size_t_small by lia.
  set (cur := _cur_num_nodes idx) in *.
  set (stored := match _product_quantizer idx with
                 | Some q => firstn (_data_size_bytes idx) (computePQCode q data)
                 | None => firstn (dataSize (_distance idx))
                                  (transformData (_distance idx) data)
                 end).
  assert (Hstored : length stored <= _data_size_bytes idx).
  { unfold stored. destruct (_product_quantizer idx).
    - apply firstn_le_length.
    - etransitivity; [apply firstn_le_length | exact Hds]. }
  set (idx1 := set_index_memory idx
                 (Mem.write (data_off idx cur) stored (_index_memory idx))).
  set (lbl := firstn sizeof_label_t label).
  assert (Hlbl : length lbl <= sizeof_label_t) by apply firstn_le_length.
  set (idx2 := set_index_memory idx1
                 (Mem.write (label_off idx1 cur) lbl (_index_memory idx1))).
  assert (Gi1 : geometry idx1) by now apply geometry_raw_write.
  assert (Gi2 : geometry idx2) by now apply geometry_raw_write.
  assert (Hstep : forall n, n < cur ->
            n * _node_size_bytes idx + _node_size_bytes idx
            <= cur * _node_size_bytes idx)
    by (intros n Hn; now apply mul_step).
  pose proof (mul_step _ _ (_node_size_bytes idx) Hfull) as Hend.
  destruct (fold_setLink_spec cur (fun _ _ => cur) (fun _ => cur) idx2)
    with (l := seq 0 (_M idx2)) as [L3 G3]; auto.
  { lia. }
  { apply seq_NoDup. }
  { intros m Hm. apply in_seq in Hm. lia. }
  set (idx3 := fold_left (fun ix i => setLink ix cur i cur) (seq 0 (_M idx2)) idx2) in *.
  cbv beta in *.
  exists (set_cur_num_nodes idx3 (S cur)).
  split; [reflexivity|]. split; [reflexivity|].
  destruct L3 as (S3 & V3 & P3).
  split; [|split; [|split; [|split; [|split; [|split]]]]].
  - destruct S3 as (E1 & E2 & E3 & E4 & E5 & E6 & E7 & E8).
    unfold same_shape. simpl in *.
    repeat split; auto. rewrite <- E8, !length_write. reflexivity.
  - simpl. now rewrite <- V3.
  - change (geometry idx3). now apply (same_shape_geometry idx2).
  - intros n i Hn Hi.
    change (getLink (set_cur_num_nodes idx3 (S cur)) n i) with (getLink idx3 n i).
    rewrite G3 by exact Hi.
    replace (n =? cur) with false by (symmetry; apply Nat.eqb_neq; lia).
    simpl. unfold idx2. rewrite getLink_raw_write.
    + unfold idx1. apply getLink_raw_write.
      right. unfold links_off, data_off. specialize (Hstep n Hn). lia.
    + right. unfold links_off, label_off, idx1; simpl.
      specialize (Hstep n Hn). lia.
  - intros i Hi.
    change (getLink (set_cur_num_nodes idx3 (S cur)) cur i) with (getLink idx3 cur i).
    rewrite G3 by exact Hi. rewrite Nat.eqb_refl. simpl.
    rewrite existsb_eqb_seq; [reflexivity|]. simpl. exact (conj (Nat.le_0_l i) Hi).
  - intros n Hn. specialize (Hstep n Hn).
    change (getNodeData (set_cur_num_nodes idx3 (S cur)) n) with (getNodeData idx3 n).
    change (getNodeLabel (set_cur_num_nodes idx3 (S cur)) n) with (getNodeLabel idx3 n).
    destruct (P3 n) as [-> ->]. unfold idx2.
    rewrite getNodeData_raw_write, getNodeLabel_raw_write.
    + unfold idx1. rewrite getNodeData_raw_write, getNodeLabel_raw_write.
      * auto.
      * right. unfold label_off, data_off. lia.
      * right. unfold data_off. lia.
    + right. unfold label_off, idx1; simpl. lia.
    + right. unfold label_off, data_off, idx1; simpl. lia.
  - intros Hlen.
    change (getNodeLabel (set_cur_num_nodes idx3 (S cur)) cur) with (getNodeLabel idx3 cur).
    destruct (P3 cur) as [_ ->]. unfold getNodeLabel, idx2.
    rewrite memory_set_index_memory, label_off_set_index_memory.
    assert (El : lbl = label) by (unfold lbl; apply firstn_all2; lia).
    pose proof (read_write_same (label_off idx1 cur) label (_index_memory idx1)) as R.
    rewrite Hlen in R. rewrite El. apply R.
    unfold idx1. rewrite memory_set_index_memory, length_write, G2.
    unfold label_off; simpl. lia.
Qed.

(** ** [selectNeighbors] and [connectNeighbors] keep the links closed *)

Lemma int_of_size_t_small (z : Z) : (0 <= z < 2 ^ 31)%Z -> int_of_size_t z = z.
Proof.
  intros H. unfold int_of_size_t. rewrite Z.mod_small by lia. lia.
Qed.

Lemma selectNeighbors_ids idx (neighbors : PriorityQueue F) (M : Z) c :
  In c (selectNeighbors idx neighbors M) ->
  exists c', In c' neighbors /\ snd c' = snd c.
Proof.
  unfold selectNeighbors.
  destruct (Z.of_nat (PQ.size neighbors) <? size_t_of_int M)%Z.
  - intros H. exists c. auto.
  - intros H. apply in_negate_all in H. destruct H as [y [Hy ->]].
    destruct (select_loop_spec idx M (negate_all neighbors) [])
      as ((more & Er & Hinc) & _ & _).
    simpl in Er. rewrite Er in Hy. apply Hinc, in_negate_all in Hy.
    destruct Hy as [z [Hz ->]]. exists z. auto.
Qed.

Lemma selectNeighbors_size idx (neighbors : PriorityQueue F) (M : nat) :
  (Z.of_nat M < 2 ^ 31)%Z ->
  PQ.size (selectNeighbors idx neighbors (int_of_size_t (Z.of_nat M))) <= M.
Proof.
  intros HM. rewrite int_of_size_t_small by lia. unfold selectNeighbors.
  rewrite size_t_of_int_small by lia.
  destruct (Z.of_nat (PQ.size neighbors) <? Z.of_nat M)%Z eqn:E.
  - apply Z.ltb_lt in E. lia.
  - rewrite size_negate_all.
    destruct (select_loop_spec idx (Z.of_nat M) (negate_all neighbors) [])
      as (_ & Hlen & _).
    rewrite size_t_of_int_small in Hlen by lia. simpl in Hlen. lia.
Qed.

Lemma backlink_candidates_ids idx neighbor_node_id new_node_id c :
  In c (backlink_candidates idx neighbor_node_id new_node_id) ->
  snd c = new_node_id
  \/ exists j, j < _M idx /\ snd c = getLink idx neighbor_node_id j.
Proof.
  unfold backlink_candidates.
  assert (H : forall (l : list nat) (acc : PriorityQueue F),
             (forall j, In j l -> j < _M idx) ->
             In c (fold_left
                     (fun acc j =>
                        let l := getLink idx neighbor_node_id j in
                        if l =? neighbor_node_id then acc
                        else PQ.emplace (node_distance idx neighbor_node_id l, l) acc)
                     l acc) ->
             In c acc \/ exists j, j < _M idx /\ snd c = getLink idx neighbor_node_id j).
  { induction l as [|j l IH]; intros acc Hl Hin; simpl in Hin; auto.
    apply IH in Hin; [|intros j' Hj'; apply Hl; simpl; auto].
    destruct Hin as [Hin|Hin]; auto.
    destruct (getLink idx neighbor_node_id j =? neighbor_node_id); auto.
    apply in_emplace in Hin. destruct Hin as [->|Hin]; auto.
    right. exists j. split; [apply Hl; simpl; auto | reflexivity]. }
  intros Hin. apply H in Hin.
  - destruct Hin as [[<-|[]]|Hin]; auto.
  - intros j Hj. apply in_seq in Hj. lia.
Qed.

Lemma write_links_spec (n B : nat) :
  forall (cands : PriorityQueue F) idx j,
    geometry idx -> n < _max_node_count idx -> (Z.of_nat B <= 2 ^ 32)%Z ->
    links_closed idx B ->
    (forall c, In c cands -> snd c < B) ->
    j + length cands <= _M idx ->
    links_only idx (fst (write_links idx n cands j))
    /\ links_closed (fst (write_links idx n cands j)) B
    /\ snd (write_links idx n cands j) = j + length cands.
Proof.
  induction cands as [|c cands IH]; intros idx j G Hn HB Hc Hb Hj; simpl.
  - split; [apply links_only_refl | split; [exact Hc | lia]].
  - simpl in Hj.
    assert (L1 : links_only idx (setLink idx n j (snd c)))
      by (apply links_only_setLink; auto; lia).
    destruct (IH (setLink idx n j (snd c)) (S j)) as (L2 & C2 & E2).
    + eapply links_only_geometry; eauto.
    + exact Hn.
    + exact HB.
    + apply links_closed_setLink; auto; try lia. apply Hb. simpl. auto.
    + intros c' Hc'. apply Hb. simpl. auto.
    + change (_M (setLink idx n j (snd c))) with (_M idx). lia.
    + split; [eapply links_only_trans; eauto | split; [exact C2 | lia]].
Qed.

Lemma pad_self_loops_spec idx (n j B : nat) :
  geometry idx -> n < _max_node_count idx -> (Z.of_nat B <= 2 ^ 32)%Z ->
  n < B -> links_closed idx B ->
  links_only idx (pad_self_loops idx n j) /\ links_closed (pad_self_loops idx n j) B.
Proof.
  intros G Hn HB HnB Hc. unfold pad_self_loops.
  apply (fold_setLink_closed n B (fun _ _ => n)); auto.
  intros m Hm. apply in_seq in Hm. lia.
Qed.

Lemma reprune_spec idx (neighbor_node_id new_node_id B : nat) :
  geometry idx -> neighbor_node_id < _max_node_count idx ->
  (Z.of_nat B <= 2 ^ 32)%Z -> (Z.of_nat (_M idx) < 2 ^ 31)%Z ->
  neighbor_node_id < B -> new_node_id < B -> links_closed idx B ->
  links_only idx (reprune idx neighbor_node_id new_node_id)
  /\ links_closed (reprune idx neighbor_node_id new_node_id) B.
Proof.
  intros G Hn HB HM HnB Hnew Hc. unfold reprune.
  set (cands := selectNeighbors idx
                  (backlink_candidates idx neighbor_node_id new_node_id)
                  (int_of_size_t (Z.of_nat (_M idx)))).
  destruct (write_links_spec neighbor_node_id B cands idx 0) as (L1 & C1 & E1); auto.
  - intros c Hin. apply selectNeighbors_ids in Hin. destruct Hin as [c' [Hin <-]].
    apply backlink_candidates_ids in Hin. destruct Hin as [->|[j [Hj ->]]]; auto.
  - simpl. now apply selectNeighbors_size.
  - destruct (write_links idx neighbor_node_id cands 0) as [idx1 j]. simpl in *.
    destruct (pad_self_loops_spec idx1 neighbor_node_id j B) as [L2 C2]; auto.
    + eapply links_only_geometry; eauto.
    + now rewrite (links_only_max _ _ L1).
    + split; [eapply links_only_trans; eauto | exact C2].
Qed.

Lemma find_self_loop_lt idx n j : find_self_loop idx n = Some j -> j < _M idx.
Proof.
  unfold find_self_loop. intros H. apply find_some in H.
  destruct H as [H _]. apply in_seq in H. lia.
Qed.

Lemma connectNeighbors_loop_spec (new_node_id B : nat) :
  forall (neighbors : PriorityQueue F) idx i,
    geometry idx -> B <= _max_node_count idx ->
    (Z.of_nat B <= 2 ^ 32)%Z -> (Z.of_nat (_M idx) < 2 ^ 31)%Z ->
    new_node_id < B -> links_closed idx B ->
    (forall c, In c neighbors -> snd c < B) ->
    i + length neighbors <= _M idx ->
    links_only idx (connectNeighbors_loop idx neighbors new_node_id i)
    /\ links_closed (connectNeighbors_loop idx neighbors new_node_id i) B.
Proof.
  induction neighbors as [|top rest IH]; intros idx i G HBm HB HM Hnew Hc Hb Hi.
  - simpl. split; [apply links_only_refl | exact Hc].
  - cbn [connectNeighbors_loop]. simpl in Hi.
    assert (Htop : snd top < B) by (apply Hb; simpl; auto).
    set (idx1 := setLink idx new_node_id i (snd top)).
    assert (L1 : links_only idx idx1) by (apply links_only_setLink; auto; lia).
    assert (G1 : geometry idx1) by (eapply links_only_geometry; eauto).
    assert (C1 : links_closed idx1 B)
      by (apply links_closed_setLink; auto; lia).
    set (idx2 := match find_self_loop idx1 (snd top) with
                 | Some j => setLink idx1 (snd top) j new_node_id
                 | None => reprune idx1 (snd top) new_node_id
                 end).
    assert (H2 : links_only idx1 idx2 /\ links_closed idx2 B).
    { unfold idx2. destruct (find_self_loop idx1 (snd top)) as [j|] eqn:Ef.
      - apply find_self_loop_lt in Ef. split.
        + apply links_only_setLink; auto.
        + apply links_closed_setLink; auto. change (_max_node_count idx1)
            with (_max_node_count idx). lia.
      - apply reprune_spec; auto.
        change (_max_node_count idx1) with (_max_node_count idx). lia. }
    destruct H2 as [L2 C2].
    assert (L02 : links_only idx idx2) by (eapply links_only_trans; eauto).
    destruct (IH idx2 (if _M idx <=? S i then _M idx else S i)) as [L3 C3]; auto.
    + eapply links_only_geometry; eauto.
    + now rewrite (links_only_max _ _ L02).
    + now rewrite (links_only_M _ _ L02).
    + intros c Hin. apply Hb. simpl. auto.
    + rewrite (links_only_M _ _ L02).
      destruct (_M idx <=? S i) eqn:E; [apply Nat.leb_le in E | apply Nat.leb_gt in E]; lia.
    + split; [eapply links_only_trans; eauto | exact C3].
Qed.

(** ** [add] and the constructor establish and keep the invariant *)

Lemma Inv_intro idx idx' (c : nat) :
  Inv idx -> same_shape (set_cur_num_nodes idx c) idx' ->
  c <= _max_node_count idx -> links_closed idx' c -> Inv idx'.
Proof.
  intros (G & Hcur & Hmax & HM & Hds & Hcl) S Hc Hl.
  pose proof S as (E1 & E2 & E3 & E4 & E5 & E6 & E7 & E8). simpl in *.
  unfold Inv. rewrite <- E1, <- E2, <- E4, <- E5, <- E6, <- E7.
  destruct G as [Ga Gb].
  split; [split; congruence|].
  repeat split; auto.
Qed.

Lemma mkIndex_Inv dist dataset_size max_edges pq garbage garbage_query idx :
  (0 <= dataset_size < 2 ^ 31)%Z -> (0 <= max_edges < 2 ^ 31)%Z ->
  mkIndex dist dataset_size max_edges pq garbage garbage_query = Some idx ->
  Inv idx /\ _cur_num_nodes idx = 0.
Proof.
  intros Hd Hm. unfold mkIndex.
  destruct (match pq with Some q => negb (isTrained q) | None => false end);
    [discriminate|].
  intros E. inversion E; subst; clear E.
  rewrite !size_t_of_int_small by lia.
  split; [|reflexivity]. unfold Inv, geometry; simpl.
  rewrite length_read, !Z2Nat.id by lia.
  repeat split; try lia.
  - destruct pq; auto.
  - intros n i Hn. lia.
Qed.

Lemma Inv_set_visited idx v : Inv idx -> Inv (set_visited_nodes idx v).
Proof. intros H. exact H. Qed.

Lemma add_returns_nonzero idx data label (ef_construction num_initializations : Z)
      r idx' :
  add idx data label ef_construction num_initializations = Some (r, idx') ->
  num_initializations <> 0%Z.
Proof.
  unfold add. intros E Hz.
  apply (initializeSearch_aborts idx data) in Hz. rewrite Hz in E. discriminate.
Qed.

(** What [add] does on every state satisfying the invariant, past the
    assertion of [initializeSearch]: on a full index it answers [false]
    and changes nothing; otherwise it appends one node (with the given
    label, leaving the stored vectors and labels of the others alone) and
    answers [true] exactly when the index was not empty. *)
Lemma add_spec idx data label (ef_construction num_initializations : Z) :
  Inv idx -> num_initializations <> 0%Z ->
  (_max_node_count idx <= _cur_num_nodes idx ->
   add idx data label ef_construction num_initializations = Some (false, idx))
  /\ (_cur_num_nodes idx < _max_node_count idx ->
      exists idx',
        add idx data label ef_construction num_initializations
          = Some (0 <? _cur_num_nodes idx, idx')
        /\ _cur_num_nodes idx' = S (_cur_num_nodes idx)
        /\ Inv idx'
        /\ (forall n, n < _cur_num_nodes idx ->
              getNodeData idx' n = getNodeData idx n
              /\ getNodeLabel idx' n = getNodeLabel idx n)
        /\ (length label = sizeof_label_t ->
              getNodeLabel idx' (_cur_num_nodes idx) = label)).
Proof.
  intros HI Hni.
  destruct (initializeSearch_returns idx data num_initializations Hni)
    as [entry_node Ee].
  split.
  - intros Hfull. unfold add, allocateNode. rewrite Ee.
    replace (_max_node_count idx <=? _cur_num_nodes idx) with true
      by (symmetry; apply Nat.leb_le; exact Hfull).
    reflexivity.
  - intros Hfree.
    destruct (allocateNode_spec idx data label HI Hfree)
      as (idx1 & Ea & Ecur & S1 & V1 & G1 & Lold & Lnew & Pold & Pnew).
    pose proof HI as (G & Hcur & Hmax & HM & Hds & Hcl).
    pose proof S1 as (E1 & E2 & E3 & E4 & E5 & E6 & E7 & E8). simpl in *.
    set (cur := _cur_num_nodes idx) in *.
    assert (Cold : links_closed idx1 cur).
    { intros n i Hn Hi. rewrite <- E1 in Hi. rewrite Lold by assumption. now apply Hcl. }
    assert (Cnew : links_closed idx1 (S cur)).
    { intros n i Hn Hi. rewrite <- E1 in Hi.
      destruct (Nat.eq_dec n cur) as [->|Hne].
      - rewrite Lnew by assumption. lia.
      - rewrite Lold by (assumption || lia).
        assert (getLink idx n i < cur) by (apply Hcl; auto; lia). lia. }
    unfold add. rewrite Ee, Ea.
    destruct (0 <? cur) eqn:Epos.
    + apply Nat.ltb_lt in Epos.
      destruct (beamSearch_spec idx1 data entry_node ef_construction cur)
        as (st & Eb & _ & _ & Hlt); auto.
      { lia. }
      { eapply initializeSearch_lt; eauto. }
      rewrite Eb.
      set (idx2 := set_visited_nodes idx1 (bs_visited st)).
      set (nb := selectNeighbors idx2 (bs_neighbors st)
                   (int_of_size_t (Z.of_nat (_M idx2)))).
      destruct (connectNeighbors_loop_spec cur (S cur) nb idx2 0) as [L3 C3]; auto.
      * change (_max_node_count idx2) with (_max_node_count idx1).
        rewrite <- E4. lia.
      * lia.
      * change (_M idx2) with (_M idx1). now rewrite <- E1.
      * intros c Hin. apply selectNeighbors_ids in Hin.
        destruct Hin as [c' [Hin <-]]. specialize (Hlt _ Hin). lia.
      * simpl. apply selectNeighbors_size.
        change (_M idx2) with (_M idx1). now rewrite <- E1.
      * fold (connectNeighbors idx2 nb cur) in L3, C3.
        exists (connectNeighbors idx2 nb cur).
        destruct L3 as (S3 & V3 & P3).
        assert (S13 : same_shape idx1 (connectNeighbors idx2 nb cur))
          by (eapply same_shape_trans; [apply (same_shape_set_visited idx1)|exact S3]).
        split; [reflexivity|]. split; [|split; [|split]].
        -- rewrite <- Ecur. symmetry. apply S13.
        -- apply (Inv_intro idx _ (S cur)); auto; try (fold cur; lia).
           eapply same_shape_trans; eauto.
        -- intros n Hn. destruct (P3 n) as [-> ->]. now apply Pold.
        -- intros Hlen. destruct (P3 cur) as [_ ->]. now apply Pnew.
    + exists idx1. split; [reflexivity|]. split; [exact Ecur|]. split; [|split].
      * apply (Inv_intro idx _ (S cur)); auto; try (fold cur; lia).
      * exact Pold.
      * exact Pnew.
Qed.

Lemma add_Inv idx data label (ef_construction num_initializations : Z) r idx' :
  Inv idx ->
  add idx data label ef_construction num_initializations = Some (r, idx') ->
  Inv idx'.
Proof.
  intros HI E.
  destruct (add_spec idx data label ef_construction num_initializations HI
                     (add_returns_nonzero _ _ _ _ _ _ _ E))
    as [Hfull Hfree].
  destruct (Nat.le_gt_cases (_max_node_count idx) (_cur_num_nodes idx)) as [H|H].
  - rewrite (Hfull H) in E. inversion E; subst. exact HI.
  - destruct (Hfree H) as (idx1 & E1 & _ & HI1 & _). rewrite E1 in E.
    inversion E; subst. exact HI1.
Qed.

Lemma search_Inv idx query (K ef_search num_initializations : Z) results idx' :
  Inv idx ->
  search idx query K ef_search num_initializations = Some (results, idx') ->
  Inv idx'.
Proof.
  intros HI. unfold search, search_nodes.
  destruct (initializeSearch idx query num_initializations); [|discriminate].
  unfold beamSearch.
  destruct (beam_loop idx query ef_search (S (_cur_num_nodes idx)) _); [|discriminate].
  intros E. inversion E; subst. now apply Inv_set_visited.
Qed.

(** ** [swapNodes] exchanges two records *)

Lemma read_write_same_len off len bs m :
  length bs = len -> off + len <= length m ->
  Mem.read off len (Mem.write off bs m) = bs.
Proof. intros <- H. now apply read_write_same. Qed.

Lemma write_read_id off len m :
  off + len <= length m -> Mem.write off (Mem.read off len m) m = m.
Proof.
  intros H. apply (nth_ext _ _ Byte.x00 Byte.x00).
  - apply length_write.
  - intros i Hi. rewrite length_write in Hi. rewrite nth_write, length_read.
    destruct ((off <=? i) && (i <? off + len) && (i <? length m)) eqn:E; auto.
    apply andb_true_iff in E. destruct E as [E _].
    apply andb_true_iff in E. destruct E as [E1 E2].
    apply Nat.leb_le in E1. apply Nat.ltb_lt in E2.
    rewrite nth_read by lia. f_equal. lia.
Qed.

Lemma read_read off len o l m :
  o + l <= len -> Mem.read o l (Mem.read off len m) = Mem.read (off + o) l m.
Proof.
  intros H. apply (nth_ext _ _ Byte.x00 Byte.x00).
  - now rewrite !length_read.
  - intros i Hi. rewrite length_read in Hi.
    rewrite !nth_read by lia. f_equal. lia.
Qed.

Lemma getLink_of_bytes idx n i :
  i < _M idx ->
  getLink idx n i = decode_node_id (Mem.read (4 * i) 4 (getLinkBytes idx n)).
Proof.
  intros Hi. unfold getLink, getLinkBytes. rewrite read_read by lia. reflexivity.
Qed.

Lemma swapNodes_same idx a :
  geometry idx -> a < _max_node_count idx -> swapNodes idx a a = set_index_memory idx (_index_memory idx).
Proof.
  intros [G1 G2] Ha. unfold swapNodes.
  pose proof (mul_step _ _ (_node_size_bytes idx) Ha) as Hend.
  assert (E1 : Mem.write (data_off idx a)
                 (Mem.read (data_off idx a) (_data_size_bytes idx) (_index_memory idx))
                 (_index_memory idx) = _index_memory idx).
  { apply write_read_id. rewrite G2. unfold data_off. lia. }
  rewrite !E1.
  assert (E2 : Mem.write (links_off idx a)
                 (Mem.read (links_off idx a) (_M idx * 4) (_index_memory idx))
                 (_index_memory idx) = _index_memory idx).
  { apply write_read_id. rewrite G2. unfold links_off. lia. }
  rewrite !E2.
  assert (E3 : Mem.write (label_off idx a)
                 (Mem.read (label_off idx a) sizeof_label_t (_index_memory idx))
                 (_index_memory idx) = _index_memory idx).
  { apply write_read_id. rewrite G2. unfold label_off. lia. }
  rewrite !E3, !E1, !E2, !E3. reflexivity.
Qed.

Ltac frame_side :=
  rewrite ?length_read, ?length_write; lia.

Ltac frame_other := rewrite read_write_other by frame_side.
Ltac frame_same := rewrite read_write_same_len by frame_side.

Lemma swapNodes_spec idx a b :
  geometry idx -> a < _max_node_count idx -> b < _max_node_count idx ->
  same_shape idx (swapNodes idx a b)
  /\ _visited_nodes (swapNodes idx a b) = _visited_nodes idx
  /\ forall n, node_view (swapNodes idx a b) n = node_view idx (transp a b n).
Proof.
  intros G Ha Hb. pose proof G as [G1 G2].
  split; [|split].
  - unfold same_shape, swapNodes. simpl. rewrite !length_write. repeat split.
  - reflexivity.
  - intros n. destruct (Nat.eq_dec a b) as [<-|Hab].
    + rewrite swapNodes_same by assumption. unfold transp.
      destruct (n =? a) eqn:E; [apply Nat.eqb_eq in E; subst|]; reflexivity.
    + pose proof (mul_step _ _ (_node_size_bytes idx) Ha) as Ea.
      pose proof (mul_step _ _ (_node_size_bytes idx) Hb) as Eb.
      assert (Dab : a * _node_size_bytes idx + _node_size_bytes idx
                    <= b * _node_size_bytes idx
                    \/ b * _node_size_bytes idx + _node_size_bytes idx
                       <= a * _node_size_bytes idx).
      { destruct (Nat.lt_trichotomy a b) as [H|[H|H]]; [left|contradiction|right];
          now apply mul_step. }
      assert (Dn : forall c, n <> c ->
                     n * _node_size_bytes idx + _node_size_bytes idx
                     <= c * _node_size_bytes idx
                     \/ c * _node_size_bytes idx + _node_size_bytes idx
                        <= n * _node_size_bytes idx).
      { intros c Hc. destruct (Nat.lt_trichotomy n c) as [H|[H|H]];
          [left|contradiction|right]; now apply mul_step. }
      unfold node_view, getNodeData, getLinkBytes, getNodeLabel, swapNodes, transp.
      rewrite memory_set_index_memory.
      cbn [_data_size_bytes _M set_index_memory].
      rewrite !data_off_set_index_memory, !links_off_set_index_memory,
        !label_off_set_index_memory.
      unfold data_off, links_off, label_off in *.
      destruct (n =? a) eqn:Ena; [apply Nat.eqb_eq in Ena; subst n|apply Nat.eqb_neq in Ena].
      * f_equal; [f_equal|].
        -- do 2 frame_other. frame_same. reflexivity.
        -- frame_other. frame_same. reflexivity.
        -- frame_same. reflexivity.
      * destruct (n =? b) eqn:Enb;
          [apply Nat.eqb_eq in Enb; subst n|apply Nat.eqb_neq in Enb].
        -- f_equal; [f_equal|].
           ++ do 5 frame_other. frame_same. reflexivity.
           ++ do 4 frame_other. frame_same. frame_other. reflexivity.
           ++ do 3 frame_other. frame_same. do 2 frame_other. reflexivity.
        -- pose proof (Dn a Ena) as Dna. pose proof (Dn b Enb) as Dnb.
           f_equal; [f_equal|]; do 6 frame_other; reflexivity.
Qed.

(** ** Permutations given as vectors *)

Lemma vec_at_lt P N x : is_permutation P N -> x < N -> vec_at P x < N.
Proof.
  intros (Hlen & _ & Hb) Hx. apply Hb. unfold vec_at. apply nth_In. lia.
Qed.

Lemma vec_at_inj P N x y :
  is_permutation P N -> x < N -> y < N -> vec_at P x = vec_at P y -> x = y.
Proof.
  intros (Hlen & Hnd & _) Hx Hy E. unfold vec_at in E.
  apply (proj1 (NoDup_nth P 0) Hnd); [lia | lia | exact E].
Qed.

Lemma vec_at_bound P N x :
  is_permutation P N -> (Z.of_nat N < 2 ^ 32)%Z -> (Z.of_nat (vec_at P x) < 2 ^ 32)%Z.
Proof.
  intros HP HN. destruct (Nat.lt_ge_cases x N) as [H|H].
  - pose proof (vec_at_lt P N x HP H). lia.
  - unfold vec_at. rewrite nth_overflow; [lia|]. destruct HP as [-> _]. exact H.
Qed.

(** ** [relabel], step 1: every link slot [l] of an allocated node becomes [P[l]] *)

Lemma rewire_node_spec P idx n :
  geometry idx -> n < _max_node_count idx ->
  (forall x, (Z.of_nat (vec_at P x) < 2 ^ 32)%Z) ->
  links_only idx (rewire_node P idx n)
  /\ forall n' i', i' < _M idx ->
       getLink (rewire_node P idx n) n' i' =
         if n' =? n then vec_at P (getLink idx n i') else getLink idx n' i'.
Proof.
  intros G Hn HP. unfold rewire_node.
  destruct (fold_setLink_spec n (fun ix m => vec_at P (getLink ix n m))
              (fun m => vec_at P (getLink idx n m)) idx G Hn)
    with (l := seq 0 (_M idx)) as [L H];
    try (intros ix m _ _ E; now rewrite E); auto.
  - apply seq_NoDup.
  - intros m Hm. apply in_seq in Hm. lia.
  - split; [exact L|]. intros n' i' Hi'. cbv beta in H. rewrite H by assumption.
    rewrite existsb_eqb_seq by lia. now rewrite andb_true_r.
Qed.

Lemma rewire_spec P idx :
  geometry idx -> _cur_num_nodes idx <= _max_node_count idx ->
  (forall x, (Z.of_nat (vec_at P x) < 2 ^ 32)%Z) ->
  links_only idx (rewire idx P)
  /\ forall n i, i < _M idx ->
       getLink (rewire idx P) n i =
         if n <? _cur_num_nodes idx then vec_at P (getLink idx n i) else getLink idx n i.
Proof.
  intros G Hcur HP. unfold rewire.
  generalize (_cur_num_nodes idx) Hcur. intros k. induction k as [|k IH]; intros Hk.
  - simpl. split; [apply links_only_refl | reflexivity].
  - destruct IH as [L H]; [lia|].
    rewrite seq_S, fold_left_app. simpl.
    set (ix := fold_left (rewire_node P) (seq 0 k) idx) in *.
    destruct (rewire_node_spec P ix k) as [L' H']; auto.
    + eapply links_only_geometry; eauto.
    + rewrite (links_only_max _ _ L). lia.
    + split; [eapply links_only_trans; eauto|].
      intros n i Hi. rewrite H' by (rewrite (links_only_M _ _ L); exact Hi).
      rewrite !H by assumption.
      destruct (Nat.eq_dec n k) as [->|Hne].
      * rewrite Nat.eqb_refl, Nat.ltb_irrefl.
        replace (k <? S k) with true by (symmetry; apply Nat.ltb_lt; lia). reflexivity.
      * replace (n =? k) with false by (symmetry; apply Nat.eqb_neq; exact Hne).
        destruct (n <? k) eqn:E1; [apply Nat.ltb_lt in E1 | apply Nat.ltb_ge in E1].
        -- replace (n <? S k) with true by (symmetry; apply Nat.ltb_lt; lia). reflexivity.
        -- replace (n <? S k) with false by (symmetry; apply Nat.ltb_ge; lia). reflexivity.
Qed.

(** ** [relabel], step 2: cycle following *)

Lemma transp_l a b : transp a b a = b.
Proof. unfold transp. now rewrite Nat.eqb_refl. Qed.

Lemma transp_r a b : transp a b b = a.
Proof.
  unfold transp. destruct (b =? a) eqn:E; [now apply Nat.eqb_eq in E|].
  now rewrite Nat.eqb_refl.
Qed.

Lemma transp_other a b n : n <> a -> n <> b -> transp a b n = n.
Proof.
  intros Ha Hb. unfold transp.
  replace (n =? a) with false by (symmetry; now apply Nat.eqb_neq).
  replace (n =? b) with false by (symmetry; now apply Nat.eqb_neq). reflexivity.
Qed.

Lemma NoDup_app_disj (l1 l2 : list nat) x :
  NoDup (l1 ++ l2) -> In x l1 -> In x l2 -> False.
Proof.
  induction l1 as [|a l1 IH]; simpl; intros Hnd H1 H2; [contradiction|].
  inversion Hnd as [|? ? Hna Hnd']; subst. destruct H1 as [->|H1].
  - apply Hna. apply in_or_app. auto.
  - now apply IH.
Qed.

Section Relocate.
Variables (P : list nat) (N : nat) (idx_s : Index F) (marks0 : list nat) (n : nat).
Hypothesis HP : is_permutation P N.
Hypothesis HG : geometry idx_s.
Hypothesis HN : N <= _max_node_count idx_s.
Hypothesis Hn : n < N.
Hypothesis Hm0 : forall x, In x marks0 -> x < N.
Hypothesis Hclosed0 :
  forall v, v < N -> (In v marks0 <-> In (vec_at P v) marks0).

(** Facts about [dest] that hold at the head of the inner loop. *)
Lemma relocate_dest idx_t dest chain h :
  relocate_inv P N idx_s marks0 n idx_t dest chain h ->
  h < N /\ dest < N /\ ~ In dest marks0 /\ (In dest chain -> dest = n).
Proof.
  intros (S & Em & Hnd & Hb & Hin_n & Hin_h & Ed & Hpre & Hsucc & _).
  assert (Hh : h < N) by (apply Hb; exact Hin_h).
  assert (Hd : dest < N) by (subst dest; now apply (vec_at_lt P N)).
  split; [exact Hh|]. split; [exact Hd|]. split.
  - intros Hc. rewrite Ed in Hc. apply Hclosed0 in Hc; auto.
    exact (NoDup_app_disj _ _ _ Hnd Hin_h Hc).
  - intros Hc. destruct (Hpre _ Hc) as [E|[y [Hy [Hyh E]]]]; auto.
    exfalso. apply Hyh. apply (vec_at_inj P N); auto. congruence.
Qed.

(** When [dest] is already marked, the cycle is closed and every record of
    it sits at its destination. *)
Lemma relocate_exit idx_t dest chain h :
  relocate_inv P N idx_s marks0 n idx_t dest chain h ->
  In dest (chain ++ marks0) ->
  cycle_done P N idx_s marks0 n idx_t chain.
Proof.
  intros Hinv Hmem.
  destruct (relocate_dest _ _ _ _ Hinv) as (Hh & Hd & Hd0 & Hdc).
  destruct Hinv as (S & Em & Hnd & Hb & Hin_n & Hin_h & Ed & Hpre & Hsucc
                    & VA & VB & VC & VD).
  assert (Edn : dest = n).
  { apply in_app_or in Hmem. destruct Hmem; [auto | contradiction]. }
  unfold cycle_done.
  split; [exact S|]. split; [exact Em|]. split; [exact Hnd|].
  split; [exact Hb|]. split; [exact Hin_n|]. split; [|split].
  - intros v Hvn. split.
    + intros Hv. destruct (Nat.eq_dec v h) as [->|Hne].
      * rewrite <- Ed, Edn. exact Hin_n.
      * now apply Hsucc.
    + intros Hv. destruct (Hpre _ Hv) as [E|[y [Hy [Hyh E]]]].
      * assert (v = h); [|subst; auto].
        apply (vec_at_inj P N); auto. congruence.
      * assert (v = y); [|subst; auto].
        apply (vec_at_inj P N); auto.
  - intros c Hc. destruct (Nat.eq_dec (vec_at P c) n) as [E|Hne].
    + assert (c = h) by (apply (vec_at_inj P N); auto; congruence).
      subst c. rewrite E. now apply VC.
    + now apply VA.
  - intros w Hw. apply VD; auto. intros ->. apply Hw. rewrite Edn. exact Hin_n.
Qed.

(** One round of the inner loop. *)
Lemma relocate_step idx_t dest chain h :
  relocate_inv P N idx_s marks0 n idx_t dest chain h ->
  ~ In dest (chain ++ marks0) ->
  relocate_inv P N idx_s marks0 n
    (swapNodes (set_visited_nodes idx_t
                  (ExplicitSet.insert dest (_visited_nodes idx_t)))
               n (vec_at P dest))
    (vec_at P dest) (dest :: chain) dest
  /\ S (length (chain ++ marks0)) <= N.
Proof.
  intros Hinv Hnot.
  destruct (relocate_dest _ _ _ _ Hinv) as (Hh & Hd & Hd0 & Hdc).
  destruct Hinv as (S & Em & Hnd & Hb & Hin_n & Hin_h & Ed & Hpre & Hsucc
                    & VA & VB & VC & VD).
  assert (Hdch : ~ In dest chain) by (intros H; apply Hnot, in_or_app; auto).
  assert (Hdn : dest <> n) by (intros ->; contradiction).
  assert (Hdh : dest <> h) by (intros ->; contradiction).
  set (dest' := vec_at P dest).
  assert (Hd' : dest' < N) by now apply (vec_at_lt P N).
  assert (Hd'd : dest' <> dest).
  { intros E. apply Hdh. apply (vec_at_inj P N); auto.
    unfold dest' in E. congruence. }
  assert (Hd'c : In dest' chain -> dest' = n).
  { intros Hc. destruct (Hpre _ Hc) as [E|[y [Hy [_ E]]]]; auto.
    exfalso. apply Hdch. replace dest with y; auto.
    apply (vec_at_inj P N); auto. }
  set (idx1 := set_visited_nodes idx_t
                 (ExplicitSet.insert dest (_visited_nodes idx_t))).
  assert (G1 : geometry idx1).
  { apply (same_shape_geometry idx_s); [exact S | exact HG]. }
  assert (Emax : _max_node_count idx1 = _max_node_count idx_s)
    by (symmetry; apply S).
  destruct (swapNodes_spec idx1 n dest') as (S2 & V2 & W2); auto; try lia.
  assert (W : forall w, node_view (swapNodes idx1 n dest') w
                        = node_view idx_t (transp n dest' w))
    by (intros w; rewrite W2; reflexivity).
  split.
  - unfold relocate_inv. split; [|split; [|split; [|split; [|split; [|split;
      [|split; [|split; [|split; [|split; [|split; [|split]]]]]]]]]]].
    + eapply same_shape_trans; [exact S|].
      eapply same_shape_trans; [apply (same_shape_set_visited idx_t)|exact S2].
    + rewrite V2. simpl. now rewrite Em.
    + simpl. constructor; auto.
    + intros x [<-|Hx]; auto.
    + simpl. auto.
    + simpl. auto.
    + reflexivity.
    + intros x [<-|Hx].
      * right. exists h. simpl. repeat split; auto.
      * destruct (Hpre _ Hx) as [E|[y [Hy [Hyh E]]]]; auto.
        right. exists y. simpl. repeat split; auto. intros ->. contradiction.
    + intros x [<-|Hx] Hne; [contradiction|].
      destruct (Nat.eq_dec x h) as [->|Hxh].
      * rewrite <- Ed. simpl. auto.
      * simpl. right. now apply Hsucc.
    + intros c [<-|Hc] Hcn.
      * fold dest'. rewrite W, transp_r. now apply VB.
      * assert (vec_at P c <> dest').
        { intros E. apply Hdch. replace dest with c; auto.
          apply (vec_at_inj P N); auto. }
        rewrite W, transp_other by assumption. now apply VA.
    + intros Hne. rewrite W, transp_l.
      apply VD; auto; try (intros Hc; apply Hne; now apply Hd'c).
    + intros E. rewrite W, transp_l. fold dest' in E. rewrite E. now apply VB.
    + intros w Hw Hwd. assert (w <> n) by (intros ->; apply Hw; simpl; auto).
      rewrite W, transp_other by assumption.
      apply VD; [intros Hc; apply Hw; simpl; auto | intros ->; apply Hw; simpl; auto].
  - apply (NoDup_bounded_length (dest :: chain ++ marks0)).
    + constructor; auto.
    + intros x [<-|Hx]; auto. apply in_app_or in Hx. destruct Hx; auto.
Qed.

Lemma relocate_spec :
  forall fuel idx_t dest chain h,
    relocate_inv P N idx_s marks0 n idx_t dest chain h ->
    N < fuel + length (chain ++ marks0) ->
    exists idx' chain',
      relocate P n fuel dest idx_t = Some idx'
      /\ cycle_done P N idx_s marks0 n idx' chain'
      /\ incl chain chain'.
Proof.
  induction fuel as [|fuel IH]; intros idx_t dest chain h Hinv Hfuel;
    pose proof Hinv as (_ & Em & _); simpl;
    destruct (ExplicitSet.mem dest (_visited_nodes idx_t)) eqn:Emem.
  - apply mem_In in Emem. rewrite Em in Emem.
    exists idx_t, chain. split; [reflexivity|]. split; [|apply incl_refl].
    eapply relocate_exit; eauto.
  - exfalso.
    assert (Hnot : ~ In dest (chain ++ marks0)).
    { rewrite <- Em. intros H. apply mem_In in H. congruence. }
    destruct (relocate_step _ _ _ _ Hinv Hnot) as [_ Hlen]. simpl in Hfuel. lia.
  - apply mem_In in Emem. rewrite Em in Emem.
    exists idx_t, chain. split; [reflexivity|]. split; [|apply incl_refl].
    eapply relocate_exit; eauto.
  - assert (Hnot : ~ In dest (chain ++ marks0)).
    { rewrite <- Em. intros H. apply mem_In in H. congruence. }
    destruct (relocate_step _ _ _ _ Hinv Hnot) as [Hinv' Hlen].
    destruct (IH _ _ _ _ Hinv') as (idx' & chain' & E & Hdone & Hincl).
    + simpl. simpl in Hfuel. lia.
    + exists idx', chain'. split; [exact E|]. split; [exact Hdone|].
      intros x Hx. apply Hincl. simpl. auto.
Qed.

End Relocate.

Lemma relabel_node_spec P N idx0 idx n :
  is_permutation P N -> geometry idx0 -> N <= _max_node_count idx0 ->
  _cur_num_nodes idx0 = N -> n < N ->
  relabel_inv P N idx0 idx ->
  exists idx',
    relabel_node P idx n = Some idx'
    /\ relabel_inv P N idx0 idx'
    /\ In n (ExplicitSet.marks (_visited_nodes idx'))
    /\ incl (ExplicitSet.marks (_visited_nodes idx))
            (ExplicitSet.marks (_visited_nodes idx')).
Proof.
  intros HP G0 HN Ecur Hn (S & Hnd & Hb & Hcl & V1 & V2).
  unfold relabel_node.
  destruct (ExplicitSet.mem n (_visited_nodes idx)) eqn:Emem.
  - apply mem_In in Emem. exists idx. split; [reflexivity|].
    split; [unfold relabel_inv; auto 10|]. split; [exact Emem | apply incl_refl].
  - assert (Hnot : ~ In n (ExplicitSet.marks (_visited_nodes idx))).
    { intros H. apply mem_In in H. congruence. }
    set (marks0 := ExplicitSet.marks (_visited_nodes idx)) in *.
    assert (G : geometry idx) by (eapply same_shape_geometry; eauto).
    assert (Emax : _max_node_count idx = _max_node_count idx0) by (symmetry; apply S).
    assert (Ecur' : _cur_num_nodes idx = N) by (rewrite <- Ecur; symmetry; apply S).
    set (dest := vec_at P n).
    assert (Hd : dest < N) by now apply (vec_at_lt P N).
    destruct (swapNodes_spec idx n dest) as (S2 & Vis2 & W2); auto; try lia.
    set (idx1 := swapNodes idx n dest) in *.
    set (idx2 := set_visited_nodes idx1 (ExplicitSet.insert n (_visited_nodes idx1))).
    assert (Hinv : relocate_inv P N idx marks0 n idx2 dest [n] n).
    { unfold relocate_inv.
      split; [exact S2|].
      split; [change (n :: ExplicitSet.marks (_visited_nodes idx1) = n :: marks0);
              now rewrite Vis2|].
      split; [simpl; constructor; auto|].
      split; [intros x [<-|[]]; exact Hn|].
      split; [simpl; auto|]. split; [simpl; auto|]. split; [reflexivity|].
      split; [intros x [<-|[]]; auto|].
      split; [intros x [<-|[]] Hx; congruence|].
      split; [|split; [|split]].
      - intros c [<-|[]] Hc. fold dest.
        change (node_view idx2 dest) with (node_view idx1 dest).
        now rewrite W2, transp_r.
      - intros Hne. change (node_view idx2 n) with (node_view idx1 n).
        now rewrite W2, transp_l.
      - intros E. change (node_view idx2 n) with (node_view idx1 n).
        now rewrite W2, transp_l, E.
      - intros w Hw Hwd. change (node_view idx2 w) with (node_view idx1 w).
        rewrite W2, transp_other; auto. intros ->. apply Hw. simpl. auto. }
    destruct (relocate_spec P N idx marks0 n HP G) with
      (fuel := _cur_num_nodes idx) (idx_t := idx2) (dest := dest) (chain := [n]) (h := n)
      as (idx' & chain' & E & Hdone & Hincl); auto; try lia.
    { simpl. lia. }
    exists idx'. split; [exact E|].
    destruct Hdone as (S' & Em' & Hnd' & Hb' & Hin' & Hcl' & V1' & V2').
    split; [|split].
    + unfold relabel_inv.
      split; [eapply same_shape_trans; eauto|]. rewrite Em'.
      split; [exact Hnd'|].
      split; [intros x Hx; apply in_app_or in Hx; destruct Hx; auto|].
      split; [|split].
      * intros v Hv. rewrite !in_app_iff. rewrite (Hcl' v Hv), (Hcl v Hv). reflexivity.
      * intros v Hv. apply in_app_or in Hv. destruct Hv as [Hv|Hv].
        -- rewrite V1' by assumption. apply V2.
           intros Hv0. exact (NoDup_app_disj _ _ _ Hnd' Hv Hv0).
        -- rewrite V2'; [now apply V1|].
           intros Hc. apply (NoDup_app_disj _ _ _ Hnd' Hc).
           apply (proj1 (Hcl v (Hb v Hv))). exact Hv.
      * intros w Hw. rewrite V2'; [apply V2|];
          intros H; apply Hw, in_or_app; auto.
    + rewrite Em'. apply in_or_app. auto.
    + rewrite Em'. intros x Hx. apply in_or_app. auto.
Qed.

Lemma relabel_nodes_spec P N idx0 :
  is_permutation P N -> geometry idx0 -> N <= _max_node_count idx0 ->
  _cur_num_nodes idx0 = N ->
  forall ns idx,
    (forall x, In x ns -> x < N) ->
    relabel_inv P N idx0 idx ->
    exists idx',
      relabel_nodes P idx ns = Some idx'
      /\ relabel_inv P N idx0 idx'
      /\ (forall x, In x ns -> In x (ExplicitSet.marks (_visited_nodes idx')))
      /\ incl (ExplicitSet.marks (_visited_nodes idx))
              (ExplicitSet.marks (_visited_nodes idx')).
Proof.
  intros HP G0 HN Ecur. induction ns as [|n ns IH]; intros idx Hns Hinv.
  - exists idx. simpl. split; [reflexivity|]. split; [exact Hinv|].
    split; [intros x [] | apply incl_refl].
  - destruct (relabel_node_spec P N idx0 idx n) as (idx1 & E1 & Hinv1 & Hn1 & Hi1); auto.
    { apply Hns. simpl. auto. }
    destruct (IH idx1) as (idx' & E' & Hinv' & Hns' & Hi'); auto.
    { intros x Hx. apply Hns. simpl. auto. }
    exists idx'. simpl. rewrite E1. split; [exact E'|]. split; [exact Hinv'|]. split.
    + intros x [<-|Hx]; auto.
    + intros x Hx. auto.
Qed.

(** The two steps together: the record that was at [v] is at [P[v]], with
    every link [l] replaced by [P[l]]. *)
Lemma relabel_spec idx P :
  Inv idx -> is_permutation P (_cur_num_nodes idx) ->
  exists idx',
    relabel idx P = Some idx'
    /\ same_shape idx idx'
    /\ forall v, v < _cur_num_nodes idx ->
         getNodeData idx' (vec_at P v) = getNodeData idx v
         /\ getNodeLabel idx' (vec_at P v) = getNodeLabel idx v
         /\ forall i, i < _M idx ->
              getLink idx' (vec_at P v) i = vec_at P (getLink idx v i).
Proof.
  intros (G & Hcur & Hmax & HM & Hds & Hcl) HP.
  set (N := _cur_num_nodes idx) in *.
  assert (HPb : forall x, (Z.of_nat (vec_at P x) < 2 ^ 32)%Z).
  { intros x. apply (vec_at_bound P N); auto. lia. }
  destruct (rewire_spec P idx G Hcur HPb) as [L1 H1]. fold N in H1.
  set (idx1 := rewire idx P) in *.
  set (idx2 := set_visited_nodes idx1 (ExplicitSet.clear (_visited_nodes idx1))).
  assert (S12 : same_shape idx idx2) by apply L1.
  assert (G2 : geometry idx2) by (eapply same_shape_geometry; eauto).
  assert (Ecur2 : _cur_num_nodes idx2 = N) by (symmetry; apply S12).
  assert (Emax2 : _max_node_count idx2 = _max_node_count idx) by (symmetry; apply S12).
  destruct (relabel_nodes_spec P N idx2 HP G2) with (ns := seq 0 N) (idx := idx2)
    as (idx' & E & (S' & _ & _ & _ & V1 & _) & Hall & _); auto; try lia.
  { intros x Hx. apply in_seq in Hx. lia. }
  { unfold relabel_inv. split; [apply same_shape_refl|]. simpl.
    split; [constructor|]. split; [intros x []|]. split; [intros v _; reflexivity|].
    split; [intros v []|reflexivity]. }
  exists idx'. split; [|split].
  - unfold relabel. fold idx1. fold idx2. rewrite Ecur2. exact E.
  - eapply same_shape_trans; eauto.
  - intros v Hv.
    assert (Hview : node_view idx' (vec_at P v) = node_view idx1 v).
    { rewrite V1; [reflexivity|]. apply Hall. apply in_seq. lia. }
    unfold node_view in Hview. inversion Hview as [[Hdata Hbytes Hlabel]].
    destruct L1 as (_ & _ & Pay). destruct (Pay v) as [Ed El].
    split; [congruence|]. split; [congruence|].
    intros i Hi.
    assert (EM : _M idx' = _M idx) by (symmetry; eapply same_shape_trans; eauto).
    rewrite getLink_of_bytes by (rewrite EM; exact Hi).
    rewrite Hbytes, <- getLink_of_bytes by (change (_M idx1) with (_M idx2);
                                            rewrite <- (proj1 S12); exact Hi).
    rewrite H1 by exact Hi.
    replace (v <? N) with true by (symmetry; apply Nat.ltb_lt; exact Hv). reflexivity.
Qed.

(** ** The invariant holds in every reachable state *)

Lemma is_permutation_surj P N x :
  is_permutation P N -> x < N -> exists v, v < N /\ vec_at P v = x.
Proof.
  intros (Hlen & Hnd & Hb) Hx.
  assert (Hin : In x P).
  { apply (NoDup_length_incl Hnd (l' := seq 0 N)).
    - rewrite length_seq. lia.
    - intros y Hy. apply in_seq. specialize (Hb y Hy). lia.
    - apply in_seq. lia. }
  destruct (In_nth P x 0 Hin) as [v [Hv E]]. exists v. split; [lia | exact E].
Qed.

Lemma relabel_Inv idx P idx' :
  Inv idx -> is_permutation P (_cur_num_nodes idx) ->
  relabel idx P = Some idx' -> Inv idx'.
Proof.
  intros HI HP E.
  destruct (relabel_spec idx P HI HP) as (idx1 & E1 & S1 & H1).
  rewrite E1 in E. inversion E; subst idx1; clear E.
  apply (Inv_intro idx idx' (_cur_num_nodes idx)); auto.
  - apply HI.
  - intros n i Hn Hi.
    destruct (is_permutation_surj P _ n HP Hn) as [v [Hv <-]].
    destruct (H1 v Hv) as (_ & _ & Hl).
    assert (EM : _M idx' = _M idx) by (symmetry; apply S1).
    rewrite Hl by (rewrite <- EM; exact Hi).
    apply (vec_at_lt P _ _ HP). apply HI; auto. now rewrite <- EM.
Qed.

Lemma reachable_Inv idx : reachable idx -> Inv idx.
Proof.
  induction 1 as [dist ds me pq g gq idx Hds Hme E
                 | idx data label ef ni r idx' _ IH E
                 | idx query K ef ni results idx' _ IH E
                 | idx P idx' _ IH HP E].
  - exact (proj1 (mkIndex_Inv _ _ _ _ _ _ _ Hds Hme E)).
  - eapply add_Inv; eauto.
  - eapply search_Inv; eauto.
  - eapply relabel_Inv; eauto.
Qed.

(** C4: in every reachable state, the link region of an allocated node has
    exactly [_M] entries, and each of them is the node itself or another
    allocated node. *)
Theorem reachable_links_valid idx n :
  reachable idx -> n < _cur_num_nodes idx ->
  length (getNodeLinks idx n) = _M idx
  /\ forall l, In l (getNodeLinks idx n) -> l = n \/ l < _cur_num_nodes idx.
Proof.
  intros Hr Hn. apply reachable_Inv in Hr. split.
  - unfold getNodeLinks. now rewrite length_map, length_seq.
  - intros l Hl. right. apply in_getNodeLinks in Hl. destruct Hl as [i [Hi ->]].
    now apply Hr.
Qed.

(** ** What [relabel] does to the records *)

Lemma vec_as_map (P : list nat) : P = map (vec_at P) (seq 0 (length P)).
Proof.
  apply (nth_ext _ _ 0 (vec_at P 0)).
  - now rewrite length_map, length_seq.
  - intros i Hi. rewrite map_nth, seq_nth by assumption. reflexivity.
Qed.

Lemma is_permutation_Permutation P N : is_permutation P N -> Permutation P (seq 0 N).
Proof.
  intros (Hlen & Hnd & Hb). apply NoDup_Permutation_bis; auto.
  - rewrite length_seq. lia.
  - intros x Hx. apply in_seq. specialize (Hb x Hx). lia.
Qed.

(** C5: relabelling by a bijection [P] of the allocated ids moves the
    record of every node [v] to [P[v]] (same data region, same label) and
    rewrites each of its link slots [l], self-loops included, to [P[l]];
    so the multiset of (data, label) pairs is unchanged and the edges are
    the images under [P] of the former edges. *)
Theorem relabel_permutes_records idx P :
  Inv idx -> is_permutation P (_cur_num_nodes idx) ->
  exists idx',
    relabel idx P = Some idx'
    /\ _cur_num_nodes idx' = _cur_num_nodes idx
    /\ (forall v, v < _cur_num_nodes idx ->
          getNodeData idx' (vec_at P v) = getNodeData idx v
          /\ getNodeLabel idx' (vec_at P v) = getNodeLabel idx v
          /\ getNodeLinks idx' (vec_at P v) = map (vec_at P) (getNodeLinks idx v))
    /\ Permutation
         (map (fun v => (getNodeData idx' v, getNodeLabel idx' v))
              (seq 0 (_cur_num_nodes idx)))
         (map (fun v => (getNodeData idx v, getNodeLabel idx v))
              (seq 0 (_cur_num_nodes idx)))
    /\ (forall u w, u < _cur_num_nodes idx -> w < _cur_num_nodes idx ->
          (In (vec_at P w) (getNodeLinks idx' (vec_at P u))
           <-> In w (getNodeLinks idx u))).
Proof.
  intros HI HP.
  destruct (relabel_spec idx P HI HP) as (idx' & E & S & H).
  assert (EM : _M idx' = _M idx) by (symmetry; apply S).
  assert (Hlinks : forall v, v < _cur_num_nodes idx ->
            getNodeLinks idx' (vec_at P v) = map (vec_at P) (getNodeLinks idx v)).
  { intros v Hv. unfold getNodeLinks. rewrite EM, map_map.
    apply map_ext_in. intros i Hi. apply in_seq in Hi.
    destruct (H v Hv) as (_ & _ & Hl). apply Hl. lia. }
  exists idx'. split; [exact E|]. split; [symmetry; apply S|].
  split; [|split].
  - intros v Hv. destruct (H v Hv) as (Hd & Hl & _). auto.
  - set (N := _cur_num_nodes idx) in *.
    apply perm_trans with
      (map (fun v => (getNodeData idx' v, getNodeLabel idx' v)) P).
    + apply Permutation_map, Permutation_sym, is_permutation_Permutation, HP.
    + rewrite (vec_as_map P) at 1. destruct HP as (Hlen & _). rewrite Hlen, map_map.
      apply Permutation_refl'. apply map_ext_in. intros v Hv.
      apply in_seq in Hv. destruct (H v) as (-> & -> & _); [lia | reflexivity].
  - intros u w Hu Hw. rewrite (Hlinks u Hu), in_map_iff. split.
    + intros [l [El Hl]].
      assert (l < _cur_num_nodes idx).
      { apply in_getNodeLinks in Hl. destruct Hl as [i [Hi ->]]. now apply HI. }
      replace w with l; auto. now apply (vec_at_inj P (_cur_num_nodes idx)).
    + intros Hl. exists w. auto.
Qed.

(** ** Serialisation *)

Lemma take_app (x rest : list byte) : take (length x) (x ++ rest) = Some (x, rest).
Proof.
  unfold take. rewrite length_app.
  replace (length x <=? length x + length rest) with true
    by (symmetry; apply Nat.leb_le; lia).
  rewrite firstn_app, skipn_app, firstn_all, skipn_all, Nat.sub_diag.
  simpl. now rewrite app_nil_r.
Qed.

Lemma take_size_t_encode n rest :
  (Z.of_nat n < 2 ^ 64)%Z -> take_size_t (encode_size_t n ++ rest) = Some (n, rest).
Proof.
  intros H. unfold take_size_t.
  rewrite <- (length_encode_size_t n) at 1. rewrite take_app.
  now rewrite decode_encode_size_t.
Qed.

Lemma loadIndex_saveIndex (dist_ctor : nat -> DistanceInterface F) idx :
  serializable idx ->
  loadIndex dist_ctor (saveIndex idx) =
    Some {| _index_memory := _index_memory idx;
            _transformed_query := _transformed_query idx;
            _M := _M idx;
            _data_size_bytes := _data_size_bytes idx;
            _node_size_bytes := _node_size_bytes idx;
            _max_node_count := _max_node_count idx;
            _cur_num_nodes := _cur_num_nodes idx;
            _distance := dist_ctor (dimension (_distance idx));
            _visited_nodes :=
              ExplicitSet.make (ExplicitSet.capacity (_visited_nodes idx));
            _product_quantizer := None |}.
Proof.
  intros (H1 & H2 & H3 & H4 & H5 & H6 & H7 & H8 & H9).
  unfold saveIndex, serialize, loadIndex, ExplicitSet.serialize.
  rewrite !take_size_t_encode by assumption.
  rewrite <- H8, read_0_all, take_app.
  rewrite <- H9, read_0_all.
  rewrite <- (app_nil_r (_transformed_query idx)) at 2.
  rewrite take_app. reflexivity.
Qed.

Lemma read_skip k off len (pre m : list byte) :
  length pre = k -> Mem.read (k + off) len (pre ++ m) = Mem.read off len m.
Proof. intros <-. apply read_app_r. Qed.

Lemma read_fields (f0 f1 f2 f3 f4 f5 f6 blk scr : list byte) :
  length f0 = 8 -> length f1 = 8 -> length f2 = 8 -> length f3 = 8 ->
  length f4 = 8 -> length f5 = 8 -> length f6 = 8 ->
  let file := f0 ++ f1 ++ f2 ++ f3 ++ f4 ++ f5 ++ f6 ++ blk ++ scr in
  Mem.read 0 8 file = f0 /\ Mem.read 8 8 file = f1 /\ Mem.read 16 8 file = f2
  /\ Mem.read 24 8 file = f3 /\ Mem.read 32 8 file = f4
  /\ Mem.read 40 8 file = f5 /\ Mem.read 48 8 file = f6
  /\ Mem.read 56 (length blk) file = blk
  /\ Mem.read (56 + length blk) (length scr) file = scr
  /\ length file = 56 + length blk + length scr.
Proof.
  intros H0 H1 H2 H3 H4 H5 H6 file. subst file.
  repeat split.
  - now apply read_app_l.
  - rewrite (read_skip 8 0) by assumption. now apply read_app_l.
  - rewrite (read_skip 8 8), (read_skip 8 0) by assumption. now apply read_app_l.
  - rewrite (read_skip 8 16), (read_skip 8 8), (read_skip 8 0) by assumption.
    now apply read_app_l.
  - rewrite (read_skip 8 24), (read_skip 8 16), (read_skip 8 8), (read_skip 8 0)
      by assumption. now apply read_app_l.
  - rewrite (read_skip 8 32), (read_skip 8 24), (read_skip 8 16), (read_skip 8 8),
      (read_skip 8 0) by assumption. now apply read_app_l.
  - rewrite (read_skip 8 40), (read_skip 8 32), (read_skip 8 24), (read_skip 8 16),
      (read_skip 8 8), (read_skip 8 0) by assumption. now apply read_app_l.
  - rewrite (read_skip 8 48), (read_skip 8 40), (read_skip 8 32), (read_skip 8 24),
      (read_skip 8 16), (read_skip 8 8), (read_skip 8 0) by assumption.
    now apply read_app_l.
  - change (56 + length blk) with (8 + (48 + length blk)).
    rewrite (read_skip 8 (48 + length blk)) by assumption.
    change (48 + length blk) with (8 + (40 + length blk)).
    rewrite (read_skip 8 (40 + length blk)) by assumption.
    change (40 + length blk) with (8 + (32 + length blk)).
    rewrite (read_skip 8 (32 + length blk)) by assumption.
    change (32 + length blk) with (8 + (24 + length blk)).
    rewrite (read_skip 8 (24 + length blk)) by assumption.
    change (24 + length blk) with (8 + (16 + length blk)).
    rewrite (read_skip 8 (16 + length blk)) by assumption.
    change (16 + length blk) with (8 + (8 + length blk)).
    rewrite (read_skip 8 (8 + length blk)) by assumption.
    rewrite (read_skip 8 (length blk)) by assumption.
    rewrite <- (Nat.add_0_r (length blk)) at 1.
    rewrite read_app_r. apply read_0_all.
  - rewrite !length_app. lia.
Qed.

(** C6: saving an index and loading the saved file gives back the node
    block byte for byte (all [_max_node_count * _node_size_bytes] bytes of
    it), together with [_M], the data size, the record size,
    [_max_node_count], [_cur_num_nodes] and the dimension. *)
Theorem save_load_roundtrip (dist_ctor : nat -> DistanceInterface F) idx :
  serializable idx ->
  (forall d, dimension (dist_ctor d) = d) ->
  exists idx',
    loadIndex dist_ctor (saveIndex idx) = Some idx'
    /\ _index_memory idx' = _index_memory idx
    /\ length (_index_memory idx') = _max_node_count idx * _node_size_bytes idx
    /\ _M idx' = _M idx
    /\ _data_size_bytes idx' = _data_size_bytes idx
    /\ _node_size_bytes idx' = _node_size_bytes idx
    /\ _max_node_count idx' = _max_node_count idx
    /\ _cur_num_nodes idx' = _cur_num_nodes idx
    /\ dimension (_distance idx') = dimension (_distance idx).
Proof.
  intros Hs Hd. eexists. split; [apply loadIndex_saveIndex; exact Hs|].
  simpl. destruct Hs as (_ & _ & _ & _ & _ & _ & _ & Hlen & _).
  repeat split; auto. rewrite Hlen. apply Nat.mul_comm.
Qed.

(** C7 (amended): the file is the seven little-endian [u64] fields [_M],
    data size, record size, [_max_node_count], [_cur_num_nodes], dimension
    and visited capacity at offsets 0, 8, ..., 48, then the node block at
    offset 56, then the query scratch; no magic number precedes them. *)
Theorem serialized_layout idx :
  serializable idx ->
  let file := serialize idx in
  let block_size := _node_size_bytes idx * _max_node_count idx in
  le_combine (Mem.read 0 8 file) = Z.of_nat (_M idx)
  /\ le_combine (Mem.read 8 8 file) = Z.of_nat (_data_size_bytes idx)
  /\ le_combine (Mem.read 16 8 file) = Z.of_nat (_node_size_bytes idx)
  /\ le_combine (Mem.read 24 8 file) = Z.of_nat (_max_node_count idx)
  /\ le_combine (Mem.read 32 8 file) = Z.of_nat (_cur_num_nodes idx)
  /\ le_combine (Mem.read 40 8 file) = Z.of_nat (dimension (_distance idx))
  /\ le_combine (Mem.read 48 8 file) =
       Z.of_nat (ExplicitSet.capacity (_visited_nodes idx))
  /\ Mem.read 56 block_size file = _index_memory idx
  /\ Mem.read (56 + block_size) (_data_size_bytes idx) file = _transformed_query idx
  /\ length file = 56 + block_size + _data_size_bytes idx.
Proof.
  intros (H1 & H2 & H3 & H4 & H5 & H6 & H7 & H8 & H9).
  cbv zeta. unfold serialize.
  set (block_size := _node_size_bytes idx * _max_node_count idx).
  assert (E : forall n, (Z.of_nat n < 2 ^ 64)%Z ->
                        le_combine (encode_size_t n) = Z.of_nat n).
  { intros n Hn. unfold encode_size_t. rewrite le_combine_split.
    change (Z.of_nat 8 * 8)%Z with 64%Z. apply Z.mod_small. lia. }
  pose proof (read_fields
    (encode_size_t (_M idx)) (encode_size_t (_data_size_bytes idx))
    (encode_size_t (_node_size_bytes idx)) (encode_size_t (_max_node_count idx))
    (encode_size_t (_cur_num_nodes idx))
    (encode_size_t (dimension (_distance idx)))
    (ExplicitSet.serialize (_visited_nodes idx))
    (Mem.read 0 block_size (_index_memory idx))
    (Mem.read 0 (_data_size_bytes idx) (_transformed_query idx))
    (length_encode_size_t _) (length_encode_size_t _) (length_encode_size_t _)
    (length_encode_size_t _) (length_encode_size_t _) (length_encode_size_t _)
    (length_encode_size_t _)) as R.
  cbv zeta in R. rewrite !length_read in R.
  destruct R as (R0 & R1 & R2 & R3 & R4 & R5 & R6 & R7 & R8 & R9).
  rewrite R0, R1, R2, R3, R4, R5, R6, R7, R8, R9.
  unfold ExplicitSet.serialize. rewrite !E by assumption.
  unfold block_size. rewrite <- H8, <- H9, !read_0_all. repeat split.
Qed.

End IndexFacts.

#[local] Instance Z_float_laws : @float_laws Z Example.Z_float_ops.
Proof.
  constructor; simpl.
  - apply Z.ltb_irrefl.
  - intros a b c H1 H2. apply Z.ltb_lt in H1, H2. apply Z.ltb_lt. lia.
  - intros a b H1 H2. apply Z.ltb_ge in H1, H2. lia.
  - apply Z.opp_involutive.
  - intros a b. destruct (Z.ltb_spec b a), (Z.ltb_spec (- a) (- b)); auto; lia.
Qed.

Section SelectionExamples.
Import FlatNav Example.

(** C2 as stated fails: three candidates on a line, [M = 2]; the nearest is
    accepted and shadows the other two, so one candidate is selected, not
    two. *)
Lemma selectNeighbors_fewer_than_M :
  2 < PQ.size line_candidates
  /\ selectNeighbors line3 line_candidates 2 = [(100%Z, 0)].
Proof. split; [vm_compute; lia | vm_compute; reflexivity]. Qed.

Lemma selectNeighbors_heuristic_witness :
  let out := selectNeighbors line3 line_candidates (Z.of_nat 2) in
  let order := map (fun c => (fneg (fst c), snd c)) (negate_all line_candidates) in
  PQ.size out <= 2
  /\ (forall c, In c out -> In c line_candidates)
  /\ (forall c, In c line_candidates -> ~ In c out ->
        (exists a, In a out
           /\ fltb (node_distance line3 (snd a) (snd c)) (fst c) = true)
        \/ PQ.size out = 2)
  /\ Permutation order line_candidates
  /\ exists (examined : list (dist_node_t Z * bool))
            (unexamined : list (dist_node_t Z)),
       order = map fst examined ++ unexamined
       /\ Permutation (map fst (filter snd examined)) out
       /\ (forall pre c b post, examined = pre ++ (c, b) :: post ->
             length (filter snd pre) < 2
             /\ (b = false ->
                 exists a, In a (map fst (filter snd pre))
                   /\ fltb (node_distance line3 (snd a) (snd c)) (fst c) = true)
             /\ (b = true ->
                 forall a, In a (map fst (filter snd pre)) ->
                   fltb (node_distance line3 (snd a) (snd c)) (fst c) = false))
       /\ (unexamined <> [] -> PQ.size out = 2).
Proof.
  apply (selectNeighbors_heuristic line3 line_candidates 2).
  - vm_compute. reflexivity.
  - vm_compute. lia.
Defined.

End SelectionExamples.

Section InsertionExamples.
Import FlatNav Example.

(** C1 fails on the very first insertion: the index is not full, the node
    is allocated ([_cur_num_nodes] goes from 0 to 1), and [add] returns
    [false]. *)
Lemma add_first_insert_returns_false :
  exists idx',
    add empty4 (vec [0; 0]%Z) (int_label_of 65) 4 100 = Some (false, idx')
    /\ _cur_num_nodes empty4 < _max_node_count empty4
    /\ _cur_num_nodes idx' = 1
    /\ getNodeLabel idx' 0 = int_label_of 65.
Proof.
  eexists. split; [vm_compute; reflexivity|].
  split; [vm_compute; lia|]. split; vm_compute; reflexivity.
Qed.

(** Four successful insertions into an index of capacity four report
    [false; true; true; true]: the count of [true] answers is one short of
    [_cur_num_nodes]. *)
Lemma add_all_square_returns :
  exists idx,
    add_all empty4 square_points = Some ([false; true; true; true], idx)
    /\ _cur_num_nodes idx = 4.
Proof. eexists. split; vm_compute; reflexivity. Qed.

End InsertionExamples.

Section GraphExamples.
Import FlatNav Example.

Lemma reachable_empty4 : reachable empty4.
Proof.
  apply (reach_create (ByteL2 2) 4 2 None [] []); [lia | lia | vm_compute; reflexivity].
Qed.

Lemma reachable_add_all idx points rs idx' :
  reachable idx -> add_all idx points = Some (rs, idx') -> reachable idx'.
Proof.
  revert idx rs idx'. induction points as [|[v l] points IH]; intros idx rs idx' Hr E.
  - simpl in E. inversion E; subst. exact Hr.
  - simpl in E. destruct (add idx v l 4 100) as [[r idx1]|] eqn:Ea; [|discriminate].
    destruct (add_all idx1 points) as [[rs1 idx2]|] eqn:Eb; [|discriminate].
    inversion E; subst. eapply IH; [|exact Eb]. eapply reach_add; eauto.
Qed.

Lemma reachable_square4 : reachable square4.
Proof.
  apply (reachable_add_all empty4 square_points [false; true; true; true]).
  - exact reachable_empty4.
  - vm_compute. reflexivity.
Qed.

Lemma Inv_square4 : Inv square4.
Proof. apply reachable_Inv, reachable_square4. Qed.

Lemma is_permutation_example : is_permutation [2; 0; 3; 1] (_cur_num_nodes square4).
Proof.
  split; [reflexivity|]. split.
  - repeat constructor; simpl; intuition discriminate.
  - intros x Hx. change (_cur_num_nodes square4) with 4.
    simpl in Hx. intuition lia.
Qed.

Lemma reachable_links_valid_witness :
  reachable square4 /\ 2 < _cur_num_nodes square4
  /\ length (getNodeLinks square4 2) = _M square4
  /\ forall l, In l (getNodeLinks square4 2) -> l = 2 \/ l < _cur_num_nodes square4.
Proof.
  split; [exact reachable_square4|]. split; [vm_compute; lia|].
  apply (reachable_links_valid square4 2); [exact reachable_square4 | vm_compute; lia].
Defined.

Lemma relabel_permutes_records_witness :
  exists idx',
    relabel square4 [2; 0; 3; 1] = Some idx'
    /\ _cur_num_nodes idx' = _cur_num_nodes square4
    /\ (forall v, v < _cur_num_nodes square4 ->
          getNodeData idx' (vec_at [2; 0; 3; 1] v) = getNodeData square4 v
          /\ getNodeLabel idx' (vec_at [2; 0; 3; 1] v) = getNodeLabel square4 v
          /\ getNodeLinks idx' (vec_at [2; 0; 3; 1] v)
             = map (vec_at [2; 0; 3; 1]) (getNodeLinks square4 v))
    /\ Permutation
         (map (fun v => (getNodeData idx' v, getNodeLabel idx' v))
              (seq 0 (_cur_num_nodes square4)))
         (map (fun v => (getNodeData square4 v, getNodeLabel square4 v))
              (seq 0 (_cur_num_nodes square4)))
    /\ (forall u w, u < _cur_num_nodes square4 -> w < _cur_num_nodes square4 ->
          (In (vec_at [2; 0; 3; 1] w) (getNodeLinks idx' (vec_at [2; 0; 3; 1] u))
           <-> In w (getNodeLinks square4 u))).
Proof.
  apply (relabel_permutes_records square4 [2; 0; 3; 1]).
  - exact Inv_square4.
  - exact is_permutation_example.
Defined.

Lemma search_reports_distinct_nodes_witness :
  exists nodes idx',
    search_nodes square4 (vec [9; 9]%Z) 3 4 100 = Some (nodes, idx')
    /\ NoDup (map snd nodes)
    /\ (forall p, In p nodes -> snd p < _cur_num_nodes square4).
Proof.
  pose proof (search_reports_distinct_nodes square4 (vec [9; 9]%Z) 3 4 100)
    as [Hdistinct Hreturns].
  destruct Hreturns as (nodes & idx' & E & Hlt).
  - exact Inv_square4.
  - vm_compute. lia.
  - lia.
  - exists nodes, idx'. split; [exact E|]. split; [|exact Hlt].
    exact (proj1 (Hdistinct nodes idx' E)).
Defined.

Lemma search_returns_K_closest_witness :
  exists entry_node beam idx' results dropped kept,
    initializeSearch square4 (vec [9; 9]%Z) 100 = Some entry_node
    /\ beamSearch square4 (vec [9; 9]%Z) entry_node 4 = Some (beam, idx')
    /\ search square4 (vec [9; 9]%Z) 3 4 100 = Some (results, idx')
    /\ (Z.of_nat (length results) <= 3)%Z
    /\ StronglySorted (fun a b : dist_label_t Z => fltb (fst b) (fst a) = false) results
    /\ beam = dropped ++ kept
    /\ length kept = Nat.min (Z.to_nat 3) (length beam)
    /\ Permutation results
         (map (fun p => (fst p, getNodeLabel square4 (snd p))) kept)
    /\ (forall x y, In x kept -> In y dropped -> fltb (fst y) (fst x) = false).
Proof.
  apply (search_returns_K_closest square4 (vec [9; 9]%Z) 3 4 100).
  - exact Inv_square4.
  - vm_compute. lia.
  - lia.
  - lia.
Defined.

(** The scenario of the specification: the corner nearest to (0.9, 0.9)
    comes first, then the two corners at equal distance, in the order in
    which the result queue hands them out (the larger node first). *)
Lemma search_square_example :
  exists idx',
    search square4 (vec [9; 9]%Z) 3 4 100
    = Some ([(2%Z, int_label_of 68); (82%Z, int_label_of 67);
             (82%Z, int_label_of 66)], idx').
Proof. eexists. vm_compute. reflexivity. Qed.

End GraphExamples.

Section SerialisationExamples.
Import FlatNav Example.

(** C6, run on the four-point square. *)
Lemma save_load_roundtrip_witness :
  exists idx',
    loadIndex ByteL2 (saveIndex square4) = Some idx'
    /\ _index_memory idx' = _index_memory square4
    /\ length (_index_memory idx') = _max_node_count square4 * _node_size_bytes square4
    /\ _M idx' = _M square4
    /\ _data_size_bytes idx' = _data_size_bytes square4
    /\ _node_size_bytes idx' = _node_size_bytes square4
    /\ _max_node_count idx' = _max_node_count square4
    /\ _cur_num_nodes idx' = _cur_num_nodes square4
    /\ dimension (_distance idx') = dimension (_distance square4).
Proof.
  apply (save_load_roundtrip ByteL2 square4).
  - unfold serializable. vm_compute. repeat split; reflexivity.
  - reflexivity.
Defined.

(** C7 as stated fails: whatever the magic number, the file written for
    the four-point square is not the layout with a leading magic number
    (it is 8 bytes shorter and starts with [_M]). *)
Lemma serialize_has_no_magic :
  ~ exists magic, serialize square4 = spec_serialized_layout magic square4.
Proof.
  intros [magic H]. apply (f_equal (@length byte)) in H.
  unfold spec_serialized_layout in H.
  rewrite length_app, length_encode_size_t in H.
  vm_compute in H. discriminate H.
Qed.

Lemma serialized_layout_witness :
  let file := serialize square4 in
  let block_size := _node_size_bytes square4 * _max_node_count square4 in
  le_combine (Mem.read 0 8 file) = Z.of_nat (_M square4)
  /\ le_combine (Mem.read 8 8 file) = Z.of_nat (_data_size_bytes square4)
  /\ le_combine (Mem.read 16 8 file) = Z.of_nat (_node_size_bytes square4)
  /\ le_combine (Mem.read 24 8 file) = Z.of_nat (_max_node_count square4)
  /\ le_combine (Mem.read 32 8 file) = Z.of_nat (_cur_num_nodes square4)
  /\ le_combine (Mem.read 40 8 file) = Z.of_nat (dimension (_distance square4))
  /\ le_combine (Mem.read 48 8 file) =
       Z.of_nat (ExplicitSet.capacity (_visited_nodes square4))
  /\ Mem.read 56 block_size file = _index_memory square4
  /\ Mem.read (56 + block_size) (_data_size_bytes square4) file
     = _transformed_query square4
  /\ length file = 56 + block_size + _data_size_bytes square4.
Proof.
  apply (serialized_layout square4).
  unfold serializable. vm_compute. repeat split; reflexivity.
Defined.

End SerialisationExamples.

(** * The distance kernels *)

Section KernelFacts.
Import Kernels.
Local Open Scope Z_scope.

(** ** The exact reading: the lane-wise accumulation is the sum *)

Lemma sum_upto_16 (f : nat -> Z) (n : nat) :
  sum_upto f (n + 16)%nat =
    sum_upto f n + f n + f (S n) + f (2 + n)%nat + f (3 + n)%nat + f (4 + n)%nat
    + f (5 + n)%nat + f (6 + n)%nat + f (7 + n)%nat + f (8 + n)%nat + f (9 + n)%nat
    + f (10 + n)%nat + f (11 + n)%nat + f (12 + n)%nat + f (13 + n)%nat
    + f (14 + n)%nat + f (15 + n)%nat.
Proof. rewrite (Nat.add_comm n 16). simpl. ring. Qed.

Lemma l2_round_exact (x y : list Z) (off : nat) (a b c d : Z) :
  exists a' b' c' d',
    l2_step 4 x y (off + 12) (l2_step 4 x y (off + 8)
      (l2_step 4 x y (off + 4) (l2_step 4 x y off [a; b; c; d])))
    = [a'; b'; c'; d']
    /\ a' + b' + c' + d'
       = a + b + c + d + (sum_upto (sq_term x y) (off + 16) - sum_upto (sq_term x y) off).
Proof.
  do 4 eexists. split; [reflexivity|].
  rewrite sum_upto_16. unfold sq_term. simpl.
  rewrite <- !plus_n_Sm, <- !plus_n_O. ring.
Qed.

Lemma l2_loop_exact (x y : list Z) (rounds : nat) :
  forall (off : nat) (a b c d : Z),
  exists a' b' c' d',
    l2_loop_sse rounds x y off [a; b; c; d] = [a'; b'; c'; d']
    /\ a' + b' + c' + d'
       = a + b + c + d
         + (sum_upto (sq_term x y) (off + 16 * rounds) - sum_upto (sq_term x y) off).
Proof.
  induction rounds as [|rounds IH]; intros off a b c d.
  - exists a, b, c, d. split; [reflexivity|].
    rewrite Nat.mul_0_r, Nat.add_0_r. ring.
  - destruct (l2_round_exact x y off a b c d) as (a1 & b1 & c1 & d1 & E1 & H1).
    destruct (IH (off + 16)%nat a1 b1 c1 d1) as (a2 & b2 & c2 & d2 & E2 & H2).
    exists a2, b2, c2, d2. split.
    + cbn [l2_loop_sse]. rewrite E1. exact E2.
    + replace (off + 16 * S rounds)%nat with (off + 16 + 16 * rounds)%nat by lia.
      lia.
Qed.

Lemma ip_round_exact (x y : list Z) (off : nat) (a b c d e f g h : Z) :
  exists a' b' c' d' e' f' g' h',
    ip_step 8 x y (off + 8) (ip_step 8 x y off [a; b; c; d; e; f; g; h])
    = [a'; b'; c'; d'; e'; f'; g'; h']
    /\ a' + b' + c' + d' + e' + f' + g' + h'
       = a + b + c + d + e + f + g + h
         + (sum_upto (ip_term x y) (off + 16) - sum_upto (ip_term x y) off).
Proof.
  do 8 eexists. split; [reflexivity|].
  rewrite sum_upto_16. unfold ip_term. simpl.
  rewrite <- !plus_n_Sm, <- !plus_n_O. ring.
Qed.

Lemma ip_loop_exact (x y : list Z) (rounds : nat) :
  forall (off : nat) (a b c d e f g h : Z),
  exists a' b' c' d' e' f' g' h',
    ip_loop_avx rounds x y off [a; b; c; d; e; f; g; h]
    = [a'; b'; c'; d'; e'; f'; g'; h']
    /\ a' + b' + c' + d' + e' + f' + g' + h'
       = a + b + c + d + e + f + g + h
         + (sum_upto (ip_term x y) (off + 16 * rounds) - sum_upto (ip_term x y) off).
Proof.
  induction rounds as [|rounds IH]; intros off a b c d e f g h.
  - exists a, b, c, d, e, f, g, h. split; [reflexivity|].
    rewrite Nat.mul_0_r, Nat.add_0_r. ring.
  - destruct (ip_round_exact x y off a b c d e f g h)
      as (a1 & b1 & c1 & d1 & e1 & f1 & g1 & h1 & E1 & H1).
    destruct (IH (off + 16)%nat a1 b1 c1 d1 e1 f1 g1 h1)
      as (a2 & b2 & c2 & d2 & e2 & f2 & g2 & h2 & E2 & H2).
    exists a2, b2, c2, d2, e2, f2, g2, h2. split.
    + cbn [ip_loop_avx]. rewrite E1. exact E2.
    + replace (off + 16 * S rounds)%nat with (off + 16 + 16 * rounds)%nat by lia.
      lia.
Qed.

Lemma shiftr_4 (n : nat) : Nat.shiftr n 4 = (n / 16)%nat.
Proof. rewrite Nat.shiftr_div_pow2. reflexivity. Qed.

Lemma squared_l2_exact (x y : list Z) (dimension : nat) :
  distanceImplSquaredL2SIMD16ExtSSE x y dimension
  = spec_squared_l2 x y (16 * (dimension / 16)).
Proof.
  unfold distanceImplSquaredL2SIMD16ExtSSE. rewrite shiftr_4.
  destruct (l2_loop_exact x y (dimension / 16) 0 0 0 0 0)
    as (a & b & c & d & E & H).
  change (set1_ps 4 fzero) with [0; 0; 0; 0]. rewrite E.
  change (horizontal_sum [a; b; c; d]) with (a + b + c + d).
  rewrite H. unfold spec_squared_l2.
  change (0 + 16 * (dimension / 16))%nat with (16 * (dimension / 16))%nat.
  change (sum_upto (sq_term x y) 0) with 0. lia.
Qed.

Lemma inner_product_exact (x y : list Z) (dimension : nat) :
  distanceImplInnerProductSIMD16ExtAVX x y dimension
  = spec_angular x y (16 * (dimension / 16)).
Proof.
  unfold distanceImplInnerProductSIMD16ExtAVX. rewrite shiftr_4.
  destruct (ip_loop_exact x y (dimension / 16) 0 0 0 0 0 0 0 0 0)
    as (a & b & c & d & e & f & g & h & E & H).
  change (set1_ps 8 fzero) with [0; 0; 0; 0; 0; 0; 0; 0]. rewrite E.
  change (horizontal_sum [a; b; c; d; e; f; g; h])
    with (a + b + c + d + e + f + g + h).
  rewrite H. unfold spec_angular.
  change (0 + 16 * (dimension / 16))%nat with (16 * (dimension / 16))%nat.
  change (sum_upto (ip_term x y) 0) with 0.
  change (fsub fone ?a) with (1 - a). f_equal. lia.
Qed.


(** ** binary32: the squared-L2 kernel never returns a value below zero *)









End KernelFacts.

(** * k-means++ initialisation *)

Section CentroidFacts.
Import Centroids.

(** The weight computed for a data point does not depend on the point. *)
Lemma min_squared_distances_constant dim centroids data n cent_idx :
  min_squared_distances dim centroids data n cent_idx
  = repeat (min_distance dim centroids data cent_idx 0) n.
Proof.
  unfold min_squared_distances.
  change (min_distance dim centroids data cent_idx)
    with (fun _ : nat => min_distance dim centroids data cent_idx 0).
  generalize 0 at 2. induction n as [|n IH]; intros start; simpl; [reflexivity|].
  now rewrite IH.
Qed.

(** C3 fails on three points 0, 1, 5 of the line with the point 1 drawn
    first: the code gives all three points the weight 1 (the squared
    distance from the centroid to the data point number 0), where the
    squared distances to the nearest centroid are 1, 0 and 16; with the
    draw in the middle of the interval it then picks the point 1 again,
    which D² sampling chooses with probability zero. *)
Theorem kmeanspp_weights_ignore_the_point :
  let centroids := copy_point 1 line_data 1 (repeat double_zero 2) 0 in
  min_squared_distances 1 centroids line_data 3 1 = map double_of_Z [1; 1; 1]%Z
  /\ spec_min_squared_distances 1 centroids line_data 3 1
     = map double_of_Z [1; 0; 16]%Z
  /\ next_centroid example_rng 1 centroids line_data 3 1 = 1
  /\ _centroids (kmeansPlusPlusInitialize fresh_generator example_rng line_data 3)
     = map float_of_Z [1; 1]%Z.
Proof. cbv zeta. repeat split; vm_compute; reflexivity. Qed.

End CentroidFacts.

(** * More of the graph engine *)

Section MoreIndexFacts.
Context {F : Type} {FO : float_ops F} {LO : label_ops}.
Import FlatNav.
Implicit Types idx ix : Index F.

(** A link slot stores the low 32 bits of the value written to it, and
    the write touches nothing but that slot. *)
Theorem setLink_stores_low_32_bits idx n i v :
  geometry idx -> n < _max_node_count idx -> i < _M idx ->
  Z.of_nat (getLink (setLink idx n i v) n i) = (Z.of_nat v mod 2 ^ 32)%Z
  /\ (forall n' i', i' < _M idx -> (n, i) <> (n', i') ->
        getLink (setLink idx n i v) n' i' = getLink idx n' i')
  /\ (forall n', getNodeData (setLink idx n i v) n' = getNodeData idx n'
                 /\ getNodeLabel (setLink idx n i v) n' = getNodeLabel idx n').
Proof.
  intros G Hn Hi. split; [|split].
  - pose proof (Z.mod_pos_bound (Z.of_nat v) (2 ^ 32) ltac:(lia)) as Hb.
    assert (E : setLink idx n i v
                = setLink idx n i (Z.to_nat (Z.of_nat v mod 2 ^ 32))).
    { unfold setLink, encode_node_id. f_equal. f_equal.
      rewrite le_split_mod. f_equal.
      rewrite Z2Nat.id by lia. reflexivity. }
    rewrite E, getLink_setLink_same; auto; rewrite Z2Nat.id; lia.
  - intros n' i' Hi' Hne. now apply getLink_setLink_other.
  - intros n'. split; [now apply getNodeData_setLink | now apply getNodeLabel_setLink].
Qed.

Lemma transp_involutive a b n : transp a b (transp a b n) = n.
Proof.
  unfold transp.
  destruct (n =? a) eqn:Ea; [apply Nat.eqb_eq in Ea; subst|].
  - rewrite Nat.eqb_refl. destruct (b =? a) eqn:E; auto. now apply Nat.eqb_eq in E.
  - destruct (n =? b) eqn:Eb; [apply Nat.eqb_eq in Eb; subst|].
    + now rewrite Nat.eqb_refl.
    + now rewrite Ea, Eb.
Qed.

Lemma transp_sym a b n : transp a b n = transp b a n.
Proof.
  unfold transp.
  destruct (n =? a) eqn:Ea, (n =? b) eqn:Eb; auto.
  apply Nat.eqb_eq in Ea, Eb. congruence.
Qed.

(** Swapping the same two nodes twice puts every record (data, links,
    label) back where it was, and the order of the two arguments does not
    matter. *)
Theorem swapNodes_twice_restores idx a b n :
  geometry idx -> a < _max_node_count idx -> b < _max_node_count idx ->
  node_view (swapNodes (swapNodes idx a b) a b) n = node_view idx n
  /\ node_view (swapNodes idx b a) n = node_view (swapNodes idx a b) n.
Proof.
  intros G Ha Hb.
  destruct (swapNodes_spec idx a b G Ha Hb) as (S1 & _ & V1).
  destruct (swapNodes_spec idx b a G Hb Ha) as (_ & _ & V1').
  assert (G1 : geometry (swapNodes idx a b)) by (eapply same_shape_geometry; eauto).
  destruct (swapNodes_spec (swapNodes idx a b) a b G1) as (_ & _ & V2).
  - destruct S1 as (_ & _ & _ & <- & _). exact Ha.
  - destruct S1 as (_ & _ & _ & <- & _). exact Hb.
  - split.
    + now rewrite V2, V1, transp_involutive.
    + now rewrite V1', V1, transp_sym.
Qed.

(** Relabelling by [P] and then by its inverse [Q] gives back every
    allocated node: same data region, same label, same links. *)
Theorem relabel_then_inverse_restores idx P Q :
  Inv idx ->
  is_permutation P (_cur_num_nodes idx) ->
  is_permutation Q (_cur_num_nodes idx) ->
  (forall v, v < _cur_num_nodes idx -> vec_at Q (vec_at P v) = v) ->
  exists idx1 idx2,
    relabel idx P = Some idx1
    /\ relabel idx1 Q = Some idx2
    /\ _cur_num_nodes idx2 = _cur_num_nodes idx
    /\ forall v, v < _cur_num_nodes idx ->
         getNodeData idx2 v = getNodeData idx v
         /\ getNodeLabel idx2 v = getNodeLabel idx v
         /\ getNodeLinks idx2 v = getNodeLinks idx v.
Proof.
  intros HI HP HQ Hinv.
  destruct (relabel_spec idx P HI HP) as (idx1 & E1 & S1 & R1).
  pose proof (relabel_Inv idx P idx1 HI HP E1) as HI1.
  assert (Ec : _cur_num_nodes idx1 = _cur_num_nodes idx)
    by (symmetry; apply S1).
  assert (EM : _M idx1 = _M idx) by (symmetry; apply S1).
  rewrite <- Ec in HQ.
  destruct (relabel_spec idx1 Q HI1 HQ) as (idx2 & E2 & S2 & R2).
  assert (EM2 : _M idx2 = _M idx) by (rewrite <- EM; symmetry; apply S2).
  exists idx1, idx2. split; [exact E1|]. split; [exact E2|]. split.
  - rewrite <- Ec. symmetry. apply S2.
  - intros v Hv.
    assert (HPv : vec_at P v < _cur_num_nodes idx1)
      by (rewrite Ec; eapply vec_at_lt; eauto).
    destruct (R1 v Hv) as (D1 & L1 & K1).
    destruct (R2 (vec_at P v) HPv) as (D2 & L2 & K2).
    rewrite (Hinv v Hv) in D2, L2, K2.
    split; [congruence|]. split; [congruence|].
    unfold getNodeLinks. rewrite EM2. apply map_ext_in.
    intros i Hi. apply in_seq in Hi.
    rewrite K2 by lia. rewrite K1 by lia.
    apply Hinv. apply HI; [exact Hv | lia].
Qed.

Lemma initializeSearch_loop_visited idx v query step rounds :
  forall node min_dist entry_node,
    initializeSearch_loop (set_visited_nodes idx v) query step rounds node
                          min_dist entry_node
    = initializeSearch_loop idx query step rounds node min_dist entry_node.
Proof.
  induction rounds as [|rounds IH]; intros node min_dist entry_node; simpl; auto.
  change (query_distance (set_visited_nodes idx v) query node)
    with (query_distance idx query node).
  destruct (node <? _cur_num_nodes idx); auto.
  destruct (fltb (query_distance idx query node) min_dist); apply IH.
Qed.

Lemma beam_loop_visited idx v query buffer_size fuel :
  forall st,
    beam_loop (set_visited_nodes idx v) query buffer_size fuel st
    = beam_loop idx query buffer_size fuel st.
Proof.
  induction fuel as [|fuel IH]; intros st; simpl; [reflexivity|].
  destruct (bs_candidates st) as [|d rest]; [reflexivity|].
  destruct (fltb (bs_max_dist st) (fneg (fst d))); [reflexivity|].
  apply IH.
Qed.

Lemma beam_visit_capacity idx query buffer_size st l :
  ExplicitSet.capacity (bs_visited (beam_visit idx query buffer_size st l))
  = ExplicitSet.capacity (bs_visited st).
Proof.
  unfold beam_visit. destruct (ExplicitSet.mem l (bs_visited st)); [reflexivity|].
  match goal with |- context [if ?c then _ else _] => destruct c end; reflexivity.
Qed.

Lemma beam_fold_capacity idx query buffer_size links :
  forall st,
    ExplicitSet.capacity
      (bs_visited (fold_left (beam_visit idx query buffer_size) links st))
    = ExplicitSet.capacity (bs_visited st).
Proof.
  induction links as [|l links IH]; intros st; simpl; [reflexivity|].
  rewrite IH. apply beam_visit_capacity.
Qed.

Lemma beam_loop_capacity idx query buffer_size fuel :
  forall st st',
    beam_loop idx query buffer_size fuel st = Some st' ->
    ExplicitSet.capacity (bs_visited st') = ExplicitSet.capacity (bs_visited st).
Proof.
  induction fuel as [|fuel IH]; intros st st' E; simpl in E;
    destruct (bs_candidates st) as [|d rest].
  - now injection E as <-.
  - destruct (fltb (bs_max_dist st) (fneg (fst d))); [now injection E as <-|discriminate].
  - now injection E as <-.
  - destruct (fltb (bs_max_dist st) (fneg (fst d))); [now injection E as <-|].
    apply IH in E. rewrite E, beam_fold_capacity. reflexivity.
Qed.

(** What a search leaves behind: the index it was given, with another
    content of the visited set (of the same capacity). *)
Lemma search_state idx query (K ef_search num_initializations : Z) results idx' :
  search idx query K ef_search num_initializations = Some (results, idx') ->
  exists v, idx' = set_visited_nodes idx v
            /\ ExplicitSet.capacity v = ExplicitSet.capacity (_visited_nodes idx).
Proof.
  unfold search, search_nodes.
  destruct (initializeSearch idx query num_initializations); [|discriminate].
  unfold beamSearch.
  destruct (beam_loop idx query ef_search (S (_cur_num_nodes idx)) _) as [st|] eqn:E;
    [|discriminate].
  intros H. injection H as _ <-. exists (bs_visited st). split; [reflexivity|].
  apply beam_loop_capacity in E. rewrite E. reflexivity.
Qed.

Lemma search_visited idx v query (K ef_search num_initializations : Z) :
  ExplicitSet.capacity v = ExplicitSet.capacity (_visited_nodes idx) ->
  search (set_visited_nodes idx v) query K ef_search num_initializations
  = search idx query K ef_search num_initializations.
Proof.
  intros Ec. unfold search, search_nodes, initializeSearch.
  destruct (num_initializations =? 0)%Z; [reflexivity|].
  unfold beamSearch.
  rewrite initializeSearch_loop_visited.
  change (step_size (set_visited_nodes idx v) num_initializations)
    with (step_size idx num_initializations).
  change (_cur_num_nodes (set_visited_nodes idx v)) with (_cur_num_nodes idx).
  rewrite beam_loop_visited.
  unfold beam_init, ExplicitSet.clear. simpl. rewrite Ec.
  reflexivity.
Qed.

(** A search reads the graph and writes only the visited set, which the
    next search clears: the node block and every header field are the
    same afterwards, and any later search (result and final state) is
    what it would have been without the first. *)
Theorem search_does_not_affect_later_searches idx query (K ef_search ni : Z)
        results idx' query' (K' ef_search' ni' : Z) :
  search idx query K ef_search ni = Some (results, idx') ->
  _index_memory idx' = _index_memory idx
  /\ same_shape idx idx'
  /\ search idx' query' K' ef_search' ni' = search idx query' K' ef_search' ni'.
Proof.
  intros E. apply search_state in E. destruct E as (v & -> & Ec).
  split; [reflexivity|]. split; [apply same_shape_set_visited|].
  now apply search_visited.
Qed.

Lemma beam_visit_size idx query (buffer_size : Z) st l :
  beam_size_ok buffer_size st ->
  beam_size_ok buffer_size (beam_visit idx query buffer_size st l).
Proof.
  intros Hs. unfold beam_size_ok, beam_visit in *.
  destruct (ExplicitSet.mem l (bs_visited st)); [exact Hs|].
  match goal with |- context [if ?c then _ else _] => destruct c eqn:Ec end;
    cbn [bs_neighbors]; [|exact Hs].
  rewrite size_emplace.
  destruct (size_t_of_int buffer_size <? Z.of_nat (S (PQ.size (bs_neighbors st))))%Z
    eqn:Ep.
  - assert (E : PQ.size (PQ.pop (PQ.emplace (query_distance idx query l, l)
                                    (bs_neighbors st)))
                = PQ.size (bs_neighbors st)).
    { pose proof (size_emplace (query_distance idx query l, l) (bs_neighbors st)) as E.
      destruct (PQ.emplace (query_distance idx query l, l) (bs_neighbors st));
        simpl in *; [discriminate | congruence]. }
    rewrite E. exact Hs.
  - rewrite size_emplace. apply Z.ltb_ge in Ep. lia.
Qed.

Lemma beam_fold_size idx query (buffer_size : Z) links :
  forall st, beam_size_ok buffer_size st ->
  beam_size_ok buffer_size (fold_left (beam_visit idx query buffer_size) links st).
Proof.
  induction links as [|l links IH]; intros st Hs; simpl; auto.
  apply IH. now apply beam_visit_size.
Qed.

Lemma beam_loop_size idx query (buffer_size : Z) fuel :
  forall st st',
    beam_size_ok buffer_size st ->
    beam_loop idx query buffer_size fuel st = Some st' ->
    beam_size_ok buffer_size st'.
Proof.
  induction fuel as [|fuel IH]; intros st st' Hs E; simpl in E;
    destruct (bs_candidates st) as [|d rest].
  - now injection E as <-.
  - destruct (fltb (bs_max_dist st) (fneg (fst d))); [now injection E as <-|discriminate].
  - now injection E as <-.
  - destruct (fltb (bs_max_dist st) (fneg (fst d))); [now injection E as <-|].
    apply IH in E; auto. apply beam_fold_size; auto.
Qed.

(** The beam is never empty, and never longer than the buffer allows. *)
Lemma beamSearch_size idx query entry_node (buffer_size : Z) neighbors idx' :
  beamSearch idx query entry_node buffer_size = Some (neighbors, idx') ->
  1 <= length neighbors
  /\ (Z.of_nat (length neighbors) <= Z.max 1 (size_t_of_int buffer_size))%Z.
Proof.
  unfold beamSearch.
  destruct (beam_loop idx query buffer_size (S (_cur_num_nodes idx))
                      (beam_init idx query entry_node)) as [st|] eqn:E;
    [|discriminate].
  intros H. injection H as <- _.
  apply (beam_loop_size idx query buffer_size) in E; [exact E|].
  unfold beam_size_ok, beam_init. cbn [bs_neighbors].
  rewrite size_emplace. change (PQ.size (@PQ.empty F)) with 0. lia.
Qed.

Lemma pop_down_to_all (K : Z) (q : PriorityQueue F) :
  (Z.of_nat (length q) <= size_t_of_int K)%Z -> pop_down_to K q = q.
Proof.
  intros H. destruct q as [|x q]; [reflexivity|].
  cbn [pop_down_to].
  replace (size_t_of_int K <? Z.of_nat (PQ.size (x :: q)))%Z with false;
    [reflexivity|].
  symmetry. apply Z.ltb_ge. exact H.
Qed.

(** How many results a search reports, with [num_initializations <> 0]
    as the code asserts: [min K |beam|], where the beam holds at least
    one node and at most [max 1 ef_search]; so a search for [K >= 1]
    neighbours on a non-empty index is never empty, and never longer
    than [ef_search] allows. *)
Theorem search_result_count idx query (K ef_search num_initializations : Z) :
  Inv idx -> 0 < _cur_num_nodes idx ->
  (0 <= K < 2 ^ 31)%Z -> (0 <= ef_search < 2 ^ 31)%Z ->
  num_initializations <> 0%Z ->
  exists results idx',
    search idx query K ef_search num_initializations = Some (results, idx')
    /\ Nat.min (Z.to_nat K) 1 <= length results
    /\ length results <= Nat.min (Z.to_nat K) (Nat.max 1 (Z.to_nat ef_search)).
Proof.
  intros HI Hne HK Hef Hni.
  destruct (initializeSearch_returns idx query num_initializations Hni)
    as [entry_node Ee].
  destruct (beamSearch_spec idx query entry_node ef_search (_cur_num_nodes idx))
    as (st & E & _ & _ & _).
  - now apply Inv_links_closed.
  - lia.
  - eapply initializeSearch_lt; eauto.
  - pose proof (beamSearch_size _ _ _ _ _ _ E) as Hs.
    rewrite size_t_of_int_small in Hs by lia.
    exists (std_sort
              (map (fun p : dist_node_t F =>
                      (fst p, getNodeLabel (set_visited_nodes idx (bs_visited st)) (snd p)))
                   (pop_down_to K (bs_neighbors st)))).
    eexists. unfold search, search_nodes. rewrite Ee, E.
    split; [reflexivity|].
    pose proof (Permutation_length
                  (std_sort_perm
                     (map (fun p : dist_node_t F =>
                             (fst p, getNodeLabel (set_visited_nodes idx (bs_visited st)) (snd p)))
                          (pop_down_to K (bs_neighbors st))))) as Hl.
    rewrite length_map, length_pop_down_to in Hl by lia.
    rewrite Hl. lia.
Qed.

(** A negative [K] is converted to a huge [size_t]: nothing is popped and
    the whole beam is reported (with [num_initializations <> 0], as the
    code asserts). *)
Theorem search_negative_K_reports_the_beam idx query (K ef_search num_initializations : Z) :
  Inv idx -> 0 < _cur_num_nodes idx -> (- 2 ^ 31 <= K < 0)%Z ->
  num_initializations <> 0%Z ->
  exists entry_node beam idx',
    initializeSearch idx query num_initializations = Some entry_node
    /\ beamSearch idx query entry_node ef_search = Some (beam, idx')
    /\ search_nodes idx query K ef_search num_initializations = Some (beam, idx').
Proof.
  intros HI Hne HK Hni.
  destruct (initializeSearch_returns idx query num_initializations Hni)
    as [entry_node Ee].
  destruct (beamSearch_spec idx query entry_node ef_search (_cur_num_nodes idx))
    as (st & E & _ & Hnd & Hlt).
  - now apply Inv_links_closed.
  - lia.
  - eapply initializeSearch_lt; eauto.
  - exists entry_node. eexists. eexists. split; [exact Ee|]. split; [exact E|].
    unfold search_nodes. rewrite Ee, E. f_equal. f_equal.
    apply pop_down_to_all.
    assert (Hlen : length (map snd (bs_neighbors st)) <= _cur_num_nodes idx).
    { apply NoDup_bounded_length; [exact Hnd|].
      intros x Hx. apply in_map_iff in Hx. destruct Hx as [c [<- Hc]]. now apply Hlt. }
    rewrite length_map in Hlen.
    destruct HI as (_ & Hcur & Hmax & _).
    unfold size_t_of_int.
    replace (K mod 2 ^ 64)%Z with (K + 2 ^ 64)%Z.
    + unfold PriorityQueue, dist_node_t in *. lia.
    + symmetry. rewrite <- (Z.mod_add K 1 (2 ^ 64)) by lia.
      rewrite Z.mul_1_l. apply Z.mod_small. lia.
Qed.

Section EntryOrdered.
Context {FL : float_laws F}.

Lemma initializeSearch_loop_sample idx query step :
  1 <= step ->
  forall rounds j min_dist entry_node,
    _cur_num_nodes idx <= rounds + j ->
    sample_inv idx query step j min_dist entry_node ->
    exists m,
      sample_inv idx query step (_cur_num_nodes idx) m
        (initializeSearch_loop idx query step rounds (j * step) min_dist entry_node).
Proof.
  intros Hstep. induction rounds as [|rounds IH]; intros j min_dist entry_node Hr HI.
  - simpl. exists min_dist. destruct HI as [H1 H2]. split; [|exact H2].
    intros k _ Hk. apply H1; [|exact Hk]. nia.
  - simpl. destruct (j * step <? _cur_num_nodes idx) eqn:Ej.
    + apply Nat.ltb_lt in Ej.
      replace (j * step + step) with (S j * step) by (simpl; lia).
      destruct (fltb (query_distance idx query (j * step)) min_dist) eqn:Ed.
      * apply IH; [lia|]. destruct HI as [H1 H2]. split.
        -- intros k Hk Hkc. destruct (Nat.eq_dec k j) as [->|Hne].
           ++ apply fltb_irrefl.
           ++ destruct (fltb (query_distance idx query (k * step))
                             (query_distance idx query (j * step))) eqn:E; auto.
              rewrite <- (H1 k ltac:(lia) Hkc). symmetry.
              eapply fltb_trans; eauto.
        -- right. exists j. repeat split; auto.
           destruct H2 as [[-> _]|(k0 & _ & _ & Em & Hlt)]; auto.
           eapply fltb_trans; eauto.
      * apply IH; [lia|]. destruct HI as [H1 H2]. split; [|exact H2].
        intros k Hk Hkc. destruct (Nat.eq_dec k j) as [->|Hne]; auto.
        apply H1; [lia | exact Hkc].
    + apply Nat.ltb_ge in Ej. exists min_dist. destruct HI as [H1 H2].
      split; [|exact H2].
      intros k _ Hk. apply H1; [|exact Hk]. nia.
Qed.

Lemma step_size_pos idx (num_initializations : Z) : 1 <= step_size idx num_initializations.
Proof.
  unfold step_size.
  destruct (int_of_size_t _ <=? 0)%Z eqn:E; [lia|].
  apply Z.leb_gt in E. lia.
Qed.

(** On an index that satisfies the invariant (so that the node counter
    of the loop does not wrap around) and with [num_initializations <> 0]
    as the code asserts, entry selection returns; it samples the nodes
    [0, step, 2 step, ...] below [_cur_num_nodes] and returns the nearest
    of them: the first sample on an empty index or when no sample is
    nearer than [FLT_MAX], otherwise a sample that no other sample
    beats. *)
Theorem initializeSearch_returns_nearest_sample idx query (num_initializations : Z) :
  Inv idx -> num_initializations <> 0%Z ->
  let step := step_size idx num_initializations in
  exists entry_node,
  initializeSearch idx query num_initializations = Some entry_node
  /\ 1 <= step
  /\ (exists k0, entry_node = k0 * step)
  /\ (0 < _cur_num_nodes idx -> entry_node < _cur_num_nodes idx)
  /\ (_cur_num_nodes idx = 0 -> entry_node = 0)
  /\ forall k, k * step < _cur_num_nodes idx ->
       fltb (query_distance idx query (k * step)) FLT_MAX = true ->
       fltb (query_distance idx query entry_node) FLT_MAX = true
       /\ fltb (query_distance idx query (k * step))
               (query_distance idx query entry_node) = false.
Proof.
  intros _ Hni step.
  set (entry_node := initializeSearch_loop idx query step (_cur_num_nodes idx)
                                          0 FLT_MAX 0).
  exists entry_node. split.
  { unfold initializeSearch. destruct (Z.eqb_spec num_initializations 0);
      [contradiction | reflexivity]. }
  pose proof (step_size_pos idx num_initializations) as Hstep. fold step in Hstep.
  destruct (initializeSearch_loop_sample idx query step Hstep
              (_cur_num_nodes idx) 0 FLT_MAX 0) as (m & H1 & H2).
  { lia. }
  { split; [intros k Hk; lia | left; auto]. }
  change (initializeSearch_loop idx query step (_cur_num_nodes idx) (0 * step) FLT_MAX 0)
    with entry_node in H1, H2.
  split; [exact Hstep|]. split; [|split; [|split]].
  - destruct H2 as [[_ ->]|(k0 & E & _)]; [exists 0; reflexivity | exists k0; exact E].
  - intros Hne. destruct H2 as [[_ ->]|(k0 & _ & Hlt & _)]; auto.
  - intros Hz. destruct H2 as [[_ ->]|(k0 & _ & Hlt & _)]; [reflexivity | lia].
  - intros k Hk Hd.
    assert (Hkk : k < _cur_num_nodes idx) by nia.
    destruct H2 as [[-> _]|(k0 & _ & _ & -> & Hlt)].
    + rewrite (H1 k Hkk Hk) in Hd. discriminate.
    + split; [exact Hlt | exact (H1 k Hkk Hk)].
Qed.

End EntryOrdered.

(** With [M >= 1] the first candidate examined is accepted. *)
Lemma select_loop_head idx (M : Z) (h : dist_node_t F) (t : PriorityQueue F) :
  (0 < M < 2 ^ 31)%Z -> In h (select_loop idx M (h :: t) []).
Proof.
  intros HM. simpl.
  rewrite size_t_of_int_small by lia.
  replace (M <=? 0)%Z with false by (symmetry; apply Z.leb_gt; lia).
  destruct (select_loop_spec idx M t [h]) as ((more & -> & _) & _).
  simpl. auto.
Qed.

Lemma negate_all_cons (q : PriorityQueue F) :
  q <> [] -> exists h t, negate_all q = h :: t.
Proof.
  intros Hq. pose proof (size_negate_all q) as Hs.
  destruct (negate_all q) as [|h t]; [|eauto].
  destruct q; [congruence | discriminate].
Qed.

Lemma selectNeighbors_nonempty idx (neighbors : PriorityQueue F) (M : Z) :
  neighbors <> [] -> (0 < M < 2 ^ 31)%Z -> selectNeighbors idx neighbors M <> [].
Proof.
  intros Hq HM. unfold selectNeighbors.
  destruct (Z.of_nat (PQ.size neighbors) <? size_t_of_int M)%Z; [exact Hq|].
  destruct (negate_all_cons neighbors Hq) as (h & t & ->).
  pose proof (select_loop_head idx M h t HM) as Hin.
  intros E.
  assert (Hin' : In (fneg (fst h), snd h) (negate_all (select_loop idx M (h :: t) [])))
    by (apply in_negate_all; eauto).
  rewrite E in Hin'. destruct Hin'.
Qed.

Section SelectionOrdered.
Context {FL : float_laws F}.

Lemma fold_emplace_neg_sorted (q acc : PriorityQueue F) :
  pq_sorted acc ->
  pq_sorted (fold_left (fun acc x => PQ.emplace (fneg (fst x), snd x) acc) q acc).
Proof.
  revert acc. induction q as [|x q IH]; intros acc Hs; simpl; auto.
  apply IH. now apply emplace_sorted.
Qed.

Lemma negate_all_sorted (q : PriorityQueue F) : pq_sorted (negate_all q).
Proof. apply fold_emplace_neg_sorted. constructor. Qed.

(** Whatever the heuristic rejects, it keeps a candidate nearest to the
    query (for [M >= 1] and a non-empty candidate set). *)
Theorem selectNeighbors_keeps_a_nearest idx (neighbors : PriorityQueue F) (M : Z) :
  neighbors <> [] -> (0 < M < 2 ^ 31)%Z ->
  exists c,
    In c neighbors
    /\ In c (selectNeighbors idx neighbors M)
    /\ forall x, In x neighbors -> fltb (fst x) (fst c) = false.
Proof.
  intros Hq HM.
  destruct (negate_all_cons neighbors Hq) as (h & t & E).
  assert (Hh : In h (negate_all neighbors)) by (rewrite E; simpl; auto).
  apply in_negate_all in Hh. destruct Hh as (c & Hc & Eh).
  exists c. split; [exact Hc|]. split.
  - unfold selectNeighbors.
    destruct (Z.of_nat (PQ.size neighbors) <? size_t_of_int M)%Z; [exact Hc|].
    rewrite E. apply in_negate_all. exists h. split.
    + now apply select_loop_head.
    + rewrite Eh. simpl. rewrite fneg_involutive. now destruct c.
  - intros x Hx.
    assert (Hx' : In (fneg (fst x), snd x) (negate_all neighbors))
      by (apply in_negate_all; eauto).
    rewrite E in Hx'. destruct Hx' as [Hx'|Hx'].
    + rewrite Eh in Hx'. injection Hx' as Hf _.
      apply (f_equal fneg) in Hf. rewrite !fneg_involutive in Hf.
      rewrite Hf. apply fltb_irrefl.
    + pose proof (negate_all_sorted neighbors) as Hs. rewrite E in Hs.
      pose proof (pq_sorted_app [h] t Hs _ h Hx' (or_introl eq_refl)) as Hle.
      rewrite Eh in Hle. simpl in Hle. rewrite fltb_fneg in Hle. exact Hle.
Qed.

End SelectionOrdered.

Lemma write_links_other (n : nat) :
  forall (cands : PriorityQueue F) idx j n' k,
    geometry idx -> j + length cands <= _M idx -> k < _M idx -> n' <> n ->
    getLink (fst (write_links idx n cands j)) n' k = getLink idx n' k.
Proof.
  induction cands as [|c cands IH]; intros idx j n' k G Hj Hk Hne; simpl; auto.
  simpl in Hj. rewrite IH; auto.
  - apply getLink_setLink_other; auto; [lia | congruence].
  - eapply same_shape_geometry; [apply same_shape_setLink | exact G].
  - change (_M (setLink idx n j (snd c))) with (_M idx). lia.
Qed.

Lemma fold_setLink_other (n : nat) (val : Index F -> nat -> nat) :
  forall (l : list nat) idx n' k,
    geometry idx -> (forall m, In m l -> m < _M idx) -> k < _M idx -> n' <> n ->
    getLink (fold_left (fun ix m => setLink ix n m (val ix m)) l idx) n' k
    = getLink idx n' k.
Proof.
  induction l as [|m l IH]; intros idx n' k G Hl Hk Hne; simpl; auto.
  rewrite IH; auto.
  - apply getLink_setLink_other; auto; [apply Hl; simpl; auto | congruence].
  - eapply same_shape_geometry; [apply same_shape_setLink | exact G].
  - intros m' Hm'. apply Hl. simpl. auto.
Qed.

Lemma same_shape_write_links (n : nat) :
  forall (cs : PriorityQueue F) ix j, same_shape ix (fst (write_links ix n cs j)).
Proof.
  induction cs as [|c cs IH]; intros ix j; simpl; [apply same_shape_refl|].
  eapply same_shape_trans; [apply same_shape_setLink | apply IH].
Qed.

Lemma same_shape_fold_setLink (n : nat) (val : Index F -> nat -> nat) :
  forall (l : list nat) ix,
    same_shape ix (fold_left (fun ix m => setLink ix n m (val ix m)) l ix).
Proof.
  induction l as [|m l IH]; intros ix; simpl; [apply same_shape_refl|].
  eapply same_shape_trans; [apply same_shape_setLink | apply IH].
Qed.

Lemma same_shape_reprune idx (neighbor_node_id new_node_id : nat) :
  same_shape idx (reprune idx neighbor_node_id new_node_id).
Proof.
  unfold reprune.
  pose proof (same_shape_write_links neighbor_node_id
                (selectNeighbors idx
                   (backlink_candidates idx neighbor_node_id new_node_id)
                   (int_of_size_t (Z.of_nat (_M idx)))) idx 0) as S1.
  destruct (write_links idx neighbor_node_id _ 0) as [idx1 j]. simpl in S1.
  eapply same_shape_trans; [exact S1 | apply same_shape_fold_setLink].
Qed.

Lemma reprune_other idx (neighbor_node_id new_node_id n' k : nat) :
  geometry idx -> (Z.of_nat (_M idx) < 2 ^ 31)%Z -> k < _M idx ->
  n' <> neighbor_node_id ->
  getLink (reprune idx neighbor_node_id new_node_id) n' k = getLink idx n' k.
Proof.
  intros G HM Hk Hne. unfold reprune.
  set (cands := selectNeighbors idx
                  (backlink_candidates idx neighbor_node_id new_node_id)
                  (int_of_size_t (Z.of_nat (_M idx)))).
  assert (Hsz : 0 + length cands <= _M idx)
    by (simpl; now apply selectNeighbors_size).
  pose proof (write_links_other neighbor_node_id cands idx 0 n' k G Hsz Hk Hne) as E.
  pose proof (same_shape_write_links neighbor_node_id cands idx 0) as S1.
  destruct (write_links idx neighbor_node_id cands 0) as [idx1 j]. simpl in *.
  assert (EM : _M idx1 = _M idx) by (symmetry; apply S1).
  unfold pad_self_loops. rewrite fold_setLink_other; auto.
  - eapply same_shape_geometry; eauto.
  - intros m Hm. apply in_seq in Hm. lia.
  - lia.
Qed.

(** One round of the loop of [connectNeighbors]: the slot [i] of the new
    node receives the neighbour, the neighbour's links are updated, and
    no other node is touched; a neighbour with a self-loop receives the
    new node in its place. *)
Lemma connect_round_links idx (new_node_id i neighbor_node_id : nat) :
  geometry idx -> (Z.of_nat (_M idx) < 2 ^ 31)%Z ->
  new_node_id < _max_node_count idx -> neighbor_node_id < _max_node_count idx ->
  (Z.of_nat new_node_id < 2 ^ 32)%Z -> (Z.of_nat neighbor_node_id < 2 ^ 32)%Z ->
  i < _M idx -> neighbor_node_id <> new_node_id ->
  let idx1 := setLink idx new_node_id i neighbor_node_id in
  let idx2 := match find_self_loop idx1 neighbor_node_id with
              | Some j => setLink idx1 neighbor_node_id j new_node_id
              | None => reprune idx1 neighbor_node_id new_node_id
              end in
  same_shape idx idx2
  /\ (forall k, k < _M idx ->
        getLink idx2 new_node_id k
        = if k =? i then neighbor_node_id else getLink idx new_node_id k)
  /\ (forall n' k, k < _M idx -> n' <> new_node_id -> n' <> neighbor_node_id ->
        getLink idx2 n' k = getLink idx n' k)
  /\ ((exists j, j < _M idx /\ getLink idx neighbor_node_id j = neighbor_node_id) ->
      exists j, j < _M idx /\ getLink idx2 neighbor_node_id j = new_node_id).
Proof.
  intros G HM Hnew Hnb Hnew32 Hnb32 Hi Hne idx1.
  assert (S1 : same_shape idx idx1) by apply same_shape_setLink.
  assert (G1 : geometry idx1) by (eapply same_shape_geometry; eauto).
  assert (Enew : forall k, k < _M idx ->
            getLink idx1 new_node_id k
            = if k =? i then neighbor_node_id else getLink idx new_node_id k).
  { intros k Hk. destruct (Nat.eqb_spec k i) as [->|Hki].
    - apply getLink_setLink_same; auto.
    - apply getLink_setLink_other; auto. congruence. }
  assert (Eoth : forall n' k, k < _M idx -> n' <> new_node_id ->
            getLink idx1 n' k = getLink idx n' k).
  { intros n' k Hk Hn'. apply getLink_setLink_other; auto. congruence. }
  cbv zeta.
  destruct (find_self_loop idx1 neighbor_node_id) as [j|] eqn:Ef.
  - pose proof (find_self_loop_lt _ _ _ Ef) as Hj.
    change (_M idx1) with (_M idx) in Hj.
    split; [|split; [|split]].
    + eapply same_shape_trans; [exact S1 | apply same_shape_setLink].
    + intros k Hk. rewrite getLink_setLink_other; auto. congruence.
    + intros n' k Hk Hn1 Hn2. rewrite getLink_setLink_other; auto. congruence.
    + intros _. exists j. split; [exact Hj|].
      apply getLink_setLink_same; auto.
  - split; [|split; [|split]].
    + eapply same_shape_trans; [exact S1 | apply same_shape_reprune].
    + intros k Hk. rewrite reprune_other; auto.
    + intros n' k Hk Hn1 Hn2. rewrite reprune_other; auto.
    + intros (j & Hj & Ej). exfalso.
      unfold find_self_loop in Ef.
      assert (Hin : In j (seq 0 (_M idx1)))
        by (apply in_seq; change (_M idx1) with (_M idx); lia).
      pose proof (find_none _ _ Ef j Hin) as Hf. cbv beta in Hf.
      rewrite Eoth, Ej, Nat.eqb_refl in Hf by auto. discriminate Hf.
Qed.

Lemma connectNeighbors_loop_links (new_node_id : nat) :
  forall (neighbors : PriorityQueue F) idx i,
    geometry idx -> (Z.of_nat (_M idx) < 2 ^ 31)%Z ->
    new_node_id < _max_node_count idx -> (Z.of_nat new_node_id < 2 ^ 32)%Z ->
    (forall c, In c neighbors ->
       snd c < _max_node_count idx /\ (Z.of_nat (snd c) < 2 ^ 32)%Z
       /\ snd c <> new_node_id) ->
    NoDup (map snd neighbors) ->
    i + length neighbors <= _M idx ->
    let idx' := connectNeighbors_loop idx neighbors new_node_id i in
    same_shape idx idx'
    /\ (forall j c, nth_error neighbors j = Some c ->
       getLink idx' new_node_id (i + j) = snd c)
    /\ (forall k, k < _M idx -> k < i \/ i + length neighbors <= k ->
          getLink idx' new_node_id k = getLink idx new_node_id k)
    /\ (forall n' k, k < _M idx -> n' <> new_node_id ->
          ~ In n' (map snd neighbors) ->
          getLink idx' n' k = getLink idx n' k)
    /\ (forall n, In n (map snd neighbors) ->
          (exists j, j < _M idx /\ getLink idx n j = n) ->
          exists j, j < _M idx /\ getLink idx' n j = new_node_id).
Proof.
  induction neighbors as [|top rest IH]; intros idx i G HM Hnew Hnew32 Hnb Hnd Hi.
  - simpl. split; [apply same_shape_refl|]. split; [|split; [|split]]; auto.
    + intros [|j] c E; discriminate E.
    + intros n [].
  - cbn [connectNeighbors_loop]. simpl in Hi.
    destruct (Hnb top (or_introl eq_refl)) as (Ht1 & Ht2 & Ht3).
    destruct (connect_round_links idx new_node_id i (snd top))
      as (S2 & R1 & R2 & R3); auto; [lia|].
    set (idx2 := match find_self_loop (setLink idx new_node_id i (snd top)) (snd top) with
                 | Some j => setLink (setLink idx new_node_id i (snd top)) (snd top) j
                                     new_node_id
                 | None => reprune (setLink idx new_node_id i (snd top)) (snd top)
                                   new_node_id
                 end) in *.
    assert (EM : _M idx2 = _M idx) by (symmetry; apply S2).
    assert (Emax : _max_node_count idx2 = _max_node_count idx) by (symmetry; apply S2).
    replace (if _M idx <=? S i then _M idx else S i) with (S i)
      by (destruct (Nat.leb_spec (_M idx) (S i)); lia).
    simpl in Hnd. inversion Hnd as [|? ? Hnotin Hnd']; subst.
    destruct (IH idx2 (S i)) as (I0 & I1 & I2 & I3 & I4).
    + eapply same_shape_geometry; eauto.
    + now rewrite EM.
    + now rewrite Emax.
    + exact Hnew32.
    + intros c Hc. rewrite Emax. apply Hnb. simpl. auto.
    + exact Hnd'.
    + rewrite EM. lia.
    + rewrite EM in *. split; [eapply same_shape_trans; eauto|].
      split; [|split; [|split]].
      * intros [|j] c E; simpl in E.
        -- injection E as <-. rewrite Nat.add_0_r.
           rewrite I2 by lia. rewrite R1 by lia. now rewrite Nat.eqb_refl.
        -- replace (i + S j) with (S i + j) by lia. now apply I1.
      * intros k Hk Hr. rewrite I2 by (simpl in Hr; lia).
        rewrite R1 by exact Hk.
        replace (k =? i) with false; [reflexivity|].
        symmetry. apply Nat.eqb_neq. simpl in Hr. lia.
      * intros n' k Hk Hn1 Hn2. simpl in Hn2.
        rewrite I3; [|exact Hk|exact Hn1|tauto]. apply R2; [exact Hk|exact Hn1|].
        intros ->. apply Hn2. auto.
      * intros n [<-|Hin] Hself.
        -- destruct (R3 Hself) as (j & Hj & Ej). exists j. split; [exact Hj|].
           rewrite I3; auto.
        -- destruct Hself as (j & Hj & Ej).
           apply I4; [exact Hin|]. exists j. split; [exact Hj|].
           rewrite R2; auto.
           ++ intros ->. apply in_map_iff in Hin. destruct Hin as (c & Ec & Hc).
              destruct (Hnb c (or_intror Hc)) as (_ & _ & Hc3). congruence.
           ++ intros ->. contradiction.
Qed.

(** *** What [add] does to the graph *)

Lemma ids_fold_emplace_neg (q acc : PriorityQueue F) :
  Permutation
    (map snd (fold_left (fun acc x => PQ.emplace (fneg (fst x), snd x) acc) q acc))
    (map snd q ++ map snd acc).
Proof.
  revert acc. induction q as [|x q IH]; intros acc; simpl; [reflexivity|].
  eapply perm_trans; [apply IH|].
  eapply perm_trans;
    [apply Permutation_app_head, Permutation_map, emplace_perm|].
  simpl. symmetry. apply Permutation_middle.
Qed.

Lemma ids_negate_all (q : PriorityQueue F) :
  Permutation (map snd (negate_all q)) (map snd q).
Proof.
  unfold negate_all. eapply perm_trans; [apply ids_fold_emplace_neg|].
  simpl. now rewrite app_nil_r.
Qed.

Lemma select_loop_NoDup idx (M : Z) (cands : PriorityQueue F) :
  forall saved : list (dist_node_t F),
    NoDup (map snd (saved ++ cands)) ->
    NoDup (map snd (select_loop idx M cands saved)).
Proof.
  induction cands as [|c cands IH]; intros saved Hnd; simpl.
  - now rewrite app_nil_r in Hnd.
  - assert (Hs : NoDup (map snd saved)).
    { rewrite map_app in Hnd. now apply NoDup_app_remove_r in Hnd. }
    destruct (size_t_of_int M <=? Z.of_nat (length saved))%Z; [exact Hs|].
    destruct (should_keep_candidate idx saved c).
    + apply IH. now rewrite <- app_assoc.
    + apply IH. rewrite map_app in *. simpl in Hnd.
      now apply NoDup_remove_1 in Hnd.
Qed.

Lemma selectNeighbors_NoDup idx (neighbors : PriorityQueue F) (M : Z) :
  NoDup (map snd neighbors) -> NoDup (map snd (selectNeighbors idx neighbors M)).
Proof.
  intros Hnd. unfold selectNeighbors.
  destruct (Z.of_nat (PQ.size neighbors) <? size_t_of_int M)%Z; [exact Hnd|].
  eapply Permutation_NoDup; [symmetry; apply ids_negate_all|].
  apply select_loop_NoDup. simpl.
  eapply Permutation_NoDup; [symmetry; apply ids_negate_all | exact Hnd].
Qed.

Lemma getNodeData_fold_setLink (n : nat) (val : Index F -> nat -> nat) :
  forall (l : list nat) idx n',
    geometry idx -> (forall m, In m l -> m < _M idx) ->
    getNodeData (fold_left (fun ix m => setLink ix n m (val ix m)) l idx) n'
    = getNodeData idx n'.
Proof.
  induction l as [|m l IH]; intros idx n' G Hl; simpl; auto.
  rewrite IH.
  - apply getNodeData_setLink; auto. apply Hl. simpl. auto.
  - eapply same_shape_geometry; [apply same_shape_setLink | exact G].
  - intros m' Hm'. apply Hl. simpl. auto.
Qed.

(** The data region of the node [allocateNode] creates. *)
Lemma allocateNode_data idx data label idx' :
  Inv idx -> _cur_num_nodes idx < _max_node_count idx ->
  allocateNode idx data label = Some (_cur_num_nodes idx, idx') ->
  let stored :=
    match _product_quantizer idx with
    | Some q => firstn (_data_size_bytes idx) (computePQCode q data)
    | None => firstn (dataSize (_distance idx)) (transformData (_distance idx) data)
    end in
  length stored = _data_size_bytes idx ->
  getNodeData idx' (_cur_num_nodes idx) = stored.
Proof.
  intros (G & Hcur & Hmax & HM & Hds & Hcl) Hfull E stored Hlen.
  pose proof G as [G1 G2].
  unfold allocateNode in E.
  replace (_max_node_count idx <=? _cur_num_nodes idx) with false in E
    by (symmetry; apply Nat.leb_gt; exact Hfull).
  fold stored in E.
  set (cur := _cur_num_nodes idx) in *.
  set (idx1 := set_index_memory idx
                 (Mem.write (data_off idx cur) stored (_index_memory idx))) in *.
  set (lbl := firstn sizeof_label_t label) in *.
  assert (Hlbl : length lbl <= sizeof_label_t) by apply firstn_le_length.
  set (idx2 := set_index_memory idx1
                 (Mem.write (label_off idx1 cur) lbl (_index_memory idx1))) in *.
  assert (Gi1 : geometry idx1) by (apply geometry_raw_write; auto).
  assert (Gi2 : geometry idx2) by (apply geometry_raw_write; auto).
  pose proof (mul_step _ _ (_node_size_bytes idx) Hfull) as Hend.
  injection E as _ <-.
  match goal with
  | |- getNodeData (set_cur_num_nodes ?x _) _ = _ =>
      change (getNodeData x cur = stored)
  end.
  rewrite (getNodeData_fold_setLink cur (fun _ _ => cur)); auto.
  - unfold idx2. rewrite getNodeData_raw_write.
    + unfold getNodeData, idx1.
      rewrite memory_set_index_memory, data_off_set_index_memory.
      change (_data_size_bytes (set_index_memory idx _)) with (_data_size_bytes idx).
      rewrite <- Hlen. apply read_write_same.
      rewrite G2, Hlen. unfold data_off. fold cur.
      rewrite (Nat.mul_comm (_node_size_bytes idx)).
      assert (_data_size_bytes idx <= _node_size_bytes idx) by (rewrite G1; lia).
      lia.
    + right. unfold label_off, data_off, idx1, set_index_memory.
      cbn [_node_size_bytes _data_size_bytes _M]. apply Nat.le_add_r.
  - intros m Hm. apply in_seq in Hm. change (_M idx2) with (_M idx). lia.
Qed.

(** [add] on a non-empty index that has room, step by step: the node
    [allocateNode] creates, the beam found from the entry node, and the
    graph [connectNeighbors] builds from the selected neighbours. *)
Lemma add_steps idx data label (ef_construction num_initializations : Z) :
  Inv idx -> 0 < _cur_num_nodes idx -> _cur_num_nodes idx < _max_node_count idx ->
  num_initializations <> 0%Z ->
  exists idx1 st,
    allocateNode idx data label = Some (_cur_num_nodes idx, idx1)
    /\ geometry idx1 /\ _M idx1 = _M idx
    /\ _max_node_count idx1 = _max_node_count idx
    /\ (forall n i, n < _cur_num_nodes idx -> i < _M idx ->
          getLink idx1 n i = getLink idx n i)
    /\ (forall i, i < _M idx -> getLink idx1 (_cur_num_nodes idx) i = _cur_num_nodes idx)
    /\ NoDup (map snd (bs_neighbors st))
    /\ (forall c, In c (bs_neighbors st) -> snd c < _cur_num_nodes idx)
    /\ bs_neighbors st <> []
    /\ add idx data label ef_construction num_initializations
       = Some (true,
               connectNeighbors
                 (set_visited_nodes idx1 (bs_visited st))
                 (selectNeighbors (set_visited_nodes idx1 (bs_visited st))
                                  (bs_neighbors st)
                                  (int_of_size_t (Z.of_nat (_M idx1))))
                 (_cur_num_nodes idx)).
Proof.
  intros HI Hne Hfree Hni.
  destruct (initializeSearch_returns idx data num_initializations Hni)
    as [entry_node Ee].
  destruct (allocateNode_spec idx data label HI Hfree)
    as (idx1 & Ea & Ecur & S1 & V1 & G1 & Lold & Lnew & Pold & Pnew).
  pose proof HI as (G & Hcur & Hmax & HM & Hds & Hcl).
  pose proof S1 as (E1 & E2 & E3 & E4 & E5 & E6 & E7 & E8). simpl in *.
  set (cur := _cur_num_nodes idx) in *.
  assert (Cold : links_closed idx1 cur).
  { intros n i Hn Hi. rewrite <- E1 in Hi. rewrite Lold by assumption. now apply Hcl. }
  destruct (beamSearch_spec idx1 data entry_node ef_construction cur)
    as (st & Eb & _ & Hnd & Hlt); auto.
  { lia. }
  { eapply initializeSearch_lt; eauto. }
  exists idx1, st. split; [exact Ea|]. split; [exact G1|].
  split; [symmetry; exact E1|]. split; [symmetry; exact E4|].
  split; [exact Lold|]. split; [exact Lnew|].
  split; [exact Hnd|]. split; [exact Hlt|].
  split.
  - pose proof (beamSearch_size _ _ _ _ _ _ Eb) as [Hs _].
    intros E. rewrite E in Hs. simpl in Hs. lia.
  - unfold add. rewrite Ee, Ea.
    replace (0 <? cur) with true by (symmetry; apply Nat.ltb_lt; exact Hne).
    rewrite Eb. reflexivity.
Qed.

(** The graph after such an insertion, slot by slot. *)
Lemma add_graph idx data label (ef_construction num_initializations : Z) :
  Inv idx -> 0 < _cur_num_nodes idx -> _cur_num_nodes idx < _max_node_count idx ->
  0 < _M idx -> num_initializations <> 0%Z ->
  exists idx' (nbq : PriorityQueue F),
    add idx data label ef_construction num_initializations = Some (true, idx')
    /\ _M idx' = _M idx
    /\ nbq <> [] /\ NoDup (map snd nbq) /\ length nbq <= _M idx
    /\ (forall c, In c nbq -> snd c < _cur_num_nodes idx)
    /\ (forall j c, nth_error nbq j = Some c ->
          getLink idx' (_cur_num_nodes idx) j = snd c)
    /\ (forall k, k < _M idx -> length nbq <= k ->
          getLink idx' (_cur_num_nodes idx) k = _cur_num_nodes idx)
    /\ (forall n k, k < _M idx -> n < _cur_num_nodes idx ->
          ~ In n (map snd nbq) -> getLink idx' n k = getLink idx n k)
    /\ (forall n, In n (map snd nbq) ->
          (exists j, j < _M idx /\ getLink idx n j = n) ->
          exists j, j < _M idx /\ getLink idx' n j = _cur_num_nodes idx).
Proof.
  intros HI Hne Hfree HMpos Hni.
  destruct (add_steps idx data label ef_construction num_initializations HI Hne Hfree
                      Hni)
    as (idx1 & st & Ea & G1 & EM & Emax & Lold & Lnew & Hnd & Hlt & Hbeam & Eadd).
  pose proof HI as (G & Hcur & Hmax & HM & Hds & Hcl).
  set (cur := _cur_num_nodes idx) in *.
  set (idx2 := set_visited_nodes idx1 (bs_visited st)) in *.
  set (nbq := selectNeighbors idx2 (bs_neighbors st)
                (int_of_size_t (Z.of_nat (_M idx1)))) in *.
  assert (Hids : forall c, In c nbq -> snd c < cur).
  { intros c Hin. apply selectNeighbors_ids in Hin.
    destruct Hin as [c' [Hin <-]]. now apply Hlt. }
  assert (Hlen : length nbq <= _M idx).
  { rewrite <- EM. apply selectNeighbors_size. rewrite EM. exact HM. }
  assert (Hnd' : NoDup (map snd nbq)) by now apply selectNeighbors_NoDup.
  assert (Hne' : nbq <> []).
  { apply selectNeighbors_nonempty; [exact Hbeam|].
    rewrite EM, int_of_size_t_small by lia. lia. }
  destruct (connectNeighbors_loop_links cur nbq idx2 0)
    as (C0 & C1 & C2 & C3 & C4).
  - exact G1.
  - change (_M idx2) with (_M idx1). now rewrite EM.
  - change (_max_node_count idx2) with (_max_node_count idx1). now rewrite Emax.
  - lia.
  - intros c Hc. specialize (Hids c Hc).
    change (_max_node_count idx2) with (_max_node_count idx1). rewrite Emax.
    repeat split; lia.
  - exact Hnd'.
  - change (_M idx2) with (_M idx1). rewrite EM. simpl. exact Hlen.
  - fold (connectNeighbors idx2 nbq cur) in C0, C1, C2, C3, C4.
    change (_M idx2) with (_M idx1) in C2, C3, C4. rewrite EM in C2, C3, C4.
    exists (connectNeighbors idx2 nbq cur), nbq.
    split; [exact Eadd|].
    split; [rewrite <- EM; symmetry; apply C0|].
    split; [exact Hne'|]. split; [exact Hnd'|].
    split; [exact Hlen|]. split; [exact Hids|].
    split; [|split; [|split]].
    + intros j c E. exact (C1 j c E).
    + intros k Hk Hge. rewrite C2 by (auto; right; simpl; lia).
      change (getLink idx2 cur k) with (getLink idx1 cur k). now apply Lnew.
    + intros n k Hk Hn Hnotin. rewrite C3; auto; [|lia].
      change (getLink idx2 n k) with (getLink idx1 n k). now apply Lold.
    + intros n Hin (j & Hj & Ej). apply C4; [exact Hin|].
      exists j. split; [exact Hj|].
      change (getLink idx2 n j) with (getLink idx1 n j).
      rewrite Lold; auto.
      apply in_map_iff in Hin. destruct Hin as (c & <- & Hc). now apply Hids.
Qed.

(** Inserting a node into a non-empty index that has room, with
    [num_initializations <> 0] as the code asserts: the new node is
    linked to the selected neighbours [nb] (at least one, at most [_M],
    pairwise distinct, all older nodes), which fill its first slots in
    order, the remaining slots holding self-loops. *)
Theorem add_links_the_new_node idx data label (ef_construction num_initializations : Z) :
  Inv idx -> 0 < _cur_num_nodes idx -> _cur_num_nodes idx < _max_node_count idx ->
  0 < _M idx -> num_initializations <> 0%Z ->
  exists idx' nb,
    add idx data label ef_construction num_initializations = Some (true, idx')
    /\ nb <> [] /\ NoDup nb /\ length nb <= _M idx
    /\ (forall n, In n nb -> n < _cur_num_nodes idx)
    /\ getNodeLinks idx' (_cur_num_nodes idx)
       = nb ++ repeat (_cur_num_nodes idx) (_M idx - length nb).
Proof.
  intros HI Hne Hfree HMpos Hni.
  destruct (add_graph idx data label ef_construction num_initializations
              HI Hne Hfree HMpos Hni)
    as (idx' & nbq & Eadd & EM' & Hne' & Hnd & Hlen & Hids & L1 & L2 & _).
  exists idx', (map snd nbq).
  split; [exact Eadd|]. split; [|split; [exact Hnd|split; [|split]]].
  - destruct nbq; [congruence | discriminate].
  - now rewrite length_map.
  - intros n Hin. apply in_map_iff in Hin. destruct Hin as (c & <- & Hc). auto.
  - apply (nth_ext _ _ 0 0).
    + unfold getNodeLinks. rewrite length_map, length_seq, length_app, length_map,
        repeat_length, EM'.
      unfold PriorityQueue, dist_node_t in *. lia.
    + intros k Hk. unfold getNodeLinks in *.
      rewrite length_map, length_seq, EM' in Hk.
      rewrite (nth_indep _ 0 (getLink idx' (_cur_num_nodes idx) 0))
        by (rewrite length_map, length_seq, EM'; exact Hk).
      rewrite map_nth, seq_nth by (rewrite EM'; exact Hk). simpl.
      destruct (Nat.lt_ge_cases k (length nbq)) as [Hlt|Hge].
      * rewrite app_nth1 by (rewrite length_map; exact Hlt).
        destruct (nth_error nbq k) as [c|] eqn:Ec;
          [|apply nth_error_None in Ec; lia].
        rewrite (L1 k c Ec).
        rewrite (nth_indep _ 0 (snd c)) by (rewrite length_map; exact Hlt).
        rewrite map_nth. now rewrite (nth_error_nth _ _ _ Ec).
      * rewrite app_nth2 by (rewrite length_map; exact Hge).
        rewrite L2 by assumption. symmetry. rewrite length_map.
        apply nth_repeat_lt. unfold PriorityQueue, dist_node_t in *. lia.
Qed.

(** The same insertion (with [num_initializations <> 0]) seen from the
    older nodes: a node that is not among the selected neighbours keeps
    all its links; a selected neighbour that had a free slot (a
    self-loop) links back to the new node. *)
Theorem add_links_back idx data label (ef_construction num_initializations : Z) :
  Inv idx -> 0 < _cur_num_nodes idx -> _cur_num_nodes idx < _max_node_count idx ->
  0 < _M idx -> num_initializations <> 0%Z ->
  exists idx',
    add idx data label ef_construction num_initializations = Some (true, idx')
    /\ forall n, n < _cur_num_nodes idx ->
         (~ In n (getNodeLinks idx' (_cur_num_nodes idx)) ->
          getNodeLinks idx' n = getNodeLinks idx n)
         /\ (In n (getNodeLinks idx' (_cur_num_nodes idx)) ->
             In n (getNodeLinks idx n) ->
             In (_cur_num_nodes idx) (getNodeLinks idx' n)).
Proof.
  intros HI Hne Hfree HMpos Hni.
  destruct (add_graph idx data label ef_construction num_initializations
              HI Hne Hfree HMpos Hni)
    as (idx' & nbq & Eadd & EM' & Hne' & Hnd & Hlen & Hids & L1 & L2 & L3 & L4).
  exists idx'. split; [exact Eadd|].
  assert (Hin_new : forall n, n < _cur_num_nodes idx ->
            (In n (getNodeLinks idx' (_cur_num_nodes idx)) <-> In n (map snd nbq))).
  { intros n Hn. rewrite in_getNodeLinks, EM'. split.
    - intros (k & Hk & ->).
      destruct (Nat.lt_ge_cases k (length nbq)) as [Hlt|Hge].
      + destruct (nth_error nbq k) as [c|] eqn:Ec;
          [|apply nth_error_None in Ec; lia].
        rewrite (L1 k c Ec). apply in_map. eapply nth_error_In; eauto.
      + rewrite L2 in Hn by assumption. lia.
    - intros Hin. apply in_map_iff in Hin. destruct Hin as (c & <- & Hc).
      apply (In_nth _ _ c) in Hc. destruct Hc as (k & Hk & Ek).
      exists k. split.
      + unfold PriorityQueue, dist_node_t in *. lia.
      + symmetry. apply L1.
        transitivity (Some (nth k nbq c)); [now apply nth_error_nth' | now f_equal]. }
  intros n Hn. split.
  - intros Hnot. unfold getNodeLinks. rewrite EM'. apply map_ext_in.
    intros k Hk. apply in_seq in Hk. apply L3; [lia | exact Hn|].
    intros Hin. apply Hnot. now apply Hin_new.
  - intros Hin Hself. apply Hin_new in Hin; [|exact Hn].
    apply in_getNodeLinks in Hself. destruct Hself as (j & Hj & Ej).
    destruct (L4 n Hin) as (j' & Hj' & Ej').
    + exists j. split; [exact Hj | now symmetry].
    + apply in_getNodeLinks. exists j'. rewrite EM'. split; [exact Hj' | now symmetry].
Qed.

(** What [add] does when there is room, on the stored points and on the
    header. *)
Lemma add_effect idx data label (ef_construction num_initializations : Z) :
  Inv idx -> _cur_num_nodes idx < _max_node_count idx ->
  num_initializations <> 0%Z ->
  exists idx',
    add idx data label ef_construction num_initializations
      = Some (0 <? _cur_num_nodes idx, idx')
    /\ Inv idx'
    /\ same_shape (set_cur_num_nodes idx (S (_cur_num_nodes idx))) idx'
    /\ (forall n, n < _cur_num_nodes idx ->
          getNodeData idx' n = getNodeData idx n
          /\ getNodeLabel idx' n = getNodeLabel idx n)
    /\ (length label = sizeof_label_t ->
        getNodeLabel idx' (_cur_num_nodes idx) = label)
    /\ (let stored :=
          match _product_quantizer idx with
          | Some q => firstn (_data_size_bytes idx) (computePQCode q data)
          | None => firstn (dataSize (_distance idx))
                           (transformData (_distance idx) data)
          end in
        length stored = _data_size_bytes idx ->
        getNodeData idx' (_cur_num_nodes idx) = stored).
Proof.
  intros HI Hfree Hni.
  destruct (initializeSearch_returns idx data num_initializations Hni)
    as [entry_node Ee].
  destruct (allocateNode_spec idx data label HI Hfree)
    as (idx1 & Ea & Ecur & S1 & V1 & G1 & Lold & Lnew & Pold & Pnew).
  pose proof (allocateNode_data idx data label idx1 HI Hfree Ea) as Dnew.
  pose proof HI as (G & Hcur & Hmax & HM & Hds & Hcl).
  pose proof S1 as (E1 & E2 & E3 & E4 & E5 & E6 & E7 & E8).
  cbn [set_cur_num_nodes _M _data_size_bytes _node_size_bytes _max_node_count
       _cur_num_nodes _distance _product_quantizer _index_memory] in E1, E2, E3, E4,
       E5, E6, E7, E8.
  set (cur := _cur_num_nodes idx) in *.
  assert (Cold : links_closed idx1 cur).
  { intros n i Hn Hi. rewrite <- E1 in Hi. rewrite Lold by assumption. now apply Hcl. }
  assert (Cnew : links_closed idx1 (S cur)).
  { intros n i Hn Hi. rewrite <- E1 in Hi.
    destruct (Nat.eq_dec n cur) as [->|Hne].
    - rewrite Lnew by assumption. lia.
    - rewrite Lold by (assumption || lia).
      assert (getLink idx n i < cur) by (apply Hcl; auto; lia). lia. }
  assert (Hfin : forall idx',
             same_shape idx1 idx' ->
             (forall n, getNodeData idx' n = getNodeData idx1 n
                        /\ getNodeLabel idx' n = getNodeLabel idx1 n) ->
             links_closed idx' (S cur) ->
             Inv idx'
             /\ same_shape (set_cur_num_nodes idx (S cur)) idx'
             /\ (forall n, n < cur ->
                   getNodeData idx' n = getNodeData idx n
                   /\ getNodeLabel idx' n = getNodeLabel idx n)
             /\ (length label = sizeof_label_t -> getNodeLabel idx' cur = label)
             /\ (let stored :=
                   match _product_quantizer idx with
                   | Some q => firstn (_data_size_bytes idx) (computePQCode q data)
                   | None => firstn (dataSize (_distance idx))
                                    (transformData (_distance idx) data)
                   end in
                 length stored = _data_size_bytes idx ->
                 getNodeData idx' cur = stored)).
  { intros idx' S3 P3 C3.
    assert (S13 : same_shape (set_cur_num_nodes idx (S cur)) idx')
      by (eapply same_shape_trans; eauto).
    split; [|split; [exact S13|split; [|split]]].
    - apply (Inv_intro idx _ (S cur)); auto.
    - intros n Hn. destruct (P3 n) as [-> ->]. now apply Pold.
    - intros Hlen. destruct (P3 cur) as [_ ->]. now apply Pnew.
    - intros stored Hlen. destruct (P3 cur) as [-> _]. now apply Dnew. }
  unfold add. rewrite Ee, Ea.
  destruct (0 <? cur) eqn:Epos.
  - apply Nat.ltb_lt in Epos.
    destruct (beamSearch_spec idx1 data entry_node ef_construction cur)
      as (st & Eb & _ & _ & Hlt); auto.
    { lia. }
    { eapply initializeSearch_lt; eauto. }
    rewrite Eb.
    set (idx2 := set_visited_nodes idx1 (bs_visited st)).
    set (nb := selectNeighbors idx2 (bs_neighbors st)
                 (int_of_size_t (Z.of_nat (_M idx2)))).
    destruct (connectNeighbors_loop_spec cur (S cur) nb idx2 0) as [L3 C3]; auto.
    + change (_max_node_count idx2) with (_max_node_count idx1).
      rewrite <- E4. lia.
    + lia.
    + change (_M idx2) with (_M idx1). now rewrite <- E1.
    + intros c Hin. apply selectNeighbors_ids in Hin.
      destruct Hin as [c' [Hin <-]]. specialize (Hlt _ Hin). lia.
    + simpl. apply selectNeighbors_size.
      change (_M idx2) with (_M idx1). now rewrite <- E1.
    + fold (connectNeighbors idx2 nb cur) in L3, C3.
      exists (connectNeighbors idx2 nb cur). split; [reflexivity|].
      destruct L3 as (S3 & _ & P3).
      apply Hfin; [|exact P3|exact C3].
      eapply same_shape_trans; [apply (same_shape_set_visited idx1)|exact S3].
  - exists idx1. split; [reflexivity|].
    apply Hfin; [apply same_shape_refl | auto | exact Cnew].
Qed.

(** The contract of [add] for the stored points.  With
    [num_initializations = 0] the call does not return, whether the
    index is full or not: the entry selection comes first and stops at
    its assertion.  Otherwise, on a full index nothing changes and
    [false] is returned; with room left the index grows by one node that
    holds the transformed (or quantised) vector and the label, and the
    vectors and labels stored before are left alone. *)
Theorem add_stores_vector_and_label idx data label
        (ef_construction num_initializations : Z) :
  Inv idx ->
  (num_initializations = 0%Z ->
   add idx data label ef_construction num_initializations = None)
  /\ (num_initializations <> 0%Z -> _max_node_count idx <= _cur_num_nodes idx ->
   add idx data label ef_construction num_initializations = Some (false, idx))
  /\ (num_initializations <> 0%Z -> _cur_num_nodes idx < _max_node_count idx ->
      exists r idx',
        add idx data label ef_construction num_initializations = Some (r, idx')
        /\ _cur_num_nodes idx' = S (_cur_num_nodes idx)
        /\ _max_node_count idx' = _max_node_count idx
        /\ (forall n, n < _cur_num_nodes idx ->
              getNodeData idx' n = getNodeData idx n
              /\ getNodeLabel idx' n = getNodeLabel idx n)
        /\ (length label = sizeof_label_t ->
            getNodeLabel idx' (_cur_num_nodes idx) = label)
        /\ (let stored :=
              match _product_quantizer idx with
              | Some q => firstn (_data_size_bytes idx) (computePQCode q data)
              | None => firstn (dataSize (_distance idx))
                               (transformData (_distance idx) data)
              end in
            length stored = _data_size_bytes idx ->
            getNodeData idx' (_cur_num_nodes idx) = stored)).
Proof.
  intros HI. split; [|split].
  { intros ->. reflexivity. }
  { intros Hni. apply (add_spec idx data label ef_construction num_initializations HI Hni). }
  intros Hni Hroom.
  destruct (add_effect idx data label ef_construction num_initializations HI Hroom Hni)
    as (idx' & Eadd & _ & S & Pold & Pnew & Dnew).
  exists (0 <? _cur_num_nodes idx), idx'.
  split; [exact Eadd|].
  split; [symmetry; apply S|]. split; [symmetry; apply S|]. auto.
Qed.

(** *** The table the reorderings work on *)

(** One row per allocated node; the row of [node] is the list of the
    link slots of [node], in slot order and with repetitions, from which
    the self-loops are removed: at most [_M] allocated nodes, none of
    them [node] itself.  Whenever the ordering function
    answers a permutation of the allocated nodes, [reorder_gorder] and
    [reorder_rcm] succeed, and the reordered index has as many nodes
    and again closed links. *)
Theorem outdegree_table_rows
        (g_order : list (list node_id_t) -> Z -> list node_id_t)
        (rcm_order : list (list node_id_t) -> list node_id_t)
        idx (window_size : Z) :
  Inv idx ->
  length (outdegree_table idx) = _cur_num_nodes idx
  /\ (forall node, node < _cur_num_nodes idx ->
        let row := nth node (outdegree_table idx) [] in
        row = filter (fun l => negb (l =? node))
                     (map (getLink idx node) (seq 0 (_M idx)))
        /\ length row <= _M idx
        /\ (forall l, In l row <->
                      In l (getNodeLinks idx node) /\ l <> node)
        /\ (forall l, In l row -> l < _cur_num_nodes idx))
  /\ (is_permutation (g_order (outdegree_table idx) window_size)
                     (_cur_num_nodes idx) ->
      exists idx', reorder_gorder g_order idx window_size = Some idx'
                   /\ Inv idx'
                   /\ _cur_num_nodes idx' = _cur_num_nodes idx)
  /\ (is_permutation (rcm_order (outdegree_table idx)) (_cur_num_nodes idx) ->
      exists idx', reorder_rcm rcm_order idx = Some idx'
                   /\ Inv idx'
                   /\ _cur_num_nodes idx' = _cur_num_nodes idx).
Proof.
  intros HI. split; [|split; [|split]].
  - unfold outdegree_table. now rewrite length_map, length_seq.
  - intros node Hnode row.
    assert (Erow : row = filter (fun l => negb (l =? node)) (getNodeLinks idx node)).
    { unfold row, outdegree_table.
      rewrite (nth_indep _ [] (filter (fun l => negb (l =? 0)) (getNodeLinks idx 0)))
        by (rewrite length_map, length_seq; exact Hnode).
      rewrite (map_nth (fun node =>
                 filter (fun l => negb (l =? node)) (getNodeLinks idx node))).
      now rewrite seq_nth by exact Hnode. }
    split; [exact Erow|].
    rewrite Erow. split; [|split].
    + etransitivity; [apply filter_length_le|].
      unfold getNodeLinks. now rewrite length_map, length_seq.
    + intros l. rewrite filter_In, negb_true_iff, Nat.eqb_neq. reflexivity.
    + intros l Hl. apply filter_In in Hl. destruct Hl as [Hl _].
      apply in_getNodeLinks in Hl. destruct Hl as (i & Hi & ->).
      now apply HI.
  - intros HP. unfold reorder_gorder.
    destruct (relabel_spec idx _ HI HP) as (idx' & E & S & _).
    exists idx'. split; [exact E|]. split.
    + eapply relabel_Inv; eauto.
    + symmetry. apply S.
  - intros HP. unfold reorder_rcm.
    destruct (relabel_spec idx _ HI HP) as (idx' & E & S & _).
    exists idx'. split; [exact E|]. split.
    + eapply relabel_Inv; eauto.
    + symmetry. apply S.
Qed.

(** *** Loading: short files, trailing bytes, and what a loaded index is *)

Lemma take_firstn (x rest : list byte) (n : nat) :
  take (length x) (firstn n (x ++ rest))
  = if length x <=? n then Some (x, firstn (n - length x) rest) else None.
Proof.
  unfold take. rewrite length_firstn, length_app.
  destruct (Nat.leb_spec (length x) n) as [Hle|Hlt].
  - replace (length x <=? Nat.min n (length x + length rest)) with true
      by (symmetry; apply Nat.leb_le; lia).
    rewrite firstn_firstn, Nat.min_l by exact Hle.
    rewrite skipn_firstn_comm.
    rewrite firstn_app, skipn_app, firstn_all, skipn_all, Nat.sub_diag.
    simpl. now rewrite app_nil_r.
  - replace (length x <=? Nat.min n (length x + length rest)) with false
      by (symmetry; apply Nat.leb_gt; lia).
    reflexivity.
Qed.

Lemma take_firstn_all (x : list byte) (n : nat) :
  take (length x) (firstn n x) = if length x <=? n then Some (x, []) else None.
Proof.
  pose proof (take_firstn x [] n) as E. rewrite app_nil_r, firstn_nil in E. exact E.
Qed.

Lemma take_size_t_firstn v rest (n : nat) :
  (Z.of_nat v < 2 ^ 64)%Z ->
  take_size_t (firstn n (encode_size_t v ++ rest))
  = if 8 <=? n then Some (v, firstn (n - 8) rest) else None.
Proof.
  intros H. unfold take_size_t.
  pose proof (take_firstn (encode_size_t v) rest n) as E.
  rewrite length_encode_size_t in E. rewrite E.
  destruct (8 <=? n); [|reflexivity].
  now rewrite decode_encode_size_t.
Qed.

(** A file cut short is rejected: [loadIndex] fails (the archive throws)
    on every proper prefix of a saved index. *)
Theorem loadIndex_rejects_truncated_file (dist_ctor : nat -> DistanceInterface F)
        idx (n : nat) :
  serializable idx -> n < length (saveIndex idx) ->
  loadIndex dist_ctor (firstn n (saveIndex idx)) = None.
Proof.
  intros (H1 & H2 & H3 & H4 & H5 & H6 & H7 & H8 & H9) Hn.
  unfold saveIndex, serialize, ExplicitSet.serialize in *.
  rewrite !length_app, !length_encode_size_t, !length_read in Hn.
  unfold loadIndex.
  repeat (rewrite take_size_t_firstn by assumption;
          match goal with
          | |- context [?a <=? ?b] =>
              destruct (Nat.leb_spec a b); [|reflexivity]
          end).
  rewrite <- H8, <- H9, !read_0_all.
  rewrite take_firstn.
  match goal with
  | |- context [?a <=? ?b] => destruct (Nat.leb_spec a b); [|reflexivity]
  end.
  rewrite take_firstn_all.
  match goal with
  | |- context [?a <=? ?b] => destruct (Nat.leb_spec a b); [|reflexivity]
  end.
  exfalso. lia.
Qed.

Lemma loadIndex_trailing (dist_ctor : nat -> DistanceInterface F) idx
      (junk : list byte) :
  serializable idx ->
  loadIndex dist_ctor (saveIndex idx ++ junk) = loadIndex dist_ctor (saveIndex idx).
Proof.
  intros Hs. rewrite (loadIndex_saveIndex dist_ctor idx Hs).
  destruct Hs as (H1 & H2 & H3 & H4 & H5 & H6 & H7 & H8 & H9).
  unfold saveIndex, serialize, loadIndex, ExplicitSet.serialize.
  rewrite <- !app_assoc.
  rewrite !take_size_t_encode by assumption.
  rewrite <- H8, read_0_all, take_app.
  rewrite <- H9, read_0_all, take_app. reflexivity.
Qed.

(** Bytes that follow a saved index are ignored.  An index in the form
    [loadIndex] builds (no product quantizer, a cleared visited set, the
    distance object made from the stored dimension), once saved, is
    loaded back as it was, whatever bytes follow it in the file. *)
Theorem loadIndex_ignores_trailing_bytes (dist_ctor : nat -> DistanceInterface F)
        idx (junk : list byte) :
  serializable idx ->
  _product_quantizer idx = None ->
  _visited_nodes idx = ExplicitSet.make (ExplicitSet.capacity (_visited_nodes idx)) ->
  _distance idx = dist_ctor (dimension (_distance idx)) ->
  loadIndex dist_ctor (saveIndex idx ++ junk) = Some idx.
Proof.
  intros Hs Hpq Hv Hdist.
  rewrite loadIndex_trailing, loadIndex_saveIndex by exact Hs.
  f_equal. destruct idx; simpl in *. congruence.
Qed.

(** *** What the beam holds *)

Lemma beam_visit_sound idx query buffer_size entry_node st d l :
  linked idx entry_node d -> In l (getNodeLinks idx d) ->
  beam_sound idx query entry_node st ->
  beam_sound idx query entry_node (beam_visit idx query buffer_size st l).
Proof.
  intros Hd Hl [Hc Hn]. unfold beam_visit.
  destruct (ExplicitSet.mem l (bs_visited st)); [split; assumption|].
  assert (Hlink : linked idx entry_node l).
  { apply in_getNodeLinks in Hl. destruct Hl as (i & Hi & ->). now apply linked_step. }
  match goal with |- context [if ?c then _ else _] => destruct c end;
    [|split; assumption].
  split; cbn [bs_candidates bs_neighbors].
  - intros c Hin. apply in_emplace in Hin. destruct Hin as [->|Hin]; auto.
  - intros c Hin.
    assert (Hin' : In c (PQ.emplace (query_distance idx query l, l) (bs_neighbors st))).
    { match type of Hin with
      | In _ (if ?c then _ else _) => destruct c
      end; [apply in_pop|]; exact Hin. }
    apply in_emplace in Hin'. destruct Hin' as [->|Hin']; auto.
Qed.

Lemma beam_fold_sound idx query buffer_size entry_node d :
  linked idx entry_node d ->
  forall (links : list node_id_t) st,
    (forall l, In l links -> In l (getNodeLinks idx d)) ->
    beam_sound idx query entry_node st ->
    beam_sound idx query entry_node
               (fold_left (beam_visit idx query buffer_size) links st).
Proof.
  intros Hd. induction links as [|l links IH]; intros st Hl Hs; simpl; auto.
  apply IH; [intros l' Hl'; apply Hl; simpl; auto|].
  eapply beam_visit_sound; eauto. apply Hl. simpl. auto.
Qed.

Lemma beam_loop_sound idx query buffer_size entry_node :
  forall fuel st st',
    beam_sound idx query entry_node st ->
    beam_loop idx query buffer_size fuel st = Some st' ->
    beam_sound idx query entry_node st'.
Proof.
  induction fuel as [|fuel IH]; intros st st' Hs E; destruct st as [v cands nb md];
    simpl in E; destruct cands as [|d rest].
  - now injection E as <-.
  - destruct (fltb md (fneg (fst d))); [now injection E as <- | discriminate].
  - now injection E as <-.
  - destruct (fltb md (fneg (fst d))); [now injection E as <-|].
    apply IH in E; [exact E|].
    destruct Hs as [Hc Hn]. cbn [bs_candidates bs_neighbors] in Hc, Hn.
    apply (beam_fold_sound idx query buffer_size entry_node (snd d)).
    + apply Hc. simpl. auto.
    + auto.
    + split; cbn [bs_candidates bs_neighbors]; [|exact Hn].
      intros c Hin. apply Hc. simpl. auto.
Qed.

Lemma beamSearch_sound idx query entry_node buffer_size neighbors idx' :
  beamSearch idx query entry_node buffer_size = Some (neighbors, idx') ->
  forall c, In c neighbors ->
    linked idx entry_node (snd c) /\ fst c = query_distance idx query (snd c).
Proof.
  unfold beamSearch.
  destruct (beam_loop idx query buffer_size (S (_cur_num_nodes idx))
                      (beam_init idx query entry_node)) as [st|] eqn:E;
    [|discriminate].
  intros H. injection H as <- _.
  apply (beam_loop_sound idx query buffer_size entry_node) in E; [apply E|].
  unfold beam_sound, beam_init. cbn [bs_candidates bs_neighbors]. split.
  - intros c [<-|[]]. split; [apply linked_refl | reflexivity].
  - intros c [<-|[]]. split; [apply linked_refl | reflexivity].
Qed.

(** With [num_initializations <> 0], as the code asserts, a search on a
    non-empty index returns, and every pair it reports is the label of
    an allocated node together with the distance from the query to that
    node's stored vector. *)
Theorem search_reports_true_distances idx query (K ef_search num_initializations : Z) :
  Inv idx -> 0 < _cur_num_nodes idx -> num_initializations <> 0%Z ->
  exists results idx',
    search idx query K ef_search num_initializations = Some (results, idx')
    /\ forall r, In r results ->
         exists n, n < _cur_num_nodes idx
                   /\ fst r = query_distance idx query n
                   /\ snd r = getNodeLabel idx n.
Proof.
  intros HI Hne Hni.
  destruct (initializeSearch_returns idx query num_initializations Hni)
    as [entry_node Ee].
  destruct (beamSearch_spec idx query entry_node ef_search (_cur_num_nodes idx))
    as (st & E & _ & _ & Hlt).
  - now apply Inv_links_closed.
  - lia.
  - eapply initializeSearch_lt; eauto.
  - pose proof (beamSearch_sound _ _ _ _ _ _ E) as Hs.
    destruct (pop_down_to_suffix K (bs_neighbors st)) as [dropped Ed].
    eexists. eexists. unfold search, search_nodes. rewrite Ee, E.
    split; [reflexivity|].
    intros r Hr. apply (Permutation_in _ (std_sort_perm _)) in Hr.
    apply in_map_iff in Hr. destruct Hr as (p & <- & Hp).
    assert (Hp' : In p (bs_neighbors st)) by (rewrite Ed; apply in_or_app; auto).
    exists (snd p). split; [now apply Hlt|]. split; [apply Hs; exact Hp' | reflexivity].
Qed.

(** A search only reports nodes that can be reached from the entry node
    by following links: when it returns, [initializeSearch] has returned
    an entry node, and every reported node is linked to it. *)
Theorem search_reports_nodes_linked_to_the_entry idx query
        (K ef_search num_initializations : Z) nodes idx' :
  search_nodes idx query K ef_search num_initializations = Some (nodes, idx') ->
  exists entry_node,
    initializeSearch idx query num_initializations = Some entry_node
    /\ forall p, In p nodes -> linked idx entry_node (snd p).
Proof.
  unfold search_nodes.
  destruct (initializeSearch idx query num_initializations)
    as [entry_node|]; [|discriminate].
  destruct (beamSearch idx query entry_node ef_search)
    as [[beam idx1]|] eqn:E; [|discriminate].
  intros H. injection H as <- _. exists entry_node. split; [reflexivity|].
  intros p Hp.
  destruct (pop_down_to_suffix K beam) as [dropped Ed].
  apply (beamSearch_sound _ _ _ _ _ _ E). rewrite Ed. apply in_or_app. auto.
Qed.

End MoreIndexFacts.

(** ** The facts above, run on the example indexes *)

Section MoreGraphExamples.
Import FlatNav Example.

Lemma reachable_line3 : reachable line3.
Proof.
  apply (reachable_add_all empty4 line_points [false; true; true]).
  - exact reachable_empty4.
  - vm_compute. reflexivity.
Qed.

Lemma Inv_line3 : Inv line3.
Proof. apply reachable_Inv, reachable_line3. Qed.

Lemma is_permutation_inverse_example :
  is_permutation [1; 3; 0; 2] (_cur_num_nodes square4).
Proof.
  split; [reflexivity|]. split.
  - repeat constructor; simpl; intuition discriminate.
  - intros x Hx. change (_cur_num_nodes square4) with 4.
    simpl in Hx. intuition lia.
Qed.

Lemma setLink_stores_low_32_bits_witness :
  Z.of_nat (getLink (setLink square4 1 0 3) 1 0) = (Z.of_nat 3 mod 2 ^ 32)%Z
  /\ (forall n' i', i' < _M square4 -> (1, 0) <> (n', i') ->
        getLink (setLink square4 1 0 3) n' i' = getLink square4 n' i')
  /\ (forall n', getNodeData (setLink square4 1 0 3) n' = getNodeData square4 n'
                 /\ getNodeLabel (setLink square4 1 0 3) n' = getNodeLabel square4 n').
Proof.
  apply (setLink_stores_low_32_bits square4 1 0 3).
  - exact (proj1 Inv_square4).
  - vm_compute. lia.
  - vm_compute. lia.
Defined.

Lemma swapNodes_twice_restores_witness :
  node_view (swapNodes (swapNodes square4 0 3) 0 3) 3 = node_view square4 3
  /\ node_view (swapNodes square4 3 0) 3 = node_view (swapNodes square4 0 3) 3.
Proof.
  apply (swapNodes_twice_restores square4 0 3 3).
  - exact (proj1 Inv_square4).
  - vm_compute. lia.
  - vm_compute. lia.
Defined.

Lemma relabel_then_inverse_restores_witness :
  exists idx1 idx2,
    relabel square4 [2; 0; 3; 1] = Some idx1
    /\ relabel idx1 [1; 3; 0; 2] = Some idx2
    /\ _cur_num_nodes idx2 = _cur_num_nodes square4
    /\ forall v, v < _cur_num_nodes square4 ->
         getNodeData idx2 v = getNodeData square4 v
         /\ getNodeLabel idx2 v = getNodeLabel square4 v
         /\ getNodeLinks idx2 v = getNodeLinks square4 v.
Proof.
  apply (relabel_then_inverse_restores square4 [2; 0; 3; 1] [1; 3; 0; 2]).
  - exact Inv_square4.
  - exact is_permutation_example.
  - exact is_permutation_inverse_example.
  - change (_cur_num_nodes square4) with 4. intros v Hv.
    destruct v as [|[|[|[|v]]]]; [reflexivity .. | lia].
Defined.

Lemma search_does_not_affect_later_searches_witness :
  exists results idx',
    search square4 (vec [9; 9]%Z) 3 4 100 = Some (results, idx')
    /\ _index_memory idx' = _index_memory square4
    /\ same_shape square4 idx'
    /\ search idx' (vec [0; 1]%Z) 2 4 100 = search square4 (vec [0; 1]%Z) 2 4 100.
Proof.
  destruct (search square4 (vec [9; 9]%Z) 3 4 100) as [[results idx']|] eqn:E.
  - exists results, idx'. split; [reflexivity|].
    exact (search_does_not_affect_later_searches
             square4 (vec [9; 9]%Z) 3 4 100 results idx' (vec [0; 1]%Z) 2 4 100 E).
  - exfalso. vm_compute in E. discriminate E.
Defined.

Lemma search_result_count_witness :
  exists results idx',
    search square4 (vec [9; 9]%Z) 3 2 100 = Some (results, idx')
    /\ Nat.min (Z.to_nat 3) 1 <= length results
    /\ length results <= Nat.min (Z.to_nat 3) (Nat.max 1 (Z.to_nat 2)).
Proof.
  apply (search_result_count square4 (vec [9; 9]%Z) 3 2 100).
  - exact Inv_square4.
  - vm_compute. lia.
  - lia.
  - lia.
  - lia.
Defined.

Lemma search_negative_K_reports_the_beam_witness :
  exists entry_node beam idx',
    initializeSearch square4 (vec [9; 9]%Z) 100 = Some entry_node
    /\ beamSearch square4 (vec [9; 9]%Z) entry_node 4 = Some (beam, idx')
    /\ search_nodes square4 (vec [9; 9]%Z) (-1) 4 100 = Some (beam, idx').
Proof.
  apply (search_negative_K_reports_the_beam square4 (vec [9; 9]%Z) (-1) 4 100).
  - exact Inv_square4.
  - vm_compute. lia.
  - lia.
  - lia.
Defined.

Lemma initializeSearch_returns_nearest_sample_witness :
  let step := step_size square4 2 in
  exists entry_node,
  initializeSearch square4 (vec [9; 9]%Z) 2 = Some entry_node
  /\ 1 <= step
  /\ (exists k0, entry_node = k0 * step)
  /\ (0 < _cur_num_nodes square4 -> entry_node < _cur_num_nodes square4)
  /\ (_cur_num_nodes square4 = 0 -> entry_node = 0)
  /\ forall k, k * step < _cur_num_nodes square4 ->
       fltb (query_distance square4 (vec [9; 9]%Z) (k * step)) FLT_MAX = true ->
       fltb (query_distance square4 (vec [9; 9]%Z) entry_node) FLT_MAX = true
       /\ fltb (query_distance square4 (vec [9; 9]%Z) (k * step))
               (query_distance square4 (vec [9; 9]%Z) entry_node) = false.
Proof.
  apply (initializeSearch_returns_nearest_sample square4 (vec [9; 9]%Z) 2).
  - exact Inv_square4.
  - lia.
Defined.

Lemma selectNeighbors_keeps_a_nearest_witness :
  exists c,
    In c line_candidates
    /\ In c (selectNeighbors line3 line_candidates 2)
    /\ forall x, In x line_candidates -> fltb (fst x) (fst c) = false.
Proof.
  apply (selectNeighbors_keeps_a_nearest line3 line_candidates 2).
  - intros H. vm_compute in H. discriminate H.
  - lia.
Defined.

Lemma add_links_the_new_node_witness :
  exists idx' nb,
    add line3 (vec [11; 1]%Z) (int_label_of 4) 4 100 = Some (true, idx')
    /\ nb <> [] /\ NoDup nb /\ length nb <= _M line3
    /\ (forall n, In n nb -> n < _cur_num_nodes line3)
    /\ getNodeLinks idx' (_cur_num_nodes line3)
       = nb ++ repeat (_cur_num_nodes line3) (_M line3 - length nb).
Proof.
  apply (add_links_the_new_node line3 (vec [11; 1]%Z) (int_label_of 4) 4 100).
  - exact Inv_line3.
  - vm_compute. lia.
  - vm_compute. lia.
  - vm_compute. lia.
  - lia.
Defined.

(** A point next to the node 2 of the line: the new node 3 links to the
    node 2 only, which has a free slot and links back, while the nodes 0
    and 1 keep their links. *)
Lemma add_links_back_witness :
  exists idx',
    add line3 (vec [13; 0]%Z) (int_label_of 4) 4 100 = Some (true, idx')
    /\ getNodeLinks idx' 3 = [2; 3]
    /\ In 2 (getNodeLinks line3 2)
    /\ In 3 (getNodeLinks idx' 2)
    /\ getNodeLinks idx' 0 = getNodeLinks line3 0
    /\ getNodeLinks idx' 1 = getNodeLinks line3 1.
Proof.
  destruct (add_links_back line3 (vec [13; 0]%Z) (int_label_of 4) 4 100)
    as (idx' & E & Hback).
  - exact Inv_line3.
  - vm_compute. lia.
  - vm_compute. lia.
  - vm_compute. lia.
  - lia.
  - change (_cur_num_nodes line3) with 3 in Hback.
    assert (Enew : getNodeLinks idx' 3 = [2; 3]).
    { assert (E' := E). vm_compute in E'. injection E' as <-. vm_compute. reflexivity. }
    assert (Hself : In 2 (getNodeLinks line3 2)) by (vm_compute; auto).
    exists idx'. split; [exact E|]. split; [exact Enew|]. split; [exact Hself|].
    rewrite Enew in Hback. split; [|split].
    + destruct (Hback 2) as [_ H2]; [lia|].
      apply H2; [left; reflexivity | exact Hself].
    + destruct (Hback 0) as [H0 _]; [lia|].
      apply H0. intros [H|[H|[]]]; discriminate H.
    + destruct (Hback 1) as [H1 _]; [lia|].
      apply H1. intros [H|[H|[]]]; discriminate H.
Defined.

Lemma add_stores_vector_and_label_witness :
  exists r idx',
    add line3 (vec [11; 1]%Z) (int_label_of 4) 4 100 = Some (r, idx')
    /\ _cur_num_nodes idx' = S (_cur_num_nodes line3)
    /\ getNodeLabel idx' (_cur_num_nodes line3) = int_label_of 4
    /\ getNodeData idx' (_cur_num_nodes line3) = vec [11; 1]%Z.
Proof.
  destruct (add_stores_vector_and_label line3 (vec [11; 1]%Z) (int_label_of 4) 4 100)
    as (_ & _ & Hroom); [exact Inv_line3|].
  destruct Hroom as (r & idx' & E & Hcur & _ & _ & Hlabel & Hdata);
    [lia | vm_compute; lia|].
  exists r, idx'. split; [exact E|]. split; [exact Hcur|]. split.
  - apply Hlabel. reflexivity.
  - apply Hdata. reflexivity.
Defined.

Lemma outdegree_table_rows_witness :
  length (outdegree_table square4) = _cur_num_nodes square4
  /\ nth 2 (outdegree_table square4) []
     = filter (fun l => negb (l =? 2)) (map (getLink square4 2) (seq 0 (_M square4)))
  /\ (exists idx', reorder_gorder (fun _ _ => [2; 0; 3; 1]) square4 5 = Some idx'
                   /\ Inv idx'
                   /\ _cur_num_nodes idx' = _cur_num_nodes square4)
  /\ (exists idx', reorder_rcm (fun _ => [1; 3; 0; 2]) square4 = Some idx'
                   /\ Inv idx'
                   /\ _cur_num_nodes idx' = _cur_num_nodes square4).
Proof.
  destruct (outdegree_table_rows (fun _ _ => [2; 0; 3; 1]) (fun _ => [1; 3; 0; 2])
                                 square4 5 Inv_square4)
    as (Hlen & Hrows & Hg & Hr).
  assert (H2 : 2 < _cur_num_nodes square4) by (vm_compute; lia).
  split; [exact Hlen|]. split; [exact (proj1 (Hrows 2 H2))|]. split.
  - apply Hg. exact is_permutation_example.
  - apply Hr. exact is_permutation_inverse_example.
Defined.

Lemma loadIndex_rejects_truncated_file_witness :
  loadIndex ByteL2 (firstn 111 (saveIndex square4)) = None.
Proof.
  apply (loadIndex_rejects_truncated_file ByteL2 square4 111).
  - unfold serializable. vm_compute. repeat split; reflexivity.
  - vm_compute. lia.
Defined.

(** The four-point square with its visited set cleared, as [loadIndex]
    leaves it, followed by one stray byte. *)
Lemma loadIndex_ignores_trailing_bytes_witness :
  loadIndex ByteL2
            (saveIndex (set_visited_nodes square4 (ExplicitSet.make 5)) ++ [Byte.x2a])
  = Some (set_visited_nodes square4 (ExplicitSet.make 5)).
Proof.
  apply (loadIndex_ignores_trailing_bytes
           ByteL2 (set_visited_nodes square4 (ExplicitSet.make 5)) [Byte.x2a]).
  - unfold serializable. vm_compute. repeat split; reflexivity.
  - vm_compute. reflexivity.
  - vm_compute. reflexivity.
  - vm_compute. reflexivity.
Defined.

Lemma search_reports_true_distances_witness :
  exists results idx',
    search square4 (vec [9; 9]%Z) 3 4 100 = Some (results, idx')
    /\ forall r, In r results ->
         exists n, n < _cur_num_nodes square4
                   /\ fst r = query_distance square4 (vec [9; 9]%Z) n
                   /\ snd r = getNodeLabel square4 n.
Proof.
  apply (search_reports_true_distances square4 (vec [9; 9]%Z) 3 4 100).
  - exact Inv_square4.
  - vm_compute. lia.
  - lia.
Defined.

Lemma search_reports_nodes_linked_to_the_entry_witness :
  exists nodes idx' entry_node,
    search_nodes square4 (vec [9; 9]%Z) 3 4 100 = Some (nodes, idx')
    /\ initializeSearch square4 (vec [9; 9]%Z) 100 = Some entry_node
    /\ forall p, In p nodes -> linked square4 entry_node (snd p).
Proof.
  destruct (search_nodes square4 (vec [9; 9]%Z) 3 4 100) as [[nodes idx']|] eqn:E.
  - destruct (search_reports_nodes_linked_to_the_entry
                square4 (vec [9; 9]%Z) 3 4 100 nodes idx' E)
      as (entry_node & Ee & Hlinked).
    exists nodes, idx', entry_node. split; [reflexivity|]. split; assumption.
  - exfalso. vm_compute in E. discriminate E.
Defined.

End MoreGraphExamples.

(** * The index builder *)

Section ToolFacts.
Context {F : Type} {FO : float_ops F}.
Import FlatNav Tools.
#[local] Existing Instance int_label_t.




End ToolFacts.

Section ToolExamples.
Import FlatNav Tools Example.


End ToolExamples.

(** * More of the distance kernels *)

Section MoreKernelFacts.
Import Kernels.
Local Open Scope Z_scope.

(** ** The exact reading of the other kernels *)

Ltac exact_ops :=
  change (@fsub Z exact_arith) with Z.sub;
  change (@fadd Z exact_arith) with Z.add;
  change (@fmul Z exact_arith) with Z.mul;
  change (@fone Z exact_arith) with 1;
  change (@fzero Z exact_arith) with 0.

Lemma horizontal_sum_total (v : list Z) : horizontal_sum v = lane_total v.
Proof.
  destruct v as [|t0 rest]; [reflexivity|].
  unfold horizontal_sum. simpl.
  revert t0. induction rest as [|t rest IH]; intros t0; simpl; [lia|].
  rewrite IH. change (fadd t0 t) with (t0 + t). lia.
Qed.

Lemma lanewise_map {B : Type} (op : Z -> Z -> Z) (f g : B -> Z) (l : list B) :
  lanewise op (map f l) (map g l) = map (fun i => op (f i) (g i)) l.
Proof. induction l as [|a l IH]; simpl; [reflexivity | now rewrite IH]. Qed.

Lemma length_lanewise (op : Z -> Z -> Z) (u v : list Z) :
  length u = length v -> length (lanewise op u v) = length u.
Proof.
  revert v. induction u as [|a u IH]; intros [|b v] H; simpl in *; try discriminate; auto.
Qed.

Lemma lane_total_add (u v : list Z) :
  length u = length v ->
  lane_total (add_ps u v) = lane_total u + lane_total v.
Proof.
  revert v. induction u as [|a u IH]; intros [|b v] H; simpl in *;
    try discriminate; [reflexivity|].
  unfold add_ps in IH. rewrite IH by congruence.
  change (fadd a b) with (a + b). lia.
Qed.

Lemma lane_total_terms (f : nat -> Z) (off lanes : nat) :
  lane_total (map (fun i => f (off + i)%nat) (seq 0 lanes))
  = sum_upto f (off + lanes) - sum_upto f off.
Proof.
  induction lanes as [|lanes IH].
  - simpl. rewrite Nat.add_0_r. lia.
  - rewrite seq_S, map_app. simpl.
    assert (E : forall u v, lane_total (u ++ v) = lane_total u + lane_total v).
    { induction u as [|a u IHu]; intros v; simpl; [lia | rewrite IHu; lia]. }
    rewrite E, IH. simpl.
    replace (off + S lanes)%nat with (S (off + lanes)) by lia. simpl.
    change (fadd ?a ?b) with (a + b). lia.
Qed.

Lemma ip_step_total (lanes : nat) (x y : list Z) (off : nat) (sum : list Z) :
  length sum = lanes ->
  length (ip_step lanes x y off sum) = lanes
  /\ lane_total (ip_step lanes x y off sum)
     = lane_total sum
       + (sum_upto (ip_term x y) (off + lanes) - sum_upto (ip_term x y) off).
Proof.
  intros Hlen. unfold ip_step, mul_ps, loadu_ps.
  rewrite lanewise_map.
  assert (Hm : length (map (fun i => fmul (nth (off + i) x fzero) (nth (off + i) y fzero))
                           (seq 0 lanes)) = lanes)
    by now rewrite length_map, length_seq.
  split.
  - unfold add_ps. rewrite length_lanewise; congruence.
  - rewrite lane_total_add by congruence.
    f_equal. exact (lane_total_terms (ip_term x y) off lanes).
Qed.

Lemma l2_step_total (lanes : nat) (x y : list Z) (off : nat) (sum : list Z) :
  length sum = lanes ->
  length (l2_step lanes x y off sum) = lanes
  /\ lane_total (l2_step lanes x y off sum)
     = lane_total sum
       + (sum_upto (sq_term x y) (off + lanes) - sum_upto (sq_term x y) off).
Proof.
  intros Hlen. unfold l2_step, mul_ps, sub_ps, loadu_ps. cbv zeta.
  rewrite lanewise_map, (lanewise_map fmul).
  assert (Hm : length (map (fun i => fmul (fsub (nth (off + i) x fzero) (nth (off + i) y fzero))
                                          (fsub (nth (off + i) x fzero) (nth (off + i) y fzero)))
                           (seq 0 lanes)) = lanes)
    by now rewrite length_map, length_seq.
  split.
  - unfold add_ps. rewrite length_lanewise; congruence.
  - rewrite lane_total_add by congruence.
    f_equal. exact (lane_total_terms (sq_term x y) off lanes).
Qed.

Lemma l2_loop_avx_total (x y : list Z) (rounds : nat) :
  forall (off : nat) (sum : list Z),
    length sum = 8%nat ->
    length (l2_loop_avx rounds x y off sum) = 8%nat
    /\ lane_total (l2_loop_avx rounds x y off sum)
       = lane_total sum
         + (sum_upto (sq_term x y) (off + 16 * rounds)
            - sum_upto (sq_term x y) off).
Proof.
  induction rounds as [|rounds IH]; intros off sum Hlen.
  - split; [exact Hlen|]. rewrite Nat.mul_0_r, Nat.add_0_r. simpl. lia.
  - cbn [l2_loop_avx].
    destruct (l2_step_total 8 x y off _ Hlen) as [L0 T0].
    destruct (l2_step_total 8 x y (off + 8)%nat _ L0) as [L1 T1].
    destruct (IH (off + 16)%nat _ L1) as [LI TI].
    split; [exact LI|]. rewrite TI, T1, T0.
    replace (off + 8 + 8)%nat with (off + 16)%nat by lia.
    replace (off + 16 * S rounds)%nat with (off + 16 + 16 * rounds)%nat by lia.
    lia.
Qed.

Lemma ip_loop_sse_total (x y : list Z) (rounds : nat) :
  forall (off : nat) (sum : list Z),
    length sum = 4%nat ->
    length (ip_loop_sse rounds x y off sum) = 4%nat
    /\ lane_total (ip_loop_sse rounds x y off sum)
       = lane_total sum
         + (sum_upto (ip_term x y) (off + 16 * rounds)
            - sum_upto (ip_term x y) off).
Proof.
  induction rounds as [|rounds IH]; intros off sum Hlen.
  - split; [exact Hlen|]. rewrite Nat.mul_0_r, Nat.add_0_r. simpl. lia.
  - cbn [ip_loop_sse].
    destruct (ip_step_total 4 x y off _ Hlen) as [L0 T0].
    destruct (ip_step_total 4 x y (off + 4)%nat _ L0) as [L1 T1].
    destruct (ip_step_total 4 x y (off + 8)%nat _ L1) as [L2 T2].
    destruct (ip_step_total 4 x y (off + 12)%nat _ L2) as [L3 T3].
    destruct (IH (off + 16)%nat _ L3) as [LI TI].
    split; [exact LI|]. rewrite TI, T3, T2, T1, T0.
    replace (off + 4 + 4)%nat with (off + 8)%nat by lia.
    replace (off + 8 + 4)%nat with (off + 12)%nat by lia.
    replace (off + 12 + 4)%nat with (off + 16)%nat by lia.
    replace (off + 16 * S rounds)%nat with (off + 16 + 16 * rounds)%nat by lia.
    lia.
Qed.

Lemma ip_loop_avx512_total (x y : list Z) (rounds : nat) :
  forall (off : nat) (sum : list Z),
    length sum = 16%nat ->
    length (ip_loop_avx512 rounds x y off sum) = 16%nat
    /\ lane_total (ip_loop_avx512 rounds x y off sum)
       = lane_total sum
         + (sum_upto (ip_term x y) (off + 16 * rounds)
            - sum_upto (ip_term x y) off).
Proof.
  induction rounds as [|rounds IH]; intros off sum Hlen.
  - split; [exact Hlen|]. rewrite Nat.mul_0_r, Nat.add_0_r. simpl. lia.
  - cbn [ip_loop_avx512].
    destruct (ip_step_total 16 x y off _ Hlen) as [L0 T0].
    destruct (IH (off + 16)%nat _ L0) as [LI TI].
    split; [exact LI|]. rewrite TI, T0.
    replace (off + 16 * S rounds)%nat with (off + 16 + 16 * rounds)%nat by lia.
    lia.
Qed.

Lemma l2_loop_avx512_total (x y : list Z) (rounds : nat) :
  forall (off : nat) (sum : list Z),
    length sum = 16%nat ->
    length (l2_loop_avx512 rounds x y off sum) = 16%nat
    /\ lane_total (l2_loop_avx512 rounds x y off sum)
       = lane_total sum
         + (sum_upto (sq_term x y) (off + 16 * rounds)
            - sum_upto (sq_term x y) off).
Proof.
  induction rounds as [|rounds IH]; intros off sum Hlen.
  - split; [exact Hlen|]. rewrite Nat.mul_0_r, Nat.add_0_r. simpl. lia.
  - cbn [l2_loop_avx512].
    destruct (l2_step_total 16 x y off _ Hlen) as [L0 T0].
    destruct (IH (off + 16)%nat _ L0) as [LI TI].
    split; [exact LI|]. rewrite TI, T0.
    replace (off + 16 * S rounds)%nat with (off + 16 + 16 * rounds)%nat by lia.
    lia.
Qed.

Lemma ip_loop_4_total (x y : list Z) (rounds : nat) :
  forall (off : nat) (sum : list Z),
    length sum = 4%nat ->
    length (ip_loop_4 rounds x y off sum) = 4%nat
    /\ lane_total (ip_loop_4 rounds x y off sum)
       = lane_total sum
         + (sum_upto (ip_term x y) (off + 4 * rounds)
            - sum_upto (ip_term x y) off).
Proof.
  induction rounds as [|rounds IH]; intros off sum Hlen.
  - split; [exact Hlen|]. rewrite Nat.mul_0_r, Nat.add_0_r. simpl. lia.
  - cbn [ip_loop_4].
    destruct (ip_step_total 4 x y off _ Hlen) as [L0 T0].
    destruct (IH (off + 4)%nat _ L0) as [LI TI].
    split; [exact LI|]. rewrite TI, T0.
    replace (off + 4 * S rounds)%nat with (off + 4 + 4 * rounds)%nat by lia.
    lia.
Qed.

Lemma l2_loop_4_total (x y : list Z) (rounds : nat) :
  forall (off : nat) (sum : list Z),
    length sum = 4%nat ->
    length (l2_loop_4 rounds x y off sum) = 4%nat
    /\ lane_total (l2_loop_4 rounds x y off sum)
       = lane_total sum
         + (sum_upto (sq_term x y) (off + 4 * rounds)
            - sum_upto (sq_term x y) off).
Proof.
  induction rounds as [|rounds IH]; intros off sum Hlen.
  - split; [exact Hlen|]. rewrite Nat.mul_0_r, Nat.add_0_r. simpl. lia.
  - cbn [l2_loop_4].
    destruct (l2_step_total 4 x y off _ Hlen) as [L0 T0].
    destruct (IH (off + 4)%nat _ L0) as [LI TI].
    split; [exact LI|]. rewrite TI, T0.
    replace (off + 4 * S rounds)%nat with (off + 4 + 4 * rounds)%nat by lia.
    lia.
Qed.

Lemma ip_loop_avx_total (x y : list Z) (rounds : nat) :
  forall (off : nat) (sum : list Z),
    length sum = 8%nat ->
    length (ip_loop_avx rounds x y off sum) = 8%nat
    /\ lane_total (ip_loop_avx rounds x y off sum)
       = lane_total sum
         + (sum_upto (ip_term x y) (off + 16 * rounds)
            - sum_upto (ip_term x y) off).
Proof.
  induction rounds as [|rounds IH]; intros off sum Hlen.
  - split; [exact Hlen|]. rewrite Nat.mul_0_r, Nat.add_0_r. simpl. lia.
  - cbn [ip_loop_avx].
    destruct (ip_step_total 8 x y off _ Hlen) as [L0 T0].
    destruct (ip_step_total 8 x y (off + 8)%nat _ L0) as [L1 T1].
    destruct (IH (off + 16)%nat _ L1) as [LI TI].
    split; [exact LI|]. rewrite TI, T1, T0.
    replace (off + 8 + 8)%nat with (off + 16)%nat by lia.
    replace (off + 16 * S rounds)%nat with (off + 16 + 16 * rounds)%nat by lia.
    lia.
Qed.

Lemma shiftr_2 (n : nat) : Nat.shiftr n 2 = (n / 4)%nat.
Proof. rewrite Nat.shiftr_div_pow2. reflexivity. Qed.

Lemma shiftl_4 (n : nat) : Nat.shiftl n 4 = (16 * n)%nat.
Proof. rewrite Nat.shiftl_mul_pow2. change (2 ^ 4)%nat with 16%nat. lia. Qed.

Lemma shiftl_2 (n : nat) : Nat.shiftl n 2 = (4 * n)%nat.
Proof. rewrite Nat.shiftl_mul_pow2. change (2 ^ 2)%nat with 4%nat. lia. Qed.

Lemma lane_total_zeros (lanes : nat) : lane_total (set1_ps lanes fzero) = 0.
Proof.
  unfold set1_ps. induction lanes as [|n IH]; [reflexivity|].
  cbn [repeat lane_total fold_right]. fold (lane_total (repeat fzero n)).
  rewrite IH. reflexivity.
Qed.

Lemma length_set1_ps (lanes : nat) (v : Z) : length (set1_ps lanes v) = lanes.
Proof. apply repeat_length. Qed.

Lemma simd16_variants_sums (x y : list Z) (dimension : nat) :
  distanceImplSquaredL2SIMD16ExtAVX x y dimension
    = spec_squared_l2 x y (16 * (dimension / 16))
  /\ distanceImplInnerProductSIMD16ExtSSE x y dimension
     = spec_angular x y (16 * (dimension / 16)).
Proof.
  split.
  - unfold distanceImplSquaredL2SIMD16ExtAVX. cbv zeta.
    rewrite shiftr_4, horizontal_sum_total.
    destruct (l2_loop_avx_total x y (dimension / 16) 0 (set1_ps 8 fzero)
                (length_set1_ps 8 _)) as [_ ->].
    rewrite lane_total_zeros. unfold spec_squared_l2.
    change (0 + 16 * (dimension / 16))%nat with (16 * (dimension / 16))%nat.
    change (sum_upto (sq_term x y) 0) with 0. lia.
  - unfold distanceImplInnerProductSIMD16ExtSSE. cbv zeta.
    rewrite shiftr_4, horizontal_sum_total.
    destruct (ip_loop_sse_total x y (dimension / 16) 0 (set1_ps 4 fzero)
                (length_set1_ps 4 _)) as [_ ->].
    rewrite lane_total_zeros. unfold spec_angular.
    change (fsub fone ?a) with (1 - a).
    change (0 + 16 * (dimension / 16))%nat with (16 * (dimension / 16))%nat.
    change (sum_upto (ip_term x y) 0) with 0. lia.
Qed.

(** The AVX and AVX-512 variants of the squared-L2 kernel, and the SSE
    and AVX-512 variants of the inner-product kernel, read over exact
    arithmetic: the same sums over the first [16 * (D / 16)] coordinates
    as the variants that differ in register width only. *)
Theorem simd16_variants_compute_the_same_sums (x y : list Z) (dimension : nat) :
  distanceImplSquaredL2SIMD16ExtAVX x y dimension
    = spec_squared_l2 x y (16 * (dimension / 16))
  /\ distanceImplSquaredL2SIMD16ExtAVX512 x y dimension
     = spec_squared_l2 x y (16 * (dimension / 16))
  /\ distanceImplInnerProductSIMD16ExtSSE x y dimension
     = spec_angular x y (16 * (dimension / 16))
  /\ distanceImplInnerProductSIMD16ExtAVX512 x y dimension
     = spec_angular x y (16 * (dimension / 16))
  /\ distanceImplSquaredL2SIMD16ExtAVX x y dimension
     = distanceImplSquaredL2SIMD16ExtSSE x y dimension
  /\ distanceImplInnerProductSIMD16ExtSSE x y dimension
     = distanceImplInnerProductSIMD16ExtAVX x y dimension.
Proof.
  destruct (simd16_variants_sums x y dimension) as [E1 E2].
  split; [exact E1|]. split; [|split; [exact E2|split; [|split]]].
  - unfold distanceImplSquaredL2SIMD16ExtAVX512. cbv zeta.
    rewrite shiftr_4, horizontal_sum_total.
    destruct (l2_loop_avx512_total x y (dimension / 16) 0 (set1_ps 16 fzero)
                (length_set1_ps 16 _)) as [_ ->].
    rewrite lane_total_zeros. unfold spec_squared_l2.
    change (0 + 16 * (dimension / 16))%nat with (16 * (dimension / 16))%nat.
    change (sum_upto (sq_term x y) 0) with 0. lia.
  - unfold distanceImplInnerProductSIMD16ExtAVX512. cbv zeta.
    rewrite shiftr_4, horizontal_sum_total.
    destruct (ip_loop_avx512_total x y (dimension / 16) 0 (set1_ps 16 fzero)
                (length_set1_ps 16 _)) as [_ ->].
    rewrite lane_total_zeros. unfold spec_angular.
    change (fsub fone ?a) with (1 - a).
    change (0 + 16 * (dimension / 16))%nat with (16 * (dimension / 16))%nat.
    change (sum_upto (ip_term x y) 0) with 0. lia.
  - rewrite E1. symmetry. apply squared_l2_exact.
  - rewrite E2. symmetry. apply inner_product_exact.
Qed.

Lemma div16_le (n : nat) : (16 * (n / 16) <= n)%nat.
Proof. apply Nat.Div0.mul_div_le. Qed.

Lemma div4_le (n : nat) : (4 * (n / 4) <= n)%nat.
Proof. apply Nat.Div0.mul_div_le. Qed.

Lemma div16_div4 (n : nat) : (4 * (n / 16) <= n / 4)%nat.
Proof.
  replace (n / 16)%nat with (n / 4 / 4)%nat by (rewrite Nat.Div0.div_div; reflexivity).
  apply Nat.Div0.mul_div_le.
Qed.

Lemma div_mul_16 (n : nat) : (16 * n / 16 = n)%nat.
Proof. rewrite Nat.mul_comm. apply Nat.div_mul. discriminate. Qed.

Lemma div_mul_4 (n : nat) : (4 * n / 4 = n)%nat.
Proof. rewrite Nat.mul_comm. apply Nat.div_mul. discriminate. Qed.

Lemma lane_total_halves (v : list Z) :
  length v = 8%nat ->
  length (add_ps (extractf128_ps v 0) (extractf128_ps v 1)) = 4%nat
  /\ lane_total (add_ps (extractf128_ps v 0) (extractf128_ps v 1)) = lane_total v.
Proof.
  intros H.
  destruct v as [|a [|b [|c [|d [|e [|f [|g [|h [|? ?]]]]]]]]]; try discriminate H.
  split; [reflexivity|]. cbn. lia.
Qed.

Lemma residual_l2_total (x y : list Z) (residual : nat) :
  forall (off : nat) (acc : Z),
    residual_l2 residual x y off acc
    = acc + (sum_upto (sq_term x y) (off + residual) - sum_upto (sq_term x y) off).
Proof.
  induction residual as [|r IH]; intros off acc.
  - rewrite Nat.add_0_r. simpl. lia.
  - cbn [residual_l2]. cbv zeta. rewrite IH.
    replace (off + S r)%nat with (S off + r)%nat by lia.
    cbn [sum_upto]. unfold sq_term at 3.
    change (fadd ?a ?b) with (a + b). lia.
Qed.

Lemma residual_ip_total (x y : list Z) (residual : nat) :
  forall (off : nat) (acc : Z),
    residual_ip residual x y off acc
    = acc + (sum_upto (ip_term x y) (off + residual) - sum_upto (ip_term x y) off).
Proof.
  induction residual as [|r IH]; intros off acc.
  - rewrite Nat.add_0_r. simpl. lia.
  - cbn [residual_ip]. rewrite IH.
    replace (off + S r)%nat with (S off + r)%nat by lia.
    cbn [sum_upto]. unfold ip_term at 3.
    change (fadd ?a ?b) with (a + b). lia.
Qed.

Lemma squared_l2_simd4_exact (x y : list Z) (dimension : nat) :
  distanceImplSquaredL2SIMD4Ext x y dimension
  = spec_squared_l2 x y (4 * (dimension / 4)).
Proof.
  unfold distanceImplSquaredL2SIMD4Ext. cbv zeta.
  rewrite shiftr_2, horizontal_sum_total.
  destruct (l2_loop_4_total x y (dimension / 4) 0 (set1_ps 4 fzero)
              (length_set1_ps 4 _)) as [_ ->].
  rewrite lane_total_zeros. unfold spec_squared_l2.
  change (0 + 4 * (dimension / 4))%nat with (4 * (dimension / 4))%nat.
  change (sum_upto (sq_term x y) 0) with 0. lia.
Qed.

Lemma inner_product_simd4_sse_exact (x y : list Z) (dimension : nat) :
  distanceImplInnerProductSIMD4ExtSSE x y dimension
  = spec_angular x y (4 * (dimension / 4)).
Proof.
  unfold distanceImplInnerProductSIMD4ExtSSE. cbv zeta.
  rewrite shiftr_2, shiftr_4, shiftl_4, horizontal_sum_total.
  destruct (ip_loop_sse_total x y (dimension / 16) 0 (set1_ps 4 fzero)
              (length_set1_ps 4 _)) as [L1 T1].
  destruct (ip_loop_4_total x y (dimension / 4 - 4 * (dimension / 16))
              (16 * (dimension / 16)) _ L1) as [_ ->].
  rewrite T1, lane_total_zeros. unfold spec_angular.
  change (fsub fone ?a) with (1 - a).
  pose proof (div16_div4 dimension).
  replace (16 * (dimension / 16) + 4 * (dimension / 4 - 4 * (dimension / 16)))%nat
    with (4 * (dimension / 4))%nat by lia.
  change (0 + 16 * (dimension / 16))%nat with (16 * (dimension / 16))%nat.
  change (sum_upto (ip_term x y) 0) with 0. lia.
Qed.

(** The SIMD4 kernels, read over exact arithmetic, cover the first
    [4 * (D / 4)] coordinates: the 16-blocks first, then the remaining
    4-blocks. *)
Theorem simd4_kernels_compute_the_formulas (x y : list Z) (dimension : nat) :
  distanceImplSquaredL2SIMD4Ext x y dimension
    = spec_squared_l2 x y (4 * (dimension / 4))
  /\ distanceImplInnerProductSIMD4ExtSSE x y dimension
     = spec_angular x y (4 * (dimension / 4))
  /\ distanceImplInnerProductSIMD4ExtAVX x y dimension
     = spec_angular x y (4 * (dimension / 4)).
Proof.
  split; [apply squared_l2_simd4_exact|].
  split; [apply inner_product_simd4_sse_exact|].
  unfold distanceImplInnerProductSIMD4ExtAVX. cbv zeta.
  rewrite shiftr_2, shiftr_4, shiftl_4, horizontal_sum_total.
  destruct (ip_loop_avx_total x y (dimension / 16) 0 (set1_ps 8 fzero)
              (length_set1_ps 8 _)) as [L1 T1].
  destruct (lane_total_halves _ L1) as [L2 T2].
  destruct (ip_loop_4_total x y (dimension / 4 - 4 * (dimension / 16))
              (16 * (dimension / 16)) _ L2) as [_ ->].
  rewrite T2, T1, lane_total_zeros. unfold spec_angular.
  change (fsub fone ?a) with (1 - a).
  pose proof (div16_div4 dimension).
  replace (16 * (dimension / 16) + 4 * (dimension / 4 - 4 * (dimension / 16)))%nat
    with (4 * (dimension / 4))%nat by lia.
  change (0 + 16 * (dimension / 16))%nat with (16 * (dimension / 16))%nat.
  change (sum_upto (ip_term x y) 0) with 0. lia.
Qed.

(** The residual wrappers of squared L2 add the scalar tail to the SIMD
    part: over exact arithmetic they sum the squared differences of all
    [D] coordinates, whatever [D]. *)
Theorem squared_l2_residuals_cover_every_coordinate (x y : list Z) (dimension : nat) :
  distanceImplSquaredL2SIMD16ExtResiduals x y dimension
    = spec_squared_l2 x y dimension
  /\ distanceImplSquaredL2SIMD4ExtResiduals x y dimension
     = spec_squared_l2 x y dimension.
Proof.
  split.
  - unfold distanceImplSquaredL2SIMD16ExtResiduals. cbv zeta.
    rewrite shiftr_4, shiftl_4, squared_l2_exact, div_mul_16, residual_l2_total.
    pose proof (div16_le dimension).
    replace (16 * (dimension / 16) + (dimension - 16 * (dimension / 16)))%nat
      with dimension by lia.
    unfold spec_squared_l2. change (fadd ?a ?b) with (a + b).
    change (@fzero Z exact_arith) with 0. lia.
  - unfold distanceImplSquaredL2SIMD4ExtResiduals. cbv zeta.
    rewrite shiftr_2, shiftl_2, squared_l2_simd4_exact, div_mul_4, residual_l2_total.
    pose proof (div4_le dimension).
    replace (4 * (dimension / 4) + (dimension - 4 * (dimension / 4)))%nat
      with dimension by lia.
    unfold spec_squared_l2. change (fadd ?a ?b) with (a + b).
    change (@fzero Z exact_arith) with 0. lia.
Qed.

(** The residual wrappers of the inner product subtract from one twice,
    once inside the SIMD kernel and once at the end: over exact arithmetic
    they return the inner product of the SIMD part minus the inner product
    of the tail, which for [D] a multiple of the block size is the inner
    product itself, not one minus it. *)
Theorem inner_product_residuals_subtract_twice (x y : list Z) (dimension : nat) :
  let S := sum_upto (ip_term x y) in
  distanceImplInnerProductSIMD16ExtResiduals x y dimension
    = 2 * S (16 * (dimension / 16))%nat - S dimension
  /\ distanceImplInnerProductSIMD4ExtResiduals x y dimension
     = 2 * S (4 * (dimension / 4))%nat - S dimension
  /\ ((dimension mod 16 = 0)%nat ->
      distanceImplInnerProductSIMD16ExtResiduals x y dimension = S dimension
      /\ spec_angular x y dimension = 1 - S dimension).
Proof.
  intros S.
  assert (E16 : distanceImplInnerProductSIMD16ExtResiduals x y dimension
                = 2 * S (16 * (dimension / 16))%nat - S dimension).
  { unfold distanceImplInnerProductSIMD16ExtResiduals. cbv zeta.
    rewrite shiftr_4, shiftl_4, residual_ip_total.
    destruct (simd16_variants_sums x y (16 * (dimension / 16))) as [_ ->].
    rewrite div_mul_16.
    pose proof (div16_le dimension).
    replace (16 * (dimension / 16) + (dimension - 16 * (dimension / 16)))%nat
      with dimension by lia.
    unfold spec_angular. exact_ops. fold S. lia. }
  split; [exact E16|]. split.
  - unfold distanceImplInnerProductSIMD4ExtResiduals. cbv zeta.
    rewrite shiftr_2, shiftl_2, residual_ip_total, inner_product_simd4_sse_exact,
      div_mul_4.
    pose proof (div4_le dimension).
    replace (4 * (dimension / 4) + (dimension - 4 * (dimension / 4)))%nat
      with dimension by lia.
    unfold spec_angular. exact_ops. fold S. lia.
  - intros Hmod. rewrite E16.
    assert (E : (16 * (dimension / 16))%nat = dimension).
    { pose proof (Nat.div_mod_eq dimension 16). lia. }
    rewrite E. split; [lia | reflexivity].
Qed.

End MoreKernelFacts.

Section FloatKernelFacts.
Import Kernels.

(** ** IEEE binary32: symmetry, and the distance of a vector to itself *)

Lemma SFmul_comm prec emax (a b : spec_float) :
  SFmul prec emax a b = SFmul prec emax b a.
Proof.
  destruct a as [sa|sa| |sa ma ea], b as [sb|sb| |sb mb eb]; cbn [SFmul];
    try rewrite (xorb_comm sa sb); try reflexivity.
  now rewrite (Pos.mul_comm ma mb), (Z.add_comm ea eb).
Qed.

Lemma SFabs_binary_round_aux prec emax (s : bool) mx ex lx :
  SFabs (binary_round_aux prec emax s mx ex lx)
  = SFabs (binary_round_aux prec emax false mx ex lx).
Proof.
  unfold binary_round_aux.
  destruct (shr_fexp prec emax mx ex lx) as [mrs' e'].
  destruct (shr_fexp prec emax _ e' loc_Exact) as [mrs'' e''].
  destruct (shr_m mrs''); [reflexivity| |reflexivity].
  destruct (Z.leb e'' (emax - prec)); reflexivity.
Qed.

Lemma SFabs_binary_round prec emax (s : bool) m e :
  SFabs (binary_round prec emax s m e) = SFabs (binary_round prec emax false m e).
Proof.
  unfold binary_round.
  destruct (shl_align m e _) as [mz ez]. apply SFabs_binary_round_aux.
Qed.

Lemma SFabs_binary_normalize_opp prec emax (m e : Z) :
  SFabs (binary_normalize prec emax (- m) e false)
  = SFabs (binary_normalize prec emax m e false).
Proof.
  destruct m as [|p|p]; cbn [Z.opp binary_normalize]; [reflexivity| |].
  - apply SFabs_binary_round.
  - symmetry. apply SFabs_binary_round.
Qed.

(** The two differences of a pair of floats agree up to the sign. *)
Lemma SFabs_SFsub_swap prec emax (a b : spec_float) :
  SFabs (SFsub prec emax a b) = SFabs (SFsub prec emax b a).
Proof.
  destruct a as [sa|sa| |sa ma ea], b as [sb|sb| |sb mb eb];
    lazymatch goal with
    | |- context [SFsub _ _ (S754_finite _ _ _) (S754_finite _ _ _)] => idtac
    | _ => repeat match goal with s : bool |- _ => destruct s end; reflexivity
    end.
  cbn [SFsub]. rewrite (Z.min_comm eb ea).
  rewrite <- SFabs_binary_normalize_opp. f_equal. f_equal. lia.
Qed.

(** A square does not depend on the sign of its argument. *)
Lemma SFmul_square_abs prec emax (d : spec_float) :
  SFmul prec emax d d = SFmul prec emax (SFabs d) (SFabs d).
Proof.
  destruct d as [s|s| |s m e]; cbn [SFmul SFabs]; try rewrite xorb_nilpotent;
    reflexivity.
Qed.

Lemma square_of_difference_comm (a b : spec_float) :
  fmul (fsub a b) (fsub a b) = fmul (fsub b a) (fsub b a).
Proof.
  change (SFmul 24 128 (SFsub 24 128 a b) (SFsub 24 128 a b)
          = SFmul 24 128 (SFsub 24 128 b a) (SFsub 24 128 b a)).
  rewrite SFmul_square_abs, (SFmul_square_abs _ _ (SFsub 24 128 b a)).
  now rewrite SFabs_SFsub_swap.
Qed.

Lemma lanewise_map_gen {A B : Type} (op : A -> A -> A) (f g : B -> A) (l : list B) :
  lanewise op (map f l) (map g l) = map (fun i => op (f i) (g i)) l.
Proof. induction l as [|a l IH]; simpl; [reflexivity | now rewrite IH]. Qed.

Lemma ip_step_comm (lanes : nat) (x y : list spec_float) (off : nat) sum :
  ip_step lanes x y off sum = ip_step lanes y x off sum.
Proof.
  unfold ip_step, mul_ps, loadu_ps. rewrite !lanewise_map_gen. f_equal.
  apply map_ext. intros i. apply SFmul_comm.
Qed.

Lemma l2_step_comm (lanes : nat) (x y : list spec_float) (off : nat) sum :
  l2_step lanes x y off sum = l2_step lanes y x off sum.
Proof.
  unfold l2_step, mul_ps, sub_ps, loadu_ps. cbv zeta.
  rewrite !lanewise_map_gen. f_equal.
  apply map_ext. intros i. apply square_of_difference_comm.
Qed.

Lemma ip_loop_avx_comm (x y : list spec_float) (rounds : nat) :
  forall off sum, ip_loop_avx rounds x y off sum = ip_loop_avx rounds y x off sum.
Proof.
  induction rounds as [|r IH]; intros off sum; [reflexivity|].
  cbn [ip_loop_avx]. cbv zeta.
  now rewrite IH, (ip_step_comm 8 x y off), (ip_step_comm 8 x y (off + 8)).
Qed.

Lemma l2_loop_sse_comm (x y : list spec_float) (rounds : nat) :
  forall off sum, l2_loop_sse rounds x y off sum = l2_loop_sse rounds y x off sum.
Proof.
  induction rounds as [|r IH]; intros off sum; [reflexivity|].
  cbn [l2_loop_sse]. cbv zeta.
  now rewrite IH, (l2_step_comm 4 x y off), (l2_step_comm 4 x y (off + 4)),
    (l2_step_comm 4 x y (off + 8)), (l2_step_comm 4 x y (off + 12)).
Qed.

Lemma residual_l2_comm (x y : list spec_float) (residual : nat) :
  forall off acc, residual_l2 residual x y off acc = residual_l2 residual y x off acc.
Proof.
  induction residual as [|r IH]; intros off acc; [reflexivity|].
  cbn [residual_l2]. cbv zeta.
  now rewrite IH, (square_of_difference_comm (nth off x fzero) (nth off y fzero)).
Qed.

(** In IEEE binary32 the kernels are symmetric, whatever the inputs:
    exchanging the two vectors changes neither the inner-product
    distance nor the squared L2 distance, with or without the scalar
    tail.  The result is the same zero, finite number or infinity, sign
    included, or it is NaN both times; [spec_float] has one NaN, so
    which NaN the hardware returns (its sign and payload, which follow
    the first operand) is outside this statement. *)
Theorem kernels_are_symmetric (x y : list spec_float) (dimension : nat) :
  distanceImplInnerProductSIMD16ExtAVX x y dimension
    = distanceImplInnerProductSIMD16ExtAVX y x dimension
  /\ distanceImplSquaredL2SIMD16ExtSSE x y dimension
     = distanceImplSquaredL2SIMD16ExtSSE y x dimension
  /\ distanceImplSquaredL2SIMD16ExtResiduals x y dimension
     = distanceImplSquaredL2SIMD16ExtResiduals y x dimension.
Proof.
  assert (E : distanceImplSquaredL2SIMD16ExtSSE x y dimension
              = distanceImplSquaredL2SIMD16ExtSSE y x dimension).
  { unfold distanceImplSquaredL2SIMD16ExtSSE. cbv zeta. now rewrite l2_loop_sse_comm. }
  split; [|split; [exact E|]].
  - unfold distanceImplInnerProductSIMD16ExtAVX. cbv zeta. now rewrite ip_loop_avx_comm.
  - unfold distanceImplSquaredL2SIMD16ExtResiduals. cbv zeta.
    rewrite residual_l2_comm. f_equal.
    unfold distanceImplSquaredL2SIMD16ExtSSE. cbv zeta. now rewrite l2_loop_sse_comm.
Qed.

Lemma SFsub_diag prec emax (f : spec_float) :
  is_number f = true -> SFsub prec emax f f = S754_zero false.
Proof.
  destruct f as [s|s| |s m e]; try discriminate; intros _.
  - destruct s; reflexivity.
  - cbn [SFsub]. rewrite Z.min_id. unfold shl_align. rewrite Z.sub_diag.
    cbn [fst]. reflexivity.
Qed.

Lemma is_number_nth (x : list spec_float) (i : nat) :
  Forall (fun f => is_number f = true) x -> is_number (nth i x fzero) = true.
Proof.
  intros H. destruct (Nat.lt_ge_cases i (length x)) as [Hi|Hi].
  - rewrite Forall_forall in H. apply H. now apply nth_In.
  - rewrite nth_overflow by exact Hi. reflexivity.
Qed.

Lemma map_const {A B : Type} (b : B) (l : list A) :
  map (fun _ => b) l = repeat b (length l).
Proof. induction l as [|a l IH]; simpl; [reflexivity | now rewrite IH]. Qed.

Lemma lanewise_repeat {A : Type} (op : A -> A -> A) (a b : A) (n : nat) :
  lanewise op (repeat a n) (repeat b n) = repeat (op a b) n.
Proof. induction n as [|n IH]; simpl; [reflexivity | now rewrite IH]. Qed.

Lemma l2_step_self (lanes : nat) (x : list spec_float) (off : nat) :
  Forall (fun f => is_number f = true) x ->
  l2_step lanes x x off (repeat fzero lanes) = repeat fzero lanes.
Proof.
  intros Hx. unfold l2_step, mul_ps, sub_ps, add_ps, loadu_ps. cbv zeta.
  rewrite lanewise_map_gen.
  rewrite (map_ext _ (fun _ => fzero)).
  - rewrite map_const, length_seq, !lanewise_repeat. reflexivity.
  - intros i. apply SFsub_diag. now apply is_number_nth.
Qed.

Lemma l2_loop_sse_self (x : list spec_float) (rounds : nat) :
  Forall (fun f => is_number f = true) x ->
  forall off, l2_loop_sse rounds x x off (repeat fzero 4) = repeat fzero 4.
Proof.
  intros Hx. induction rounds as [|r IH]; intros off; [reflexivity|].
  cbn [l2_loop_sse]. cbv zeta. now rewrite !l2_step_self, IH.
Qed.

Lemma residual_l2_self (x : list spec_float) (residual : nat) :
  Forall (fun f => is_number f = true) x ->
  forall off, residual_l2 residual x x off fzero = fzero.
Proof.
  intros Hx. induction residual as [|r IH]; intros off; [reflexivity|].
  cbn [residual_l2]. cbv zeta.
  replace (fsub (nth off x fzero) (nth off x fzero)) with (S754_zero false)
    by (symmetry; apply (SFsub_diag 24 128); now apply is_number_nth).
  exact (IH (S off)).
Qed.

(** In IEEE binary32 the squared L2 distance of a vector of numbers (no
    infinity, no NaN) to itself is exactly [+0], with or without the
    scalar tail, whatever the dimension. *)
Theorem squared_l2_of_a_vector_to_itself (x : list spec_float) (dimension : nat) :
  Forall (fun f => is_number f = true) x ->
  distanceImplSquaredL2SIMD16ExtSSE x x dimension = S754_zero false
  /\ distanceImplSquaredL2SIMD16ExtResiduals x x dimension = S754_zero false.
Proof.
  intros Hx.
  assert (E : distanceImplSquaredL2SIMD16ExtSSE x x
                (Nat.shiftl (Nat.shiftr dimension 4) 4) = S754_zero false
              /\ distanceImplSquaredL2SIMD16ExtSSE x x dimension = S754_zero false).
  { unfold distanceImplSquaredL2SIMD16ExtSSE. cbv zeta.
    change (set1_ps 4 fzero) with (repeat (@fzero _ binary32) 4).
    rewrite !l2_loop_sse_self by exact Hx. split; reflexivity. }
  destruct E as [E1 E2]. split; [exact E2|].
  unfold distanceImplSquaredL2SIMD16ExtResiduals. cbv zeta.
  rewrite E1, residual_l2_self by exact Hx. reflexivity.
Qed.

End FloatKernelFacts.

(** * The contract of the SIMD16 kernels *)

Section LanewiseFacts.
Import Kernels.
Context {A : Type} {AR : arith A}.







End LanewiseFacts.

Section KernelContract.
Import Kernels.
Local Open Scope Z_scope.





End KernelContract.


Section MoreKernelExamples.
Import Kernels.

Lemma squared_l2_of_a_vector_to_itself_witness :
  distanceImplSquaredL2SIMD16ExtSSE (axis16 3) (axis16 3) 16 = S754_zero false
  /\ distanceImplSquaredL2SIMD16ExtResiduals (axis16 3) (axis16 3) 16
     = S754_zero false.
Proof.
  apply (squared_l2_of_a_vector_to_itself (axis16 3) 16).
  unfold axis16. repeat (constructor; [vm_compute; reflexivity|]). constructor.
Defined.

End MoreKernelExamples.

(** * k-means *)

Section MoreCentroidFacts.
Import Centroids.

(** ** Vectors updated in place *)





(** ** One round of k-means *)






(** ** [generateCentroids] *)








(** ** The selection loop of k-means++ stays inside the data *)

Lemma choose_in_range (threshold : spec_float) :
  forall (weights : list spec_float) (sum : spec_float) (index : nat),
    weights <> [] ->
    double_geb (fold_left double_add weights sum) threshold = true ->
    choose weights sum threshold index < index + length weights.
Proof.
  induction weights as [|w rest IH]; intros sum index Hne Hsum; [congruence|].
  simpl in *. destruct (double_geb (double_add sum w) threshold) eqn:E; [lia|].
  destruct rest as [|w' rest'].
  - simpl in Hsum. congruence.
  - specialize (IH (double_add sum w) (S index) ltac:(discriminate) Hsum).
    simpl in *. lia.
Qed.

(** When the threshold drawn does not exceed the total weight (as a value
    of [uniform_real_distribution(0, sum)] does), the point chosen as the
    next centroid is one of the [n] data points: the running sum is
    accumulated in the order of the total, so it reaches the threshold at
    the last point at the latest. *)
Theorem next_centroid_is_a_data_point (rng : Rng) (dim : nat)
        (centroids data : list spec_float) (n cent_idx : nat) :
  0 < n ->
  let sum := fold_left double_add
                       (min_squared_distances dim centroids data n cent_idx)
                       double_zero in
  double_geb sum (draw_real rng cent_idx sum) = true ->
  next_centroid rng dim centroids data n cent_idx < n.
Proof.
  intros Hn sum Hsum. unfold next_centroid. cbv zeta. fold sum.
  assert (Hl : length (min_squared_distances dim centroids data n cent_idx) = n)
    by (unfold min_squared_distances; now rewrite length_map, length_seq).
  pose proof (choose_in_range (draw_real rng cent_idx sum)
                (min_squared_distances dim centroids data n cent_idx)
                double_zero 0) as H.
  rewrite Hl in H. apply H; [|exact Hsum].
  intros E. rewrite E in Hl. simpl in Hl. lia.
Qed.

(** ** Random initialisation *)




End MoreCentroidFacts.

Section MoreCentroidExamples.
Import Centroids.
Import Strings.String.


Lemma next_centroid_is_a_data_point_witness :
  next_centroid example_rng 1 (copy_point 1 line_data 1 (repeat double_zero 2) 0)
                line_data 3 1 < 3.
Proof.
  apply (next_centroid_is_a_data_point
           example_rng 1 (copy_point 1 line_data 1 (repeat double_zero 2) 0)
           line_data 3 1).
  - lia.
  - vm_compute. reflexivity.
Defined.


End MoreCentroidExamples.
